(** * Micro-tonal interface: tuning engine, keyboard layouts and voice manager

    A shallow embedding of [audio-engine.js] (classes [AudioEngine] and
    [TuningSystem]), of [keyboard-layouts.js] ([KeyboardLayout], the four
    layout generators and [getLayout]) and of the keyboard generation and
    input routing of [app.js].

    Conventions of the embedding.
    - Step indices, grid sizes, rows and columns are JavaScript numbers that
      hold integers: they are [Z] here.  [%] is the truncating remainder
      [Z.rem]; [Math.floor (a / b)] on integers with [b <> 0] is [Z.div].
    - Frequencies are JavaScript doubles.  Their arithmetic is idealised over
      the real numbers [R]; [Math.pow 2 x] is [Rpower 2 x].  A frequency that
      JavaScript computes from [undefined] (hence [NaN]) is [None].  The
      idealisation leaves out the rounding, the overflow and the underflow
      of the doubles: [Binary64Tuning] has [TuningSystem] once more on
      IEEE 754 doubles, for what depends on them.
    - Strings are byte strings (UTF-8), so the musical sharp and flat signs
      are three bytes each.
    - The Web Audio objects belong to the browser.  The engine's calls to
      them are recorded in order, each object is named by the position of the
      call that created it, and what the browser answers (which calls throw,
      the clock, the state of the context) is an input of every call into
      the engine. *)

From Stdlib Require Import ZArith List String Ascii Bool Lia.
From Stdlib Require Import Reals Lra.
From Stdlib Require DecimalString DecimalPos DecimalZ Finite.
From Stdlib Require SpecFloat FloatClass.
Import ListNotations.

Local Open Scope string_scope.
Local Open Scope Z_scope.

(** ** JavaScript primitives used by the sources *)

Module JS.

(** [a % b] on integers. *)
Definition rem (a b : Z) : Z := Z.rem a b.

(** [Math.floor (a / b)] on integers, [b <> 0]. *)
Definition floor_div (a b : Z) : Z := Z.div a b.

(** [Math.ceil (a / b)] on integers, [b <> 0]. *)
Definition ceil_div (a b : Z) : Z := - Z.div (- a) b.

(** [arr[i]]: [undefined] (here [None]) outside [0 .. length - 1]. *)
Definition index {A : Type} (arr : list A) (i : Z) : option A :=
  if i <? 0 then None else nth_error arr (Z.to_nat i).

(** [Math.pow (x, y)] for a positive [x], over the reals: exact, with no
    rounding, overflow or underflow. *)
Definition pow (x y : R) : R := Rpower x y.

(** Decimal rendering of an integer inside a template literal: what
    JavaScript prints for an integer below [10 ^ 21] in magnitude. *)
Definition show_int (z : Z) : string :=
  DecimalString.NilZero.string_of_int (Z.to_int z).

(** Rendering of an array element inside a template literal. *)
Definition show_elem (o : option string) : string :=
  match o with
  | Some s => s
  | None => "undefined"
  end.

(** [s.includes (t)]: [t] occurs in [s] as a substring. *)
Fixpoint includes (s t : string) : bool :=
  if String.prefix t s then true
  else match s with
       | EmptyString => false
       | String _ s' => includes s' t
       end.

End JS.

(** ** Tuning systems ([class TuningSystem]) *)

Record TuningSystem : Type := mkTuningSystem { baseFrequency : R }.

(** [constructor (baseFrequency = 440)]. *)
Definition TuningSystem_new (baseFrequency : R) : TuningSystem :=
  mkTuningSystem baseFrequency.

Definition TuningSystem_default : TuningSystem := TuningSystem_new 440.

Definition setBaseFrequency (this : TuningSystem) (freq : R) : TuningSystem :=
  mkTuningSystem freq.

(** [getEDOFrequency (steps, divisions = 12, baseNote = 0)]. *)
Definition getEDOFrequency (this : TuningSystem)
    (steps divisions baseNote : Z) : R :=
  let ratio := JS.pow 2 (IZR (steps - baseNote) / IZR divisions) in
  (baseFrequency this * ratio)%R.

Definition get12EDO (this : TuningSystem) (semitones : Z) : R :=
  getEDOFrequency this semitones 12 0.

Definition get24EDO (this : TuningSystem) (steps : Z) : R :=
  getEDOFrequency this steps 24 0.

Definition get31EDO (this : TuningSystem) (steps : Z) : R :=
  getEDOFrequency this steps 31 0.

Definition get53EDO (this : TuningSystem) (steps : Z) : R :=
  getEDOFrequency this steps 53 0.

Definition justRatios : list R :=
  [ 1 / 1; 16 / 15; 9 / 8; 6 / 5; 5 / 4; 4 / 3;
    45 / 32; 3 / 2; 8 / 5; 5 / 3; 9 / 5; 15 / 8 ]%R.

Definition getJustIntonation (this : TuningSystem) (intervalIndex : Z)
    : option R :=
  let octave := JS.floor_div intervalIndex 12 in
  let index := JS.rem (JS.rem intervalIndex 12 + 12) 12 in
  match JS.index justRatios index with
  | Some ratio =>
      Some (baseFrequency this * ratio * JS.pow 2 (IZR octave))%R
  | None => None
  end.

Definition getFrequency (this : TuningSystem) (tuningType : string)
    (step : Z) : option R :=
  if String.eqb tuningType "12-edo" then Some (get12EDO this step)
  else if String.eqb tuningType "24-edo" then Some (get24EDO this step)
  else if String.eqb tuningType "31-edo" then Some (get31EDO this step)
  else if String.eqb tuningType "53-edo" then Some (get53EDO this step)
  else if String.eqb tuningType "just" then getJustIntonation this step
  else Some (get12EDO this step).

(** The tunings that [getFrequency] names in its [switch]. *)
Definition recognized_tuning (tuningType : string) : bool :=
  existsb (String.eqb tuningType)
          ["12-edo"; "24-edo"; "31-edo"; "53-edo"; "just"].

(** ** Key labels ([KeyboardLayout.getNoteNameFromStep]) *)

(** The numbers that the generic label branch can compute: an integer, or
    one of the non-finite values that a division by a parsed zero or by
    [NaN] produces. *)
Inductive JSNumber : Type :=
  | Int (z : Z)
  | NegZero
  | Infinity
  | NegInfinity
  | NaN.

Module Parse.

(** The white space and line terminator characters of the language, as
    UTF-8 byte strings. *)
Definition bytes (l : list nat) : string :=
  string_of_list_ascii (map ascii_of_nat l).

Definition whiteSpace : list string :=
  map bytes
    [ [9]; [10]; [11]; [12]; [13]; [32]; [194; 160]; [225; 154; 128];
      [226; 128; 128]; [226; 128; 129]; [226; 128; 130]; [226; 128; 131];
      [226; 128; 132]; [226; 128; 133]; [226; 128; 134]; [226; 128; 135];
      [226; 128; 136]; [226; 128; 137]; [226; 128; 138]; [226; 128; 168];
      [226; 128; 169]; [226; 128; 175]; [226; 129; 159]; [227; 128; 128];
      [239; 187; 191] ]%nat.

Fixpoint drop (n : nat) (s : string) : string :=
  match n, s with
  | S n', String _ s' => drop n' s'
  | _, _ => s
  end.

Definition strip_one (s : string) : option string :=
  match find (fun w => String.prefix w s) whiteSpace with
  | Some w => Some (drop (String.length w) s)
  | None => None
  end.

Fixpoint trimStart (fuel : nat) (s : string) : string :=
  match fuel with
  | O => s
  | S fuel' =>
      match strip_one s with
      | Some s' => trimStart fuel' s'
      | None => s
      end
  end.

Definition digit (radix : Z) (c : ascii) : option Z :=
  let n := Z.of_nat (nat_of_ascii c) in
  let v :=
    if (48 <=? n) && (n <=? 57) then Some (n - 48)
    else if (97 <=? n) && (n <=? 122) then Some (n - 87)
    else if (65 <=? n) && (n <=? 90) then Some (n - 55)
    else None in
  match v with
  | Some d => if d <? radix then Some d else None
  | None => None
  end.

(** The longest prefix of digits, read most significant first. *)
Fixpoint digits (radix : Z) (s : string) (acc : option Z) : option Z :=
  match s with
  | EmptyString => acc
  | String c s' =>
      match digit radix c with
      | Some d =>
          digits radix s'
            (Some (match acc with Some a => a * radix + d | None => d end))
      | None => acc
      end
  end.

(** [parseInt (s)] with no radix argument. *)
Definition parseInt (s : string) : JSNumber :=
  let s := trimStart (String.length s) s in
  let negative := String.prefix "-" s in
  let s := if String.prefix "-" s || String.prefix "+" s
           then drop 1 s else s in
  let hex := String.prefix "0x" s || String.prefix "0X" s in
  let mathInt :=
    if hex then digits 16 (drop 2 s) None else digits 10 s None in
  match mathInt with
  | None => NaN
  | Some 0 => if negative then NegZero else Int 0
  | Some m => Int (if negative then - m else m)
  end.

(** [s.split ('-')[0]]: the text before the first hyphen. *)
Fixpoint before_hyphen (s : string) : string :=
  match s with
  | EmptyString => EmptyString
  | String c s' =>
      if Ascii.eqb c "-"%char then EmptyString
      else String c (before_hyphen s')
  end.

End Parse.

Module Num.

(** [Math.floor (step / d)] for an integer [step] and a parsed [d]. *)
Definition floor_quot (step : Z) (d : JSNumber) : JSNumber :=
  match d with
  | Int 0 =>
      if 0 <? step then Infinity
      else if step <? 0 then NegInfinity else NaN
  | NegZero =>
      if 0 <? step then NegInfinity
      else if step <? 0 then Infinity else NaN
  | Int n => Int (JS.floor_div step n)
  | Infinity | NegInfinity => Int 0
  | NaN => NaN
  end.

(** [x + k] for an integer [k]. *)
Definition plus (x : JSNumber) (k : Z) : JSNumber :=
  match x with
  | Int z => Int (z + k)
  | NegZero => Int k
  | other => other
  end.

(** Rendering inside a template literal. *)
Definition show (x : JSNumber) : string :=
  match x with
  | Int z => JS.show_int z
  | NegZero => "0"
  | Infinity => "Infinity"
  | NegInfinity => "-Infinity"
  | NaN => "NaN"
  end.

End Num.

Definition noteNames : list string :=
  ["C"; "C#"; "D"; "D#"; "E"; "F"; "F#"; "G"; "G#"; "A"; "A#"; "B"].

Definition getNoteNameFromStep (step : Z) (tuningType : string) : string :=
  if String.eqb tuningType "12-edo" || String.eqb tuningType "just" then
    let octave := JS.floor_div step 12 + 4 in
    let note := JS.index noteNames (JS.rem (JS.rem step 12 + 12) 12) in
    JS.show_elem note ++ JS.show_int octave
  else if String.eqb tuningType "24-edo" then
    let octave := JS.floor_div step 24 + 4 in
    let noteIndex := JS.rem step 24 in
    if JS.rem noteIndex 2 =? 0 then
      JS.show_elem (JS.index noteNames (Z.quot noteIndex 2))
        ++ JS.show_int octave
    else
      let baseNote := JS.index noteNames (JS.floor_div noteIndex 2) in
      let nextNote := JS.index noteNames (JS.ceil_div noteIndex 2) in
      JS.show_elem baseNote ++ "♯/♭" ++ JS.show_elem nextNote
        ++ JS.show_int octave
  else
    let octave :=
      Num.plus
        (Num.floor_quot step (Parse.parseInt (Parse.before_hyphen tuningType)))
        4 in
    "St" ++ JS.show_int step ++ "O" ++ Num.show octave.

(** ** Key descriptors and the layout generators *)

Record KeyDescriptor : Type := mkKey {
  id : string;
  step : Z;
  frequency : option R;
  noteName : string;
  isAccidental : bool;
  row : Z;
  col : Z
}.

(** [for (let i = 0; i < bound; i++) body]: the body runs for
    [i = 0, 1, ..., bound - 1], threading the mutable state [S]. *)
Fixpoint for_from {S : Type} (count : nat) (i : Z)
    (body : Z -> S -> S) (s : S) : S :=
  match count with
  | O => s
  | Datatypes.S count' => for_from count' (i + 1) body (body i s)
  end.

Definition for_lt {S : Type} (bound : Z) (body : Z -> S -> S) (s : S) : S :=
  for_from (Z.to_nat bound) 0 body s.

(** [keys.push (k)]. *)
Definition push {A : Type} (keys : list A) (k : A) : list A := keys ++ [k].

Record Layout : Type := mkLayout {
  name : string;
  generator : TuningSystem -> string -> Z -> Z -> list KeyDescriptor
}.

Definition chromaticLayout : Layout :=
  mkLayout "Chromatic" (fun tuningSystem tuningType rows cols =>
    let totalKeys := rows * cols in
    let startNote := -12 in
    for_lt totalKeys (fun i keys =>
      let step := startNote + i in
      let frequency := getFrequency tuningSystem tuningType step in
      let noteName := getNoteNameFromStep step tuningType in
      let isAccidental :=
        JS.includes noteName "#" || JS.includes noteName "♯" in
      push keys
        (mkKey ("key-" ++ JS.show_int i) step frequency noteName isAccidental
               (JS.floor_div i cols) (JS.rem i cols))) []).

(** The state of the doubly nested loops: the array under construction and
    the [keyId] counter. *)
Definition grid_loop (rows cols : Z) (mk : Z -> Z -> Z -> KeyDescriptor)
    : list KeyDescriptor :=
  fst (for_lt rows (fun row st =>
         for_lt cols (fun col '(keys, keyId) =>
           (push keys (mk keyId row col), keyId + 1)) st)
       ([], 0)).

Definition wickiHaydenLayout : Layout :=
  mkLayout "Wicki-Hayden" (fun tuningSystem tuningType rows cols =>
    grid_loop rows cols (fun keyId row col =>
      let step := col * 7 + row * 2 - 12 in
      let frequency := getFrequency tuningSystem tuningType step in
      let noteName := getNoteNameFromStep step tuningType in
      mkKey ("key-" ++ JS.show_int keyId) step frequency noteName false
            row col)).

Definition harmonicLayout : Layout :=
  mkLayout "Harmonic Table" (fun tuningSystem tuningType rows cols =>
    grid_loop rows cols (fun keyId row col =>
      let step := col * 4 + row * 3 - 12 in
      let frequency := getFrequency tuningSystem tuningType step in
      let noteName := getNoteNameFromStep step tuningType in
      mkKey ("key-" ++ JS.show_int keyId) step frequency noteName false
            row col)).

Definition jankoLayout : Layout :=
  mkLayout "Janko" (fun tuningSystem tuningType rows cols =>
    grid_loop rows cols (fun keyId row col =>
      let rowOffset := JS.rem row 2 in
      let step := col * 2 + rowOffset + JS.floor_div row 2 * 12 - 12 in
      let frequency := getFrequency tuningSystem tuningType step in
      let noteName := getNoteNameFromStep step tuningType in
      mkKey ("key-" ++ JS.show_int keyId) step frequency noteName
            (JS.includes noteName "#" || JS.includes noteName "♯")
            row col)).

(** [generateKeys (tuningSystem, tuningType, rows = 6, cols = 8)]. *)
Definition generateKeys (this : Layout) (tuningSystem : TuningSystem)
    (tuningType : string) (rows cols : Z) : list KeyDescriptor :=
  generator this tuningSystem tuningType rows cols.

(** ** The layout registry and [getLayout] *)

(** What a property read on the [LAYOUTS] object literal can give: one of
    the four layouts that the literal defines, a member inherited from
    [Object.prototype], or [undefined]. *)
Inductive Value : Type :=
  | Undefined
  | LayoutObject (l : Layout)
  | Inherited (property : string).

Definition LAYOUTS : list (string * Layout) :=
  [ ("chromatic", chromaticLayout);
    ("wicki-hayden", wickiHaydenLayout);
    ("harmonic", harmonicLayout);
    ("janko", jankoLayout) ].

(** The property names of [Object.prototype], the prototype of every object
    literal. *)
Definition Object_prototype : list string :=
  [ "constructor"; "hasOwnProperty"; "isPrototypeOf";
    "propertyIsEnumerable"; "toLocaleString"; "toString"; "valueOf";
    "__proto__"; "__defineGetter__"; "__defineSetter__";
    "__lookupGetter__"; "__lookupSetter__" ].

Fixpoint own_property (o : list (string * Layout)) (key : string)
    : option Layout :=
  match o with
  | [] => None
  | (k, v) :: o' => if String.eqb k key then Some v else own_property o' key
  end.

(** [o[key]] on an object literal: own properties first, then the
    prototype. *)
Definition get_property (o : list (string * Layout)) (key : string) : Value :=
  match own_property o key with
  | Some l => LayoutObject l
  | None =>
      if existsb (String.eqb key) Object_prototype
      then Inherited key else Undefined
  end.

(** Objects and functions are truthy, [undefined] is falsy. *)
Definition truthy (v : Value) : bool :=
  match v with
  | Undefined => false
  | _ => true
  end.

(** [a || b]. *)
Definition or_else (a b : Value) : Value := if truthy a then a else b.

(** The names that the registry defines. *)
Definition recognized (layoutName : string) : bool :=
  existsb (String.eqb layoutName) (map fst LAYOUTS).

Definition getLayout (layoutName : string) : Value :=
  or_else (get_property LAYOUTS layoutName) (get_property LAYOUTS "chromatic").

(** ** The audio engine ([class AudioEngine]) *)

(** [Map] objects keyed by strings: an association list in insertion
    order, as [forEach] and [entries] enumerate it. *)
Module JSMap.

Definition t (V : Type) : Type := list (string * V).

Definition empty {V : Type} : t V := [].

Fixpoint get {V : Type} (m : t V) (k : string) : option V :=
  match m with
  | [] => None
  | (k', v) :: m' => if String.eqb k' k then Some v else get m' k
  end.

(** [m.set (k, v)]: an existing key keeps its position. *)
Fixpoint set {V : Type} (m : t V) (k : string) (v : V) : t V :=
  match m with
  | [] => [(k, v)]
  | (k', v') :: m' =>
      if String.eqb k' k then (k, v) :: m' else (k', v') :: set m' k v
  end.

Fixpoint delete {V : Type} (m : t V) (k : string) : t V :=
  match m with
  | [] => []
  | (k', v') :: m' =>
      if String.eqb k' k then delete m' k else (k', v') :: delete m' k
  end.

Definition keys {V : Type} (m : t V) : list string := map fst m.

(** How many entries the map holds for [k]. *)
Definition count {V : Type} (m : t V) (k : string) : nat :=
  List.length (filter (fun e => String.eqb (fst e) k) m).

End JSMap.

(** Nodes and contexts of the audio sink are named by handles. *)
Definition Handle : Type := nat.

(** The calls that the engine issues to the audio sink. *)
Inductive SinkCall : Type :=
  | NewAudioContext
  | ContextCreateGain (ctx : Handle)
  | GainValueSet (gain : Handle) (value : R)
  | ConnectDestination (node ctx : Handle)
  | Resume (ctx : Handle)
  | CreateOscillator (ctx : Handle)
  | CreateGain (ctx : Handle)
  | TypeSet (osc : Handle) (waveform : string)
  | FrequencySetValueAtTime (osc : Handle) (value : option R) (time : R)
  | GainSetValueAtTime (gain : Handle) (value time : R)
  | GainLinearRampToValueAtTime (gain : Handle) (value time : R)
  | GainCancelScheduledValues (gain : Handle) (time : R)
  | Connect (source target : Handle)
  | Start (osc : Handle)
  | Stop (osc : Handle) (time : R).

Inductive Error : Type :=
  | TypeError (message : string)
  | SinkError (call : SinkCall).

Inductive LogEntry : Type :=
  | console_log (message : string)
  | console_error (message : string) (error : Error).

(** The value stored per note identifier. *)
Record VoiceData : Type := mkVoice {
  oscillator : Handle;
  gainNode : Handle;
  voiceFrequency : option R
}.

(** The fields of the engine, together with the calls that reached the sink
    and the console output so far. *)
Record AudioEngine : Type := mkEngine {
  audioContext : option Handle;
  masterGain : option Handle;
  activeOscillators : JSMap.t VoiceData;
  waveform : string;
  volume : R;
  initialized : bool;
  sinkCalls : list SinkCall;
  console : list LogEntry
}.

(** [constructor ()]. *)
Definition AudioEngine_new : AudioEngine :=
  mkEngine None None JSMap.empty "sine" (1 / 2)%R false [] [].

(** What the browser decides during one call into the engine: which sink
    calls throw, the context's clock and state, and the instantaneous value
    of each gain parameter. *)
Record Browser : Type := mkBrowser {
  throws : SinkCall -> bool;
  currentTime : R;
  suspended : bool;
  gainValue : Handle -> R
}.

(** How a call ends. *)
Inductive Completion (A : Type) : Type :=
  | Normal (a : A)
  | Throw (e : Error).
Arguments Normal {A} a.
Arguments Throw {A} e.

(** Engine code: it reads the browser, updates the engine and either
    returns or throws; the updates made before a throw persist. *)
Definition M (A : Type) : Type :=
  Browser -> AudioEngine -> Completion A * AudioEngine.

Definition ret {A : Type} (a : A) : M A := fun _ s => (Normal a, s).

Definition bind {A B : Type} (m : M A) (f : A -> M B) : M B :=
  fun b s =>
    match m b s with
    | (Normal a, s') => f a b s'
    | (Throw e, s') => (Throw e, s')
    end.

Definition throw {A : Type} (e : Error) : M A := fun _ s => (Throw e, s).

(** [try { m } catch (error) { handler }]. *)
Definition try_catch (m : M unit) (handler : Error -> M unit) : M unit :=
  fun b s =>
    match m b s with
    | (Normal a, s') => (Normal a, s')
    | (Throw e, s') => handler e b s'
    end.

Definition gets {A : Type} (f : AudioEngine -> A) : M A :=
  fun _ s => (Normal (f s), s).

Definition modify (f : AudioEngine -> AudioEngine) : M unit :=
  fun _ s => (Normal tt, f s).

Definition ask {A : Type} (f : Browser -> A) : M A :=
  fun b s => (Normal (f b), s).

Declare Scope engine_scope.
Delimit Scope engine_scope with engine.
Notation "x <- m ;; k" := (bind m (fun x => k))
  (at level 61, m at next level, right associativity) : engine_scope.
Notation "m ;; k" := (bind m (fun _ => k))
  (at level 61, right associativity) : engine_scope.
Local Open Scope engine_scope.

Definition set_audioContext (h : Handle) (s : AudioEngine) : AudioEngine :=
  mkEngine (Some h) (masterGain s) (activeOscillators s) (waveform s)
           (volume s) (initialized s) (sinkCalls s) (console s).

Definition set_masterGain (h : Handle) (s : AudioEngine) : AudioEngine :=
  mkEngine (audioContext s) (Some h) (activeOscillators s) (waveform s)
           (volume s) (initialized s) (sinkCalls s) (console s).

Definition set_activeOscillators (m : JSMap.t VoiceData) (s : AudioEngine)
    : AudioEngine :=
  mkEngine (audioContext s) (masterGain s) m (waveform s)
           (volume s) (initialized s) (sinkCalls s) (console s).

Definition set_waveform (w : string) (s : AudioEngine) : AudioEngine :=
  mkEngine (audioContext s) (masterGain s) (activeOscillators s) w
           (volume s) (initialized s) (sinkCalls s) (console s).

Definition set_volume (v : R) (s : AudioEngine) : AudioEngine :=
  mkEngine (audioContext s) (masterGain s) (activeOscillators s) (waveform s)
           v (initialized s) (sinkCalls s) (console s).

Definition set_initialized (i : bool) (s : AudioEngine) : AudioEngine :=
  mkEngine (audioContext s) (masterGain s) (activeOscillators s) (waveform s)
           (volume s) i (sinkCalls s) (console s).

Definition add_sinkCall (c : SinkCall) (s : AudioEngine) : AudioEngine :=
  mkEngine (audioContext s) (masterGain s) (activeOscillators s) (waveform s)
           (volume s) (initialized s) (sinkCalls s ++ [c]) (console s).

Definition add_console (e : LogEntry) (s : AudioEngine) : AudioEngine :=
  mkEngine (audioContext s) (masterGain s) (activeOscillators s) (waveform s)
           (volume s) (initialized s) (sinkCalls s) (console s ++ [e]).

(** One call to the sink: it throws when the browser says so, and otherwise
    is recorded; the handle of what it creates is its position. *)
Definition sink (c : SinkCall) : M Handle :=
  fun b s =>
    if throws b c then (Throw (SinkError c), s)
    else (Normal (List.length (sinkCalls s)), add_sinkCall c s).

(** A call that answers with a promise and so does not throw. *)
Definition sink_async (c : SinkCall) : M unit :=
  modify (add_sinkCall c).

Definition log (e : LogEntry) : M unit := modify (add_console e).

(** [async initialize ()]: the body holds no [await], so it runs to its end
    inside the caller's turn. *)
Definition initialize : M unit :=
  init <- gets initialized ;;
  if init then ret tt
  else
    try_catch
      (ctx <- sink NewAudioContext ;;
       modify (set_audioContext ctx) ;;
       g <- sink (ContextCreateGain ctx) ;;
       modify (set_masterGain g) ;;
       v <- gets volume ;;
       sink (GainValueSet g v) ;;
       sink (ConnectDestination g ctx) ;;
       modify (set_initialized true) ;;
       log (console_log "Audio engine initialized"))
      (fun error => log (console_error "Failed to initialize audio:" error)).

Definition setVolume (value : R) : M unit :=
  modify (set_volume value) ;;
  mg <- gets masterGain ;;
  match mg with
  | Some g => sink (GainValueSet g value) ;; ret tt
  | None => ret tt
  end.

(** [m.forEach (f)] over the entries present when the iteration starts. *)
Fixpoint forEach {V : Type} (entries : list (string * V))
    (f : V -> string -> M unit) : M unit :=
  match entries with
  | [] => ret tt
  | (k, v) :: rest => f v k ;; forEach rest f
  end.

Definition setWaveform (w : string) : M unit :=
  modify (set_waveform w) ;;
  voices <- gets activeOscillators ;;
  forEach voices (fun data _ => sink (TypeSet (oscillator data) w) ;; ret tt).

Definition stopNote (noteId : string) : M unit :=
  voices <- gets activeOscillators ;;
  match JSMap.get voices noteId with
  | Some data =>
      ctx <- gets audioContext ;;
      match ctx with
      | None => throw (TypeError "Cannot read properties of null")
      | Some _ =>
          now <- ask currentTime ;;
          sink (GainCancelScheduledValues (gainNode data) now) ;;
          value <- ask (fun b => gainValue b (gainNode data)) ;;
          sink (GainSetValueAtTime (gainNode data) value now) ;;
          sink (GainLinearRampToValueAtTime (gainNode data) 0
                  (now + 1 / 10)%R) ;;
          sink (Stop (oscillator data) (now + 1 / 10)%R) ;;
          modify (fun s =>
            set_activeOscillators (JSMap.delete (activeOscillators s) noteId)
                                  s)
      end
  | None => ret tt
  end.

(** The statements of the [try] block of [playNote]. *)
Definition createVoice (ctx : Handle) (noteId : string)
    (frequency : option R) : M unit :=
  osc <- sink (CreateOscillator ctx) ;;
  g <- sink (CreateGain ctx) ;;
  w <- gets waveform ;;
  sink (TypeSet osc w) ;;
  now <- ask currentTime ;;
  sink (FrequencySetValueAtTime osc frequency now) ;;
  sink (GainSetValueAtTime g 0 now) ;;
  sink (GainLinearRampToValueAtTime g (3 / 10) (now + 5 / 100)%R) ;;
  sink (Connect osc g) ;;
  mg <- gets masterGain ;;
  match mg with
  | None => throw (TypeError "connect: parameter 1 is not an AudioNode")
  | Some m => sink (Connect g m)
  end ;;
  sink (Start osc) ;;
  modify (fun s =>
    set_activeOscillators
      (JSMap.set (activeOscillators s) noteId (mkVoice osc g frequency)) s).

Definition playNote (noteId : string) (frequency : option R) : M unit :=
  init <- gets initialized ;;
  (if negb init then initialize else ret tt) ;;
  ctx <- gets audioContext ;;
  match ctx with
  | None => throw (TypeError "Cannot read properties of null")
  | Some ctx =>
      susp <- ask suspended ;;
      (if susp then sink_async (Resume ctx) else ret tt) ;;
      stopNote noteId ;;
      try_catch (createVoice ctx noteId frequency)
        (fun error => log (console_error "Failed to play note:" error))
  end.

(** [forEach] reads the map as it goes, so an entry that an earlier
    callback deleted is not visited. *)
Fixpoint stopAll_loop (pending : list string) : M unit :=
  match pending with
  | [] => ret tt
  | noteId :: rest =>
      voices <- gets activeOscillators ;;
      match JSMap.get voices noteId with
      | Some _ => stopNote noteId ;; stopAll_loop rest
      | None => stopAll_loop rest
      end
  end.

Definition stopAllNotes : M unit :=
  voices <- gets activeOscillators ;;
  stopAll_loop (JSMap.keys voices).

Definition getActiveNotes (s : AudioEngine) : list (string * option R) :=
  map (fun e => (fst e, voiceFrequency (snd e))) (activeOscillators s).

(** ** Sequences of calls into the engine

    The page calls the engine from its event handlers, one call per turn of
    the event loop; a call that throws ends its handler and leaves the engine
    as it was at the throw. *)
Inductive Op : Type :=
  | OpInitialize
  | OpSetVolume (value : R)
  | OpSetWaveform (w : string)
  | OpPlayNote (noteId : string) (frequency : option R)
  | OpStopNote (noteId : string)
  | OpStopAllNotes.

Definition run_op (op : Op) : M unit :=
  match op with
  | OpInitialize => initialize
  | OpSetVolume value => setVolume value
  | OpSetWaveform w => setWaveform w
  | OpPlayNote noteId frequency => playNote noteId frequency
  | OpStopNote noteId => stopNote noteId
  | OpStopAllNotes => stopAllNotes
  end.

Fixpoint run (ops : list (Op * Browser)) (s : AudioEngine) : AudioEngine :=
  match ops with
  | [] => s
  | (op, b) :: rest => run rest (snd (run_op op b s))
  end.

(** A browser in which no sink call throws. *)
Definition working (b : Browser) : Prop := forall c, throws b c = false.

(** ** The step formulas of the layouts, as the specification tabulates
    them *)

Inductive LayoutId : Type := Chromatic | WickiHayden | HarmonicTable | Janko.

Definition layout_of (l : LayoutId) : Layout :=
  match l with
  | Chromatic => chromaticLayout
  | WickiHayden => wickiHaydenLayout
  | HarmonicTable => harmonicLayout
  | Janko => jankoLayout
  end.

Definition stepIndex_spec (l : LayoutId) (cols row col : Z) : Z :=
  match l with
  | Chromatic => row * cols + col - 12
  | WickiHayden => col * 7 + row * 2 - 12
  | HarmonicTable => col * 4 + row * 3 - 12
  | Janko => col * 2 + row mod 2 + (row / 2) * 12 - 12
  end.

(** A label contains a sharp marker: the ASCII number sign or the musical
    sharp sign occurs in it. *)
Definition contains (label marker : string) : Prop :=
  exists before after, label = before ++ marker ++ after.

Definition has_sharp_marker (label : string) : Prop :=
  contains label "#" \/ contains label "♯".

(** [first, first + 1, ..., first + count - 1]. *)
Definition zrange (first : Z) (count : nat) : list Z :=
  map (fun k => first + Z.of_nat k) (seq 0 count).

(** The descriptor that the chromatic generator pushes at index [i]. *)
Definition chromatic_key (tuningSystem : TuningSystem) (tuningType : string)
    (cols i : Z) : KeyDescriptor :=
  let step := -12 + i in
  let noteName := getNoteNameFromStep step tuningType in
  mkKey ("key-" ++ JS.show_int i) step
        (getFrequency tuningSystem tuningType step) noteName
        (JS.includes noteName "#" || JS.includes noteName "♯")
        (JS.floor_div i cols) (JS.rem i cols).

(** One row of a grid layout. *)
Definition row_keys (mk : Z -> Z -> Z -> KeyDescriptor) (firstId row : Z)
    (count : nat) : list KeyDescriptor :=
  map (fun c => mk (firstId + c) row c) (zrange 0 count).

(** ** Invariants of engine code *)

(** [m] keeps [P]: whatever the browser does and however [m] ends, the
    engine satisfies [P] afterwards if it did before. *)
Definition preserves {A : Type} (P : AudioEngine -> Prop) (m : M A) : Prop :=
  forall (b : Browser) (s : AudioEngine), P s -> P (snd (m b s)).

(** The map of voices holds each note identifier at most once. *)
Definition one_voice_per_note (s : AudioEngine) : Prop :=
  NoDup (JSMap.keys (activeOscillators s)).

(** A browser without Web Audio: constructing the context throws. *)
Definition no_audio : Browser :=
  mkBrowser (fun c => match c with NewAudioContext => true | _ => false end)
            0 false (fun _ => 0%R).

(** A browser in which everything works and the context is running. *)
Definition audio_ok (now : R) : Browser :=
  mkBrowser (fun _ => false) now false (fun _ => (3 / 10)%R).

(** A browser that refuses to create oscillators. *)
Definition no_oscillators : Browser :=
  mkBrowser (fun c => match c with CreateOscillator _ => true | _ => false end)
            1 false (fun _ => (3 / 10)%R).

(** The browser accepts the four sink calls by which [stopNote] releases
    the voice [data]. *)
Definition releases (b : Browser) (data : VoiceData) : Prop :=
  throws b (GainCancelScheduledValues (gainNode data) (currentTime b)) = false
  /\ throws b (GainSetValueAtTime (gainNode data)
                                  (gainValue b (gainNode data))
                                  (currentTime b)) = false
  /\ throws b (GainLinearRampToValueAtTime (gainNode data) 0
                                           (currentTime b + 1 / 10)%R) = false
  /\ throws b (Stop (oscillator data) (currentTime b + 1 / 10)%R) = false.

(** The engine as [playNote] leaves it before its [try] block, when the
    engine is initialised with context [ctx]. *)
Definition before_creation (ctx : Handle) (noteId : string) (b : Browser)
    (s : AudioEngine) : AudioEngine :=
  snd (stopNote noteId b
         (if suspended b then add_sinkCall (Resume ctx) s else s)).

(** The browser refuses the frequency: [setValueAtTime] throws on it, as
    the Web Audio API requires for a value that is not finite. *)
Definition refuses (b : Browser) (frequency : option R) : Prop :=
  forall (osc : Handle) (now : R),
    throws b (FrequencySetValueAtTime osc frequency now) = true.

(** A browser in which everything works and a frequency that is not a
    number is refused. *)
Definition rejects_NaN : Browser :=
  mkBrowser (fun c => match c with
                      | FrequencySetValueAtTime _ None _ => true
                      | _ => false
                      end)
            0 false (fun _ => (3 / 10)%R).

(** An initialised engine holds its context and its master gain. *)
Definition initialized_has_sink (s : AudioEngine) : Prop :=
  initialized s = true ->
  exists ctx m : Handle, audioContext s = Some ctx /\ masterGain s = Some m.

(** What [playNote] does once the engine holds the context [ctx]: the
    statements after the lazy initialisation and the read of the context. *)
Definition playNote_with_context (ctx : Handle) (noteId : string)
    (frequency : option R) : M unit :=
  susp <- ask suspended ;;
  (if susp then sink_async (Resume ctx) else ret tt) ;;
  stopNote noteId ;;
  try_catch (createVoice ctx noteId frequency)
    (fun error => log (console_error "Failed to play note:" error)).

(** The engine after [playNote ('a', 440)] in a browser where the sink
    works. *)
Definition engine_playing_a : AudioEngine :=
  run [(OpPlayNote "a" (Some 440%R), audio_ok 0)] AudioEngine_new.

(** The steps of the five raised notes of the octave, the black keys of a
    piano: C sharp, D sharp, F sharp, G sharp and A sharp. *)
Definition black_key (step : Z) : bool :=
  existsb (Z.eqb (step mod 12)) [1; 3; 6; 8; 10].

(** The tuning identifiers that [getNoteNameFromStep] labels by name: all
    others get the generic step-and-octave label. *)
Definition named_tuning (tuningType : string) : bool :=
  existsb (String.eqb tuningType) ["12-edo"; "just"; "24-edo"].

(** A character other than the number sign and other than byte 226, the
    first byte of the musical sharp sign. *)
Definition plain_char (c : ascii) : Prop :=
  c <> "#"%char /\ c <> "226"%char.

(** The intervals that the layouts are built on, in steps: from a key to
    its right neighbour, and from a key to the key two rows further. *)
Definition column_interval (l : LayoutId) : Z :=
  match l with
  | Chromatic => 1
  | WickiHayden => 7
  | HarmonicTable => 4
  | Janko => 2
  end.

Definition two_rows_interval (l : LayoutId) (cols : Z) : Z :=
  match l with
  | Chromatic => 2 * cols
  | WickiHayden => 4
  | HarmonicTable => 6
  | Janko => 12
  end.

(** ** What the sink is sounding

    The oscillators that the recorded calls have started and not yet told
    to stop, in the order in which they were started. *)
Definition sounding_step (acc : list Handle) (c : SinkCall) : list Handle :=
  match c with
  | Start osc => acc ++ [osc]
  | Stop osc _ => remove Nat.eq_dec osc acc
  | _ => acc
  end.

Definition sounding (calls : list SinkCall) : list Handle :=
  fold_left sounding_step calls [].

(** A call that neither starts nor stops an oscillator. *)
Definition quiet (c : SinkCall) : bool :=
  match c with
  | Start _ | Stop _ _ => false
  | _ => true
  end.

(** The oscillators of the registered voices, in the order of the map. *)
Definition voice_oscillators (voices : JSMap.t VoiceData) : list Handle :=
  map (fun e => oscillator (snd e)) voices.

(** The map of voices agrees with the sink: the registered oscillators are
    the sounding ones, each under one note identifier, and all of them were
    created by recorded calls. *)
Definition voices_match_sink (voices : JSMap.t VoiceData)
    (calls : list SinkCall) : Prop :=
  sounding calls = voice_oscillators voices
  /\ NoDup (JSMap.keys voices)
  /\ NoDup (voice_oscillators voices)
  /\ Forall (fun osc => (osc < List.length calls)%nat)
            (voice_oscillators voices).

Definition consistent (s : AudioEngine) : Prop :=
  voices_match_sink (activeOscillators s) (sinkCalls s).

(** The voices of the notes other than [noteId] are those of the
    map [voices]. *)
Definition others_as_in (voices : JSMap.t VoiceData) (noteId : string)
    (s : AudioEngine) : Prop :=
  forall other : string,
    other <> noteId ->
    JSMap.get (activeOscillators s) other = JSMap.get voices other.

(** How many audio contexts the recorded calls have constructed. *)
Definition contexts_constructed (s : AudioEngine) : nat :=
  count_occ (fun a b : bool => Bool.bool_dec a b)
    (map (fun c => match c with NewAudioContext => true | _ => false end)
         (sinkCalls s))
    true.

(** The engine is initialised and has constructed [n] contexts. *)
Definition initialized_with (n : nat) (s : AudioEngine) : Prop :=
  initialized s = true /\ contexts_constructed s = n.

(** ** The page ([app.js]): keyboard generation and the routing of touches

    Of the document, the model keeps what the handlers read and write: the
    key elements of the keyboard container, each with its identifier, the
    frequency in its data set and whether it carries the class [active].
    What the browser reports with an event (which key element lies under a
    touch point) is an input of the handler.  The text of the note display
    is left out. *)
Module Router.

(** A touch identifier, or the literal ['mouse']. *)
Inductive TouchId : Type :=
  | Touch (identifier : Z)
  | Mouse.

Definition TouchId_eqb (a b : TouchId) : bool :=
  match a, b with
  | Touch i, Touch j => Z.eqb i j
  | Mouse, Mouse => true
  | _, _ => false
  end.

(** [activeTouches]: a [Map] from touch identifiers to key identifiers, in
    insertion order. *)
Definition Touches : Type := list (TouchId * string).

Fixpoint touches_get (m : Touches) (t : TouchId) : option string :=
  match m with
  | [] => None
  | (t', k) :: m' => if TouchId_eqb t' t then Some k else touches_get m' t
  end.

Fixpoint touches_set (m : Touches) (t : TouchId) (k : string) : Touches :=
  match m with
  | [] => [(t, k)]
  | (t', k') :: m' =>
      if TouchId_eqb t' t then (t, k) :: m' else (t', k') :: touches_set m' t k
  end.

(** The loop of [stopKey]: every entry whose value is [keyId] is deleted
    while the map is iterated. *)
Definition touches_release (m : Touches) (keyId : string) : Touches :=
  filter (fun e => negb (String.eqb (snd e) keyId)) m.

(** A key element of the document.  [dataset.frequency] holds the number
    as a string, which [parseFloat] reads back. *)
Record KeyElement : Type := mkElement {
  elementId : string;
  datasetFrequency : option R;
  isActive : bool
}.

Definition createKeyElement (keyData : KeyDescriptor) : KeyElement :=
  mkElement (id keyData) (frequency keyData) false.

(** The globals of the script and the key elements of the document;
    [initOnTouch] and [initOnMouse] say whether the two listeners that
    initialise the audio on the first gesture are still registered. *)
Record Page : Type := mkPage {
  audioEngine : AudioEngine;
  tuningSystem : TuningSystem;
  currentLayout : string;
  currentTuning : string;
  activeTouches : Touches;
  keyboard : list KeyElement;
  initOnTouch : bool;
  initOnMouse : bool
}.

Definition set_engine (s : AudioEngine) (p : Page) : Page :=
  mkPage s (tuningSystem p) (currentLayout p) (currentTuning p)
         (activeTouches p) (keyboard p) (initOnTouch p) (initOnMouse p).

Definition set_tuningSystem (ts : TuningSystem) (p : Page) : Page :=
  mkPage (audioEngine p) ts (currentLayout p) (currentTuning p)
         (activeTouches p) (keyboard p) (initOnTouch p) (initOnMouse p).

Definition set_currentLayout (l : string) (p : Page) : Page :=
  mkPage (audioEngine p) (tuningSystem p) l (currentTuning p)
         (activeTouches p) (keyboard p) (initOnTouch p) (initOnMouse p).

Definition set_currentTuning (t : string) (p : Page) : Page :=
  mkPage (audioEngine p) (tuningSystem p) (currentLayout p) t
         (activeTouches p) (keyboard p) (initOnTouch p) (initOnMouse p).

Definition set_touches (f : Touches -> Touches) (p : Page) : Page :=
  mkPage (audioEngine p) (tuningSystem p) (currentLayout p) (currentTuning p)
         (f (activeTouches p)) (keyboard p) (initOnTouch p) (initOnMouse p).

Definition set_keyboard (k : list KeyElement) (p : Page) : Page :=
  mkPage (audioEngine p) (tuningSystem p) (currentLayout p) (currentTuning p)
         (activeTouches p) k (initOnTouch p) (initOnMouse p).

Definition set_initOnTouch (flag : bool) (p : Page) : Page :=
  mkPage (audioEngine p) (tuningSystem p) (currentLayout p) (currentTuning p)
         (activeTouches p) (keyboard p) flag (initOnMouse p).

Definition set_initOnMouse (flag : bool) (p : Page) : Page :=
  mkPage (audioEngine p) (tuningSystem p) (currentLayout p) (currentTuning p)
         (activeTouches p) (keyboard p) (initOnTouch p) flag.

(** A class name that [classList.add] refuses: the empty token, or one
    with ASCII white space. *)
Definition invalid_token (name : string) : bool :=
  match name with
  | EmptyString => true
  | _ =>
      existsb (fun c => existsb (Ascii.eqb c)
                          ["009"; "010"; "012"; "013"; " "]%char)
              (list_ascii_of_string name)
  end.

(** The keys that [generateKeyboard] creates; [None] when it throws before
    creating any, because the class name is refused or because what
    [getLayout] returned has no [generator]. *)
Definition generateKeyboard_keys (p : Page) : option (list KeyDescriptor) :=
  if invalid_token (currentLayout p) then None
  else
    match getLayout (currentLayout p) with
    | LayoutObject layout =>
        let '(rows, cols) :=
          if String.eqb (currentLayout p) "chromatic"
          then (4, 12) else (6, 8) in
        Some (generator layout (tuningSystem p) (currentTuning p) rows cols)
    | _ => None
    end.

(** [generateKeyboard]: the container is emptied first, then filled. *)
Definition generateKeyboard (p : Page) : Page :=
  match generateKeyboard_keys p with
  | Some keys => set_keyboard (map createKeyElement keys) p
  | None => set_keyboard [] p
  end.

(** [initializeApp]: a new engine, the tuning system at 440 Hz, the
    chromatic layout under 12-EDO, no touches, and the first keyboard. *)
Definition Page_new : Page :=
  generateKeyboard
    (mkPage AudioEngine_new (TuningSystem_new 440) "chromatic" "12-edo"
            [] [] true true).

(** [document.getElementById (keyId)] among the key elements. *)
Definition getElementById (p : Page) (keyId : string) : option KeyElement :=
  find (fun el => String.eqb (elementId el) keyId) (keyboard p).

(** [keyElement.classList.add ('active')] and [remove ('active')], on the
    element of the document that [keyElement] is. *)
Definition set_active (keyId : string) (flag : bool) (p : Page) : Page :=
  set_keyboard
    (map (fun el =>
            if String.eqb (elementId el) keyId
            then mkElement (elementId el) (datasetFrequency el) flag
            else el)
         (keyboard p))
    p.

(** Handler code: as engine code, over the page. *)
Definition PM (A : Type) : Type := Browser -> Page -> Completion A * Page.

Definition pret {A : Type} (a : A) : PM A := fun _ p => (Normal a, p).

Definition pbind {A B : Type} (m : PM A) (f : A -> PM B) : PM B :=
  fun b p =>
    match m b p with
    | (Normal a, p') => f a b p'
    | (Throw e, p') => (Throw e, p')
    end.

Definition pmodify (f : Page -> Page) : PM unit :=
  fun _ p => (Normal tt, f p).

(** A call of a method of [audioEngine]. *)
Definition engine {A : Type} (m : M A) : PM A :=
  fun b p =>
    let '(r, s') := m b (audioEngine p) in (r, set_engine s' p).

Declare Scope page_scope.
Notation "x <- m ;; k" := (pbind m (fun x => k))
  (at level 61, m at next level, right associativity) : page_scope.
Notation "m ;; k" := (pbind m (fun _ => k))
  (at level 61, right associativity) : page_scope.
Local Open Scope page_scope.

Definition playKey (keyElement : KeyElement) (touchId : TouchId) : PM unit :=
  let frequency := datasetFrequency keyElement in
  let keyId := elementId keyElement in
  pmodify (set_touches (fun m => touches_set m touchId keyId)) ;;
  engine (playNote keyId frequency) ;;
  pmodify (set_active keyId true).

Definition stopKey (keyElement : KeyElement) : PM unit :=
  let keyId := elementId keyElement in
  pmodify (set_touches (fun m => touches_release m keyId)) ;;
  engine (stopNote keyId) ;;
  pmodify (set_active keyId false).

(** [if (keyId)]: a key identifier counts when it is a non-empty
    string. *)
Definition truthy_id (keyId : option string) : option string :=
  match keyId with
  | Some EmptyString => None
  | other => other
  end.

(** [if (keyId) { el = getElementById (keyId); if (el) stopKey (el) }]. *)
Definition stop_key_of (keyId : option string) : PM unit :=
  fun b p =>
    match truthy_id keyId with
    | Some keyId =>
        match getElementById p keyId with
        | Some keyElement => stopKey keyElement b p
        | None => (Normal tt, p)
        end
    | None => (Normal tt, p)
    end.

Definition stopKeyByTouch (touchId : TouchId) : PM unit :=
  fun b p => stop_key_of (touches_get (activeTouches p) touchId) b p.

(** A touch of an event: its identifier and the identifier of the key
    element under it, if the element there is a key. *)
Record TouchPoint : Type := mkTouch {
  identifier : Z;
  target : option string
}.

(** [for (let i = 0; i < touches.length; i++) body (touches[i])]. *)
Fixpoint for_each_touch (touches : list TouchPoint)
    (body : TouchPoint -> PM unit) : PM unit :=
  match touches with
  | [] => pret tt
  | touch :: rest => body touch ;; for_each_touch rest body
  end.

(** The key element under a touch. *)
Definition key_under (p : Page) (touch : TouchPoint) : option KeyElement :=
  match target touch with
  | Some keyId => getElementById p keyId
  | None => None
  end.

Definition handleTouchStart (changedTouches : list TouchPoint) : PM unit :=
  for_each_touch changedTouches (fun touch b p =>
    match key_under p touch with
    | Some keyElement => playKey keyElement (Touch (identifier touch)) b p
    | None => (Normal tt, p)
    end).

Definition handleTouchEnd (changedTouches : list TouchPoint) : PM unit :=
  for_each_touch changedTouches (fun touch =>
    stopKeyByTouch (Touch (identifier touch))).

Definition handleMouseDown (currentTarget : KeyElement) : PM unit :=
  playKey currentTarget Mouse.

Definition handleMouseUp (currentTarget : KeyElement) : PM unit :=
  stopKey currentTarget.

(** The [touchmove] listener of the document. *)
Definition handleTouchMove (touches : list TouchPoint) : PM unit :=
  for_each_touch touches (fun touch b p =>
    let currentKeyId :=
      touches_get (activeTouches p) (Touch (identifier touch)) in
    match key_under p touch with
    | Some targetKey =>
        if match currentKeyId with
           | Some k => String.eqb k (elementId targetKey)
           | None => false
           end
        then (Normal tt, p)
        else
          (stop_key_of currentKeyId ;;
           playKey targetKey (Touch (identifier touch))) b p
    | None => stop_key_of currentKeyId b p
    end).

(** [initAudioOnFirstTouch], registered once for [touchstart] and once for
    [mousedown] on the document. *)
Definition initOnce (registered : Page -> bool)
    (unregister : Page -> Page) : PM unit :=
  fun b p =>
    if registered p then engine initialize b (unregister p)
    else (Normal tt, p).

(** What reaches the page.  A listener that throws ends alone: the
    listeners after it still run, on the page as the throw left it.  The
    base-frequency field holds a number: an emptied field, which
    [parseFloat] reads as [NaN], is not among the events, nor is the
    [beforeunload] of the window. *)
Inductive Event : Type :=
  | TouchStart (changedTouches : list TouchPoint)
  | TouchEnd (changedTouches : list TouchPoint)
  | TouchMove (touches : list TouchPoint)
  | MouseDown (currentTarget : option string)
  | MouseUp (currentTarget : string)
  | LayoutChange (value : string)
  | TuningChange (value : string)
  | BaseFrequencyInput (freq : R)
  | WaveformChange (value : string)
  | VolumeInput (value : R).

(** A [touchstart] reaches the listener of the key it started on and then
    the document; one that starts outside the keys, which reaches the
    document only, is [TouchStart []].  A [mousedown] reaches the listener
    of the key under the pointer, if any, and then the document. *)
Definition handle (e : Event) (b : Browser) (p : Page) : Page :=
  match e with
  | TouchStart touches =>
      let p1 := snd (handleTouchStart touches b p) in
      snd (initOnce initOnTouch (set_initOnTouch false) b p1)
  | TouchEnd touches => snd (handleTouchEnd touches b p)
  | TouchMove touches => snd (handleTouchMove touches b p)
  | MouseDown keyId =>
      let p1 :=
        match keyId with
        | Some keyId =>
            match getElementById p keyId with
            | Some el => snd (handleMouseDown el b p)
            | None => p
            end
        | None => p
        end in
      snd (initOnce initOnMouse (set_initOnMouse false) b p1)
  | MouseUp keyId =>
      match getElementById p keyId with
      | Some el => snd (handleMouseUp el b p)
      | None => p
      end
  | LayoutChange value => generateKeyboard (set_currentLayout value p)
  | TuningChange value => generateKeyboard (set_currentTuning value p)
  | BaseFrequencyInput freq =>
      generateKeyboard
        (set_tuningSystem (setBaseFrequency (tuningSystem p) freq) p)
  | WaveformChange value => snd (engine (setWaveform value) b p)
  | VolumeInput value => snd (engine (setVolume value) b p)
  end.

Fixpoint dispatch (events : list (Event * Browser)) (p : Page) : Page :=
  match events with
  | [] => p
  | (e, b) :: rest => dispatch rest (handle e b p)
  end.

(** Every key that an entry of [activeTouches] binds has a voice. *)
Definition bound_keys_sound (p : Page) : Prop :=
  forall (t : TouchId) (keyId : string),
    In (t, keyId) (activeTouches p) ->
    exists v : VoiceData,
      JSMap.get (activeOscillators (audioEngine p)) keyId = Some v.

(** The engine is new, untouched by any gesture, or it is initialised and
    holds its context and master gain. *)
Definition engine_new_or_ready (s : AudioEngine) : Prop :=
  (initialized s = false /\ activeOscillators s = [])
  \/ (initialized s = true
      /\ exists ctx m : Handle,
           audioContext s = Some ctx /\ masterGain s = Some m).

Definition page_ok (p : Page) : Prop :=
  engine_new_or_ready (audioEngine p) /\ bound_keys_sound p.

(** Handler code that, where the sink works, returns normally and keeps
    the page in order. *)
Definition well_behaved (m : PM unit) : Prop :=
  forall (b : Browser) (p : Page),
    working b -> page_ok p ->
    fst (m b p) = Normal tt /\ page_ok (snd (m b p)).

End Router.

(** ** Double-precision numbers

    The numbers of JavaScript are IEEE 754 binary64 numbers: a sign, a
    mantissa of at most 53 bits and an exponent, or a zero, an infinity or
    NaN.  The operations are the Standard Library's executable
    specification of IEEE arithmetic ([SpecFloat]), which rounds to
    nearest, ties to even. *)

Module Binary64.

Definition double : Type := SpecFloat.spec_float.
Definition prec : Z := 53.
Definition emax : Z := 1024.

(** The number that an integer literal, or a variable holding an integer,
    stands for. *)
Definition of_Z (n : Z) : double :=
  SpecFloat.binary_normalize prec emax n 0 false.

(** [x + y], [x - y], [x * y] and [x / y]. *)
Definition add : double -> double -> double := SpecFloat.SFadd prec emax.
Definition sub : double -> double -> double := SpecFloat.SFsub prec emax.
Definition mul : double -> double -> double := SpecFloat.SFmul prec emax.
Definition div : double -> double -> double := SpecFloat.SFdiv prec emax.

Definition signed (s : bool) (m : positive) : Z :=
  if s then Zneg m else Zpos m.

(** The real number that a double is; none for NaN and the infinities. *)
Definition value (x : double) : option R :=
  match x with
  | SpecFloat.S754_zero _ => Some 0%R
  | SpecFloat.S754_finite s m e => Some (IZR (signed s m) * powerRZ 2 e)%R
  | _ => None
  end.

(** A normal number: finite, not zero, and with all 53 bits of
    precision. *)
Definition normal (x : double) : bool :=
  match SpecFloat.SFclassify prec x with
  | FloatClass.PNormal | FloatClass.NNormal => true
  | _ => false
  end.

(** Where the integer [M0] lies among the multiples of [W], as a shifted
    mantissa with its round and sticky bits records it: the mantissa is the
    quotient, the round bit says that the remainder is at least half of
    [W], the sticky bit that it is neither zero nor that half. *)
Definition located (W M0 : Z) (mrs : SpecFloat.shr_record) : Prop :=
  exists rem : Z,
    M0 = SpecFloat.shr_m mrs * W + rem
    /\ 0 <= rem < W
    /\ (SpecFloat.shr_r mrs = true <-> W <= 2 * rem)
    /\ (SpecFloat.shr_s mrs = true <-> rem <> 0 /\ 2 * rem <> W).

(** [Math.floor]. *)
Definition floor (x : double) : double :=
  match x with
  | SpecFloat.S754_finite s m e =>
      if 0 <=? e then x
      else
        let q := Z.shiftr (Zpos m) (- e) in
        if s then
          if Z.shiftl q (- e) =? Zpos m then of_Z (- q) else of_Z (- (q + 1))
        else of_Z q
  | _ => x
  end.

(** [x % y]: the remainder has the sign of the dividend and is exact. *)
Definition rem (x y : double) : double :=
  match x, y with
  | SpecFloat.S754_nan, _ | _, SpecFloat.S754_nan => SpecFloat.S754_nan
  | SpecFloat.S754_infinity _, _ => SpecFloat.S754_nan
  | _, SpecFloat.S754_zero _ => SpecFloat.S754_nan
  | _, SpecFloat.S754_infinity _ => x
  | SpecFloat.S754_zero _, _ => x
  | SpecFloat.S754_finite sx mx ex, SpecFloat.S754_finite _ my ey =>
      let e := Z.min ex ey in
      let r := Z.rem (Zpos mx * 2 ^ (ex - e)) (Zpos my * 2 ^ (ey - e)) in
      if r =? 0 then SpecFloat.S754_zero sx
      else SpecFloat.binary_normalize prec emax (if sx then - r else r) e false
  end.

(** The integer that a double holds, if it holds one. *)
Definition integer_of (x : double) : option Z :=
  match x with
  | SpecFloat.S754_zero _ => Some 0
  | SpecFloat.S754_finite s m e =>
      if 0 <=? e then Some (signed s m * 2 ^ e)
      else if Z.shiftl (Z.shiftr (Zpos m) (- e)) (- e) =? Zpos m
           then Some (Z.shiftr (signed s m) (- e))
           else None
  | _ => None
  end.

(** [arr[i]] for a number [i]: [undefined] unless [i] is an index of the
    array. *)
Definition index {A : Type} (arr : list A) (i : double) : option A :=
  match integer_of i with
  | Some z => if z <? 0 then None else nth_error arr (Z.to_nat z)
  | None => None
  end.

(** A double is within the tolerance [1e-9], relatively, of a real
    number. *)
Definition within_tolerance (x : double) (r : R) : Prop :=
  exists v : R,
    value x = Some v /\ (Rabs (v - r) <= 1 / 10 ^ 9 * Rabs r)%R.

(** What [Math.pow (2, x)] returned is within [9e-10], relatively, of the
    power. *)
Definition pow_accurate (p x : double) : Prop :=
  exists vp vx : R,
    value p = Some vp /\ value x = Some vx
    /\ (Rabs (vp - Rpower 2 vx) <= 9 / 10 ^ 10 * Rpower 2 vx)%R.

End Binary64.

(** ** The tuning system in double precision

    [class TuningSystem] once more, computing on doubles as the source
    does.  [Math.pow], whose precision ECMAScript leaves to the
    implementation, is an input. *)
Module Binary64Tuning.

Import Binary64.

Record TuningSystem : Type := mkTuningSystem { baseFrequency : double }.

Section WithMathPow.

Variable Math_pow : double -> double -> double.

(** [getEDOFrequency (steps, divisions = 12, baseNote = 0)]. *)
Definition getEDOFrequency (this : TuningSystem)
    (steps divisions baseNote : double) : double :=
  let ratio := Math_pow (of_Z 2) (div (sub steps baseNote) divisions) in
  mul (baseFrequency this) ratio.

Definition get12EDO (this : TuningSystem) (semitones : double) : double :=
  getEDOFrequency this semitones (of_Z 12) (of_Z 0).

Definition get24EDO (this : TuningSystem) (steps : double) : double :=
  getEDOFrequency this steps (of_Z 24) (of_Z 0).

Definition get31EDO (this : TuningSystem) (steps : double) : double :=
  getEDOFrequency this steps (of_Z 31) (of_Z 0).

Definition get53EDO (this : TuningSystem) (steps : double) : double :=
  getEDOFrequency this steps (of_Z 53) (of_Z 0).

Definition justRatios : list double :=
  map (fun r => div (of_Z (fst r)) (of_Z (snd r)))
      [ (1, 1); (16, 15); (9, 8); (6, 5); (5, 4); (4, 3);
        (45, 32); (3, 2); (8, 5); (5, 3); (9, 5); (15, 8) ].

Definition getJustIntonation (this : TuningSystem) (intervalIndex : double)
    : double :=
  let octave := floor (div intervalIndex (of_Z 12)) in
  let i := rem (add (rem intervalIndex (of_Z 12)) (of_Z 12)) (of_Z 12) in
  match index justRatios i with
  | Some ratio =>
      mul (mul (baseFrequency this) ratio) (Math_pow (of_Z 2) octave)
  | None => SpecFloat.S754_nan
  end.

Definition getFrequency (this : TuningSystem) (tuningType : string)
    (step : double) : double :=
  if String.eqb tuningType "12-edo" then get12EDO this step
  else if String.eqb tuningType "24-edo" then get24EDO this step
  else if String.eqb tuningType "31-edo" then get31EDO this step
  else if String.eqb tuningType "53-edo" then get53EDO this step
  else if String.eqb tuningType "just" then getJustIntonation this step
  else get12EDO this step.

End WithMathPow.

(** The EDO identifiers of [getFrequency] with their numbers of
    divisions. *)
Definition edo_divisions : list (string * Z) :=
  [("12-edo", 12); ("24-edo", 24); ("31-edo", 31); ("53-edo", 53)].

End Binary64Tuning.

(** * Properties *)

Local Open Scope list_scope.

(** ** Tuning engine *)

Section Tuning.

Variable this : TuningSystem.

Lemma getEDOFrequency_base0 (steps divisions : Z) :
  getEDOFrequency this steps divisions 0
  = (baseFrequency this * Rpower 2 (IZR steps / IZR divisions))%R.
Proof.
  unfold getEDOFrequency, JS.pow.
  now rewrite Z.sub_0_r.
Qed.

(** The index that [getJustIntonation] computes is the floor remainder. *)
Lemma just_index_floor_mod (step : Z) :
  JS.rem (JS.rem step 12 + 12) 12 = step mod 12.
Proof.
  unfold JS.rem.
  Z.to_euclidean_division_equations; lia.
Qed.

Lemma just_ratio_defined (step : Z) :
  exists ratio, JS.index justRatios (step mod 12) = Some ratio.
Proof.
  pose proof (Z.mod_pos_bound step 12 ltac:(lia)) as Hb.
  unfold JS.index.
  destruct (Z.ltb_spec (step mod 12) 0) as [Hneg | _]; [lia |].
  destruct (nth_error justRatios (Z.to_nat (step mod 12))) as [r |] eqn:E.
  - now exists r.
  - apply nth_error_None in E. simpl in E. lia.
Qed.

End Tuning.

(** Over the reals, for each of the four EDO identifiers, with 12, 24, 31
    and 53 divisions respectively, [getFrequency] is the base frequency
    times two to the power step / divisions, exactly. *)
Lemma edo_frequency_over_reals (this : TuningSystem) (step : Z) :
  getFrequency this "12-edo" step
    = Some (baseFrequency this * Rpower 2 (IZR step / 12))%R
  /\ getFrequency this "24-edo" step
    = Some (baseFrequency this * Rpower 2 (IZR step / 24))%R
  /\ getFrequency this "31-edo" step
    = Some (baseFrequency this * Rpower 2 (IZR step / 31))%R
  /\ getFrequency this "53-edo" step
    = Some (baseFrequency this * Rpower 2 (IZR step / 53))%R.
Proof.
  unfold getFrequency, get12EDO, get24EDO, get31EDO, get53EDO; cbn [String.eqb Ascii.eqb Bool.eqb].
  cbn -[getEDOFrequency].
  rewrite !getEDOFrequency_base0.
  repeat split.
Qed.

(** ** The EDO frequencies in double precision *)

Module Binary64Facts.

Import SpecFloat Binary64.

Lemma digits2_pos_bounds (p : positive) :
  2 ^ (Zpos (digits2_pos p) - 1) <= Zpos p < 2 ^ Zpos (digits2_pos p).
Proof.
  induction p as [p IH | p IH |]; cbn [digits2_pos].
  - rewrite Pos2Z.inj_succ, Z.pow_succ_r by lia.
    replace (Z.succ (Zpos (digits2_pos p)) - 1)
      with (Z.succ (Zpos (digits2_pos p) - 1)) by lia.
    rewrite Z.pow_succ_r by lia. lia.
  - rewrite Pos2Z.inj_succ, Z.pow_succ_r by lia.
    replace (Z.succ (Zpos (digits2_pos p)) - 1)
      with (Z.succ (Zpos (digits2_pos p) - 1)) by lia.
    rewrite Z.pow_succ_r by lia. lia.
  - cbn. lia.
Qed.

Lemma Zdigits2_le (m d : Z) :
  0 <= m < 2 ^ d -> 0 <= d -> Zdigits2 m <= d.
Proof.
  intros [Hm Hlt] Hd. destruct m as [| p | p]; cbn [Zdigits2]; [lia | | lia].
  pose proof (digits2_pos_bounds p) as [Hlo _].
  apply Z.nlt_ge. intros Hgt.
  assert (2 ^ d <= 2 ^ (Zpos (digits2_pos p) - 1))
    by (apply Z.pow_le_mono_r; lia).
  lia.
Qed.

Lemma Zdigits2_unique (p : positive) (d : Z) :
  2 ^ (d - 1) <= Zpos p < 2 ^ d -> Zpos (digits2_pos p) = d.
Proof.
  intros [Hlo Hhi].
  pose proof (digits2_pos_bounds p) as [Hlo' Hhi'].
  assert (0 < d).
  { destruct (Z.ltb_spec 0 d); [assumption |].
    destruct (Z.eq_dec d 0) as [-> | ]; [cbn in Hhi; lia |].
    rewrite Z.pow_neg_r in Hhi by lia. lia. }
  apply Z.le_antisymm.
  - apply (Zdigits2_le (Zpos p) d); lia.
  - apply Z.nlt_ge. intros Hgt.
    assert (2 ^ Zpos (digits2_pos p) <= 2 ^ (d - 1))
      by (apply Z.pow_le_mono_r; lia).
    lia.
Qed.

Lemma shr_1_located (W M0 : Z) (mrs : shr_record) :
  0 < W -> 0 <= shr_m mrs -> located W M0 mrs ->
  located (2 * W) M0 (shr_1 mrs) /\ 0 <= shr_m (shr_1 mrs).
Proof.
  intros HW Hm (rem & HM & Hrem & Hr & Hs).
  destruct mrs as [m r s]. cbn [shr_m shr_r shr_s] in *.
  assert (Hrs : orb r s = true <-> rem <> 0).
  { destruct r, s; cbn; intuition (try discriminate; try lia). }
  destruct m as [| [p | p |] | p]; cbn [shr_1 shr_m shr_r shr_s];
    try lia; (split; [| lia]).
  - exists rem. cbn [shr_m shr_r shr_s].
    repeat split; try lia; intuition (try discriminate; try lia).
  - exists (W + rem). cbn [shr_m shr_r shr_s].
    repeat split; try lia; intuition (try discriminate; try lia).
  - exists rem. cbn [shr_m shr_r shr_s].
    repeat split; try lia; intuition (try discriminate; try lia).
  - exists (W + rem). cbn [shr_m shr_r shr_s].
    repeat split; try lia; intuition (try discriminate; try lia).
Qed.


Lemma iter_shr_1_located (M0 : Z) (p : positive) :
  forall (W : Z) (mrs : shr_record),
    0 < W -> 0 <= shr_m mrs -> located W M0 mrs ->
    located (2 ^ Zpos p * W) M0 (iter_pos shr_1 p mrs)
    /\ 0 <= shr_m (iter_pos shr_1 p mrs).
Proof.
  induction p as [p IH | p IH |]; intros W mrs HW Hm Hloc;
    cbn [iter_pos].
  - destruct (shr_1_located W M0 mrs HW Hm Hloc) as [H1 Hm1].
    destruct (IH (2 * W) _ ltac:(lia) Hm1 H1) as [H2 Hm2].
    assert (Hpow : 0 < 2 ^ Zpos p) by (apply Z.pow_pos_nonneg; lia).
    destruct (IH (2 ^ Zpos p * (2 * W)) _ ltac:(lia) Hm2 H2) as [H3 Hm3].
    split; [| exact Hm3].
    replace (2 ^ Zpos p~1 * W)
      with (2 ^ Zpos p * (2 ^ Zpos p * (2 * W))); [exact H3 |].
    rewrite (Pos2Z.inj_xI p).
    replace (2 * Zpos p + 1) with (Zpos p + Zpos p + 1) by lia.
    rewrite !Z.pow_add_r by lia. change (2 ^ 1) with 2. ring.
  - destruct (IH W _ HW Hm Hloc) as [H2 Hm2].
    assert (Hpow : 0 < 2 ^ Zpos p) by (apply Z.pow_pos_nonneg; lia).
    destruct (IH (2 ^ Zpos p * W) _ ltac:(lia) Hm2 H2) as [H3 Hm3].
    split; [| exact Hm3].
    replace (2 ^ Zpos p~0 * W) with (2 ^ Zpos p * (2 ^ Zpos p * W));
      [exact H3 |].
    rewrite (Pos2Z.inj_xO p).
    replace (2 * Zpos p) with (Zpos p + Zpos p) by lia.
    rewrite Z.pow_add_r by lia. ring.
  - change (2 ^ 1) with 2. now apply shr_1_located.
Qed.

(** [shr] by [n] places: the exponent grows by [max 0 n]. *)
Lemma shr_located (W M0 : Z) (mrs : shr_record) (e n : Z) :
  0 < W -> 0 <= shr_m mrs -> located W M0 mrs ->
  snd (shr mrs e n) = e + Z.max 0 n
  /\ located (2 ^ Z.max 0 n * W) M0 (fst (shr mrs e n))
  /\ 0 <= shr_m (fst (shr mrs e n)).
Proof.
  intros HW Hm Hloc. destruct n as [| p | p]; cbn [shr fst snd].
  - rewrite Z.max_id, Z.add_0_r, Z.pow_0_r.
    now replace (1 * W) with W by ring.
  - replace (Z.max 0 (Zpos p)) with (Zpos p) by lia.
    split; [reflexivity |]. now apply iter_shr_1_located.
  - replace (Z.max 0 (Zneg p)) with 0 by lia.
    rewrite Z.add_0_r, Z.pow_0_r. now replace (1 * W) with W by ring.
Qed.

(** Rounding to nearest, ties to even, is within half a unit. *)
Lemma round_nearest_even_located (W M0 : Z) (mrs : shr_record) :
  0 < W -> located W M0 mrs ->
  let m1 := round_nearest_even (shr_m mrs) (loc_of_shr_record mrs) in
  2 * Z.abs (m1 * W - M0) <= W /\ shr_m mrs <= m1 <= shr_m mrs + 1.
Proof.
  intros HW (rem & HM & Hrem & Hr & Hs). destruct mrs as [m r s].
  cbn [shr_m shr_r shr_s loc_of_shr_record] in *.
  destruct r, s; cbn [round_nearest_even];
    try destruct (Z.even m);
    split; try lia;
    intuition (try discriminate; try nia).
Qed.


Lemma fexp_eq (z : Z) : fexp prec emax z = Z.max (z - 53) (-1074).
Proof. reflexivity. Qed.

Lemma shr_m_of_loc (q : Z) (loc : location) :
  shr_m (shr_record_of_loc q loc) = q.
Proof. now destruct loc as [| []]. Qed.

Lemma Zdigits2_gt (m : Z) : 0 <= m -> m < 2 ^ Zdigits2 m.
Proof.
  intros Hm. destruct m as [| p | p]; cbn [Zdigits2]; [cbn; lia | | lia].
  apply digits2_pos_bounds.
Qed.

Lemma Zdigits2_nonneg (m : Z) : 0 <= Zdigits2 m.
Proof. destruct m; cbn [Zdigits2]; lia. Qed.

(** A mantissa shifted right by at least its excess over 53 digits has at
    most 53 digits. *)
Lemma shifted_mantissa_small (m m' k rem d : Z) :
  0 <= m < 2 ^ d -> 0 <= d -> 0 <= k -> d - 53 <= k ->
  m = m' * 2 ^ k + rem -> 0 <= rem -> 0 <= m' ->
  m' < 2 ^ 53.
Proof.
  intros [Hm Hlt] Hd Hk Hdk Heq Hrem Hm'.
  assert (Hpow : 2 ^ d <= 2 ^ (53 + k)) by (apply Z.pow_le_mono_r; lia).
  rewrite Z.pow_add_r in Hpow by lia.
  assert (Hk2 : 0 < 2 ^ k) by (apply Z.pow_pos_nonneg; lia).
  apply Z.nle_gt. intros Hge.
  assert (2 ^ 53 * 2 ^ k <= m' * 2 ^ k) by (apply Z.mul_le_mono_nonneg_r; lia).
  lia.
Qed.

(** The result of [binary_round_aux] is within one unit in the last place
    of the number it rounds, and its mantissa and exponent are those of a
    double. *)
Lemma round_aux_faithful (s : bool) (q e0 : Z) (loc : location)
    (c M0 : Z) :
  0 < c -> 0 < q -> located c M0 (shr_record_of_loc q loc) ->
  exists m k : Z,
    binary_round_aux prec emax s q e0 loc
    = match m with
      | Z0 => S754_zero s
      | Zpos p =>
          if e0 + k <=? 971 then S754_finite s p (e0 + k)
          else S754_infinity s
      | Zneg _ => S754_nan
      end
    /\ 0 <= m < 2 ^ 53
    /\ 0 <= k <= Z.max 0 (Z.max (Zdigits2 q - 53) (-1074 - e0)) + 1
    /\ -1074 <= e0 + k
    /\ Z.abs (m * (2 ^ k * c) - M0) <= 2 ^ k * c.
Proof.
  intros Hc Hq Hloc0.
  unfold binary_round_aux, shr_fexp.
  set (n1 := fexp prec emax (Zdigits2 q + e0) - e0).
  assert (Hq0 : 0 <= shr_m (shr_record_of_loc q loc))
    by (rewrite shr_m_of_loc; lia).
  destruct (shr_located c M0 _ e0 n1 Hc Hq0 Hloc0) as (He1 & Hloc1 & Hq1).
  destruct (shr (shr_record_of_loc q loc) e0 n1) as [mrs1 e1].
  cbn [fst snd] in He1, Hloc1, Hq1.
  set (k1 := Z.max 0 n1) in *.
  assert (Hk1 : 0 <= k1) by lia.
  assert (HW1 : 0 < 2 ^ k1 * c)
    by (apply Z.mul_pos_pos; [apply Z.pow_pos_nonneg; lia | lia]).
  destruct (round_nearest_even_located _ M0 mrs1 HW1 Hloc1)
    as [Herr1 Hm1].
  set (m1 := round_nearest_even (shr_m mrs1) (loc_of_shr_record mrs1)) in *.
  set (n2 := fexp prec emax (Zdigits2 m1 + e1) - e1).
  assert (Hloc1' : located 1 m1 (shr_record_of_loc m1 loc_Exact)).
  { exists 0. cbn. repeat split; try lia; intuition (try discriminate; lia). }
  assert (Hm10 : 0 <= shr_m (shr_record_of_loc m1 loc_Exact))
    by (cbn; lia).
  destruct (shr_located 1 m1 _ e1 n2 ltac:(lia) Hm10 Hloc1')
    as (He2 & Hloc2 & Hq2).
  destruct (shr (shr_record_of_loc m1 loc_Exact) e1 n2) as [mrs2 e2].
  cbn [fst snd] in He2, Hloc2, Hq2.
  set (k2 := Z.max 0 n2) in *.
  assert (Hk2 : 0 <= k2) by lia.
  rewrite Z.mul_1_r in Hloc2.
  (* the digits of the quotient after the first shift *)
  destruct Hloc0 as (rem0 & HM0 & Hrem0 & _). rewrite shr_m_of_loc in HM0.
  destruct Hloc1 as (rem1 & HM1 & Hrem1 & _).
  destruct Hloc2 as (rem2 & HM2 & Hrem2 & _).
  pose proof (Zdigits2_gt q ltac:(lia)) as Hdq.
  pose proof (Zdigits2_nonneg q) as Hdq0.
  assert (Hn1 : n1 = Z.max (Zdigits2 q - 53) (-1074 - e0))
    by (unfold n1; rewrite fexp_eq; lia).
  assert (Hk1def : k1 = Z.max 0 n1) by reflexivity.
  clearbody k1 n1.
  assert (Hq1' : shr_m mrs1 < 2 ^ 53).
  { assert (Hp1 : 0 < 2 ^ k1) by (apply Z.pow_pos_nonneg; lia).
    apply (shifted_mantissa_small q (shr_m mrs1) k1
             (q - shr_m mrs1 * 2 ^ k1) (Zdigits2 q));
      try lia.
    (* q1 * 2^k1 <= q *)
    apply Z.nlt_ge. intros Hlt.
    assert (q + 1 <= shr_m mrs1 * 2 ^ k1) by lia.
    assert ((q + 1) * c <= shr_m mrs1 * 2 ^ k1 * c)
      by (apply Z.mul_le_mono_nonneg_r; lia).
    lia. }
  assert (Hm1' : 0 <= m1 <= 2 ^ 53) by lia.
  assert (Hd1 : Zdigits2 m1 <= 54).
  { apply Zdigits2_le; [| lia]. change (2 ^ 54) with (2 * 2 ^ 53). lia. }
  pose proof (Zdigits2_nonneg m1) as Hd10.
  pose proof (Zdigits2_gt m1 ltac:(lia)) as Hd1gt.
  assert (Hn2 : n2 = Z.max (Zdigits2 m1 - 53) (-1074 - e1))
    by (unfold n2; rewrite fexp_eq; lia).
  assert (Hk2def : k2 = Z.max 0 n2) by reflexivity.
  clearbody k2 n2.
  assert (He1min : -1074 <= e1) by lia.
  assert (Hk2' : k2 <= 1) by lia.
  assert (Hm2 : shr_m mrs2 < 2 ^ 53).
  { apply (shifted_mantissa_small m1 (shr_m mrs2) k2 rem2 (Zdigits2 m1));
      lia. }
  exists (shr_m mrs2), (k1 + k2).
  replace (e0 + (k1 + k2)) with e2 by lia.
  split; [| split; [lia | split; [lia | split; [lia |]]]].
  - now destruct (shr_m mrs2).
  - rewrite Z.pow_add_r by lia.
    assert (Hp2 : 0 < 2 ^ k2) by (apply Z.pow_pos_nonneg; lia).
    replace (shr_m mrs2 * (2 ^ k1 * 2 ^ k2 * c) - M0)
      with ((m1 * (2 ^ k1 * c) - M0) - rem2 * (2 ^ k1 * c))
      by (rewrite HM2 at 1; ring).
    assert (Hr2 : rem2 * (2 ^ k1 * c) <= (2 ^ k2 - 1) * (2 ^ k1 * c))
      by (apply Z.mul_le_mono_nonneg_r; lia).
    assert (0 <= rem2 * (2 ^ k1 * c)) by (apply Z.mul_nonneg_nonneg; lia).
    replace (2 ^ k1 * 2 ^ k2 * c) with (2 ^ k2 * (2 ^ k1 * c)) by ring.
    lia.
Qed.


Local Open Scope R_scope.

Lemma pow2_pos (z : Z) : 0 < powerRZ 2 z.
Proof. apply powerRZ_lt. lra. Qed.

Lemma pow2_add (a b : Z) : powerRZ 2 (a + b) = powerRZ 2 a * powerRZ 2 b.
Proof. apply powerRZ_add. lra. Qed.

Lemma IZR_pow2 (k : Z) : (0 <= k)%Z -> IZR (2 ^ k) = powerRZ 2 k.
Proof.
  intros Hk. rewrite <- (Z2Nat.id k Hk) at 1 2.
  now rewrite <- pow_IZR, <- pow_powerRZ.
Qed.

Lemma pow2_le (a b : Z) : (a <= b)%Z -> powerRZ 2 a <= powerRZ 2 b.
Proof.
  intros Hab. replace b with (a + (b - a))%Z by lia.
  rewrite pow2_add. rewrite <- (Rmult_1_r (powerRZ 2 a)) at 1.
  apply Rmult_le_compat_l; [apply Rlt_le, pow2_pos |].
  rewrite <- IZR_pow2 by lia. apply IZR_le.
  assert (0 < 2 ^ (b - a))%Z by (apply Z.pow_pos_nonneg; lia). lia.
Qed.

Lemma signed_mul (sa sb : bool) (ma mb : positive) :
  (signed sa ma * signed sb mb)%Z = signed (xorb sa sb) (ma * mb).
Proof. now destruct sa, sb. Qed.

Lemma signed_abs (s : bool) (m : positive) :
  Rabs (IZR (signed s m)) = IZR (Zpos m).
Proof.
  destruct s; cbn [signed].
  - change (Zneg m) with (- Zpos m)%Z. rewrite opp_IZR, Rabs_Ropp.
    apply Rabs_pos_eq, IZR_le. lia.
  - apply Rabs_pos_eq, IZR_le. lia.
Qed.

(** The distance between two numbers of the same sign, in units of
    [2 ^ e0]. *)
Lemma same_sign_distance (s : bool) (p M : positive) (e0 k : Z) :
  (0 <= k)%Z ->
  Rabs (IZR (signed s p) * powerRZ 2 (e0 + k)
        - IZR (signed s M) * powerRZ 2 e0)
  = Rabs (IZR (Zpos p * 2 ^ k - Zpos M)) * powerRZ 2 e0.
Proof.
  intros Hk. rewrite pow2_add, <- (IZR_pow2 k) by lia.
  rewrite minus_IZR, mult_IZR.
  rewrite <- (Rabs_pos_eq (powerRZ 2 e0)) at 3
    by apply Rlt_le, pow2_pos.
  rewrite <- Rabs_mult.
  destruct s; cbn [signed].
  - change (Zneg p) with (- Zpos p)%Z. change (Zneg M) with (- Zpos M)%Z.
    rewrite !opp_IZR. rewrite <- Rabs_Ropp. f_equal. ring.
  - f_equal. ring.
Qed.

Lemma normal_finite (x : double) :
  normal x = true ->
  exists (s : bool) (m : positive) (e : Z),
    x = S754_finite s m e /\ (2 ^ 52 <= Zpos m)%Z.
Proof.
  unfold normal. destruct x as [[] | [] | | s m e]; try discriminate.
  intros H. exists s, m, e. split; [reflexivity |].
  assert (Hd : Zpos (digits2_pos m) = 53%Z).
  { cbn [SFclassify] in H.
    destruct s; destruct (Z.eqb_spec (Zpos (digits2_pos m)) prec);
      try discriminate; assumption. }
  pose proof (digits2_pos_bounds m) as [Hlo _]. rewrite Hd in Hlo.
  exact Hlo.
Qed.

(** A product that is a normal double is within [2 ^ -52], relatively, of
    the exact product. *)
Lemma mul_normal_error (a b : double) :
  normal (mul a b) = true ->
  exists va vb v : R,
    value a = Some va /\ value b = Some vb /\ value (mul a b) = Some v
    /\ Rabs (v - va * vb) <= powerRZ 2 (-52) * Rabs v.
Proof.
  intros Hn.
  destruct (normal_finite _ Hn) as (s & p & e & Hfin & Hp).
  destruct a as [sa | sa | | sa ma ea], b as [sb | sb | | sb mb eb];
    try discriminate Hfin.
  unfold mul in *. cbn [SFmul] in *.
  destruct (round_aux_faithful (xorb sa sb) (Zpos (ma * mb)) (ea + eb)
              loc_Exact 1 (Zpos (ma * mb)))
    as (m & k & Heq & Hm & Hk & Hmin & Herr); try lia.
  { exists 0%Z. cbn.
    repeat split; try lia; intuition (try discriminate; lia). }
  rewrite Heq in Hfin |- *.
  destruct m as [| p' | p']; try discriminate Hfin.
  destruct (Z.leb_spec (ea + eb + k) 971); try discriminate Hfin.
  injection Hfin as <- <- <-.
  do 3 eexists. repeat split.
  cbn [value].
  replace (IZR (signed sa ma) * powerRZ 2 ea
           * (IZR (signed sb mb) * powerRZ 2 eb))
    with (IZR (signed (xorb sa sb) (ma * mb)) * powerRZ 2 (ea + eb))
    by (rewrite <- signed_mul, mult_IZR, pow2_add; ring).
  rewrite same_sign_distance by lia.
  rewrite Rabs_mult, signed_abs.
  rewrite (Rabs_pos_eq (powerRZ 2 (ea + eb + k)))
    by apply Rlt_le, pow2_pos.
  rewrite Z.mul_1_r in Herr.
  apply Z.abs_le in Herr.
  assert (Hd : Rabs (IZR (Zpos p' * 2 ^ k - Zpos (ma * mb)))
               <= IZR (2 ^ k)).
  { apply Rabs_le. rewrite <- opp_IZR. split; apply IZR_le; lia. }
  rewrite IZR_pow2 in Hd by lia.
  rewrite (pow2_add (ea + eb) k).
  assert (Hp' : powerRZ 2 52 <= IZR (Zpos p'))
    by (rewrite <- IZR_pow2 by lia; now apply IZR_le).
  pose proof (pow2_pos (ea + eb)) as He. pose proof (pow2_pos k) as Hk'.
  assert (H52 : powerRZ 2 (-52) * powerRZ 2 52 = 1)
    by (rewrite <- pow2_add; reflexivity).
  apply Rle_trans with (powerRZ 2 k * powerRZ 2 (ea + eb)).
  - apply Rmult_le_compat_r; lra.
  - replace (powerRZ 2 k * powerRZ 2 (ea + eb))
      with (powerRZ 2 (-52) * (powerRZ 2 52
                               * (powerRZ 2 (ea + eb) * powerRZ 2 k)))
      by (rewrite <- Rmult_assoc, H52; ring).
    apply Rmult_le_compat_l; [apply Rlt_le, pow2_pos |].
    apply Rmult_le_compat_r; [| exact Hp'].
    apply Rlt_le, Rmult_lt_0_compat; assumption.
Qed.


Local Open Scope Z_scope.

Lemma iter_xO_value (m d : positive) :
  Zpos (Pos.iter xO m d) = Zpos m * 2 ^ Zpos d.
Proof.
  induction d as [| d IH] using Pos.peano_ind.
  - cbn [Pos.iter]. change (2 ^ 1) with 2. lia.
  - rewrite Pos.iter_succ, Pos2Z.inj_succ, Z.pow_succ_r by lia.
    rewrite Pos2Z.inj_xO, IH. ring.
Qed.

(** A mantissa of 53 digits with an exponent in range is kept as it is. *)
Lemma round_aux_canonical (s : bool) (m : positive) (e : Z) :
  Zpos (digits2_pos m) = 53 -> -1074 <= e <= 971 ->
  binary_round_aux prec emax s (Zpos m) e loc_Exact = S754_finite s m e.
Proof.
  intros Hd He. unfold binary_round_aux, shr_fexp.
  cbn [Zdigits2 shr_record_of_loc]. rewrite Hd, fexp_eq.
  replace (Z.max (53 + e - 53) (-1074) - e) with 0 by lia.
  cbn [shr shr_m loc_of_shr_record round_nearest_even Zdigits2
       shr_record_of_loc].
  rewrite Hd, fexp_eq.
  replace (Z.max (53 + e - 53) (-1074) - e) with 0 by lia.
  cbn [shr shr_m]. change (emax - prec) with 971.
  destruct (Z.leb_spec e 971); [reflexivity | lia].
Qed.

(** The double of a non-zero integer below [2 ^ 53] holds it exactly, on a
    mantissa of 53 digits. *)
Lemma of_Z_finite (n : Z) :
  n <> 0 -> Z.abs n < 2 ^ 53 ->
  exists (m : positive) (e : Z),
    of_Z n = S754_finite (n <? 0) m e
    /\ Zpos (digits2_pos m) = 53
    /\ e = Zdigits2 n - 53
    /\ Zpos m = Z.abs n * 2 ^ (- e).
Proof.
  intros Hn Hlt.
  assert (Hround : forall (s : bool) (p : positive),
    Zpos p < 2 ^ 53 ->
    exists (m : positive) (e : Z),
      binary_round prec emax s p 0 = S754_finite s m e
      /\ Zpos (digits2_pos m) = 53
      /\ e = Zpos (digits2_pos p) - 53
      /\ Zpos m = Zpos p * 2 ^ (- e)).
  { intros s p Hp. unfold binary_round, shl_align.
    pose proof (digits2_pos_bounds p) as [Hlo Hhi].
    assert (Hdp : Zpos (digits2_pos p) <= 53)
      by (apply (Zdigits2_le (Zpos p) 53); lia).
    rewrite fexp_eq.
    replace (Z.max (Zpos (digits2_pos p) + 0 - 53) (-1074) - 0)
      with (Zpos (digits2_pos p) - 53) by lia.
    replace (Z.max (Zpos (digits2_pos p) + 0 - 53) (-1074))
      with (Zpos (digits2_pos p) - 53) by lia.
    destruct (Zpos (digits2_pos p) - 53) as [| d | d] eqn:Hd; [| lia |].
    - exists p, 0. rewrite round_aux_canonical by lia.
      repeat split; try lia.
    - assert (Hval := iter_xO_value p d).
      assert (Hd' : Zpos d = 53 - Zpos (digits2_pos p)) by lia.
      assert (Hdig : Zpos (digits2_pos (Pos.iter xO p d)) = 53).
      { apply Zdigits2_unique. rewrite Hval, Hd'.
        assert (H52 : 2 ^ (53 - 1)
                      = 2 ^ (Zpos (digits2_pos p) - 1)
                        * 2 ^ (53 - Zpos (digits2_pos p)))
          by (rewrite <- Z.pow_add_r by lia; f_equal; lia).
        assert (H53 : 2 ^ 53
                      = 2 ^ Zpos (digits2_pos p)
                        * 2 ^ (53 - Zpos (digits2_pos p)))
          by (rewrite <- Z.pow_add_r by lia; f_equal; lia).
        assert (0 < 2 ^ (53 - Zpos (digits2_pos p)))
          by (apply Z.pow_pos_nonneg; lia).
        rewrite H52, H53. split.
        - apply Z.mul_le_mono_nonneg_r; lia.
        - apply Z.mul_lt_mono_pos_r; lia. }
      exists (Pos.iter xO p d), (Zneg d).
      rewrite round_aux_canonical by (try assumption; lia).
      repeat split; try assumption; try lia. }
  unfold of_Z, binary_normalize.
  destruct n as [| p | p]; [contradiction | |].
  - destruct (Hround false p ltac:(lia)) as (m & e & H1 & H2 & H3 & H4).
    exists m, e. cbn [Zdigits2 Z.ltb Z.compare Z.abs].
    repeat split; assumption.
  - destruct (Hround true p ltac:(lia)) as (m & e & H1 & H2 & H3 & H4).
    exists m, e. cbn [Zdigits2 Z.ltb Z.compare Z.abs].
    repeat split; assumption.
Qed.

Lemma new_location_located (q r c : Z) :
  0 < c -> 0 <= r < c ->
  located c (q * c + r) (shr_record_of_loc q (new_location c r)).
Proof.
  intros Hc Hr. exists r. unfold new_location.
  destruct (Z.even c) eqn:Heven.
  - unfold new_location_even.
    destruct (Z.eqb_spec r 0) as [-> | Hr0].
    + cbn [shr_record_of_loc shr_m shr_r shr_s]. repeat split; try lia; intuition (try discriminate; try lia).
    + destruct (Z.compare_spec (2 * r) c); cbn [shr_record_of_loc shr_m shr_r shr_s];
        repeat split; try lia; intuition (try discriminate; try lia).
  - unfold new_location_odd.
    assert (Hodd : 2 * r <> c).
    { intros <-. rewrite Z.even_mul in Heven. discriminate. }
    destruct (Z.eqb_spec r 0) as [-> | Hr0].
    + cbn [shr_record_of_loc shr_m shr_r shr_s]. repeat split; try lia; intuition (try discriminate; try lia).
    + destruct (Z.compare_spec (2 * r + 1) c); cbn [shr_record_of_loc shr_m shr_r shr_s];
        repeat split; try lia; intuition (try discriminate; try lia).
Qed.


(** The quotient of two doubles with full mantissas and moderate
    exponents is a double within one unit in the last place of the exact
    quotient. *)
Lemma div_normalized (sx : bool) (mx my : positive) (ex ey : Z) :
  Zpos (digits2_pos mx) = 53 -> Zpos (digits2_pos my) = 53 ->
  -1000 <= ex - ey <= 1000 ->
  exists (m : positive) (e : Z),
    div (S754_finite sx mx ex) (S754_finite false my ey)
    = S754_finite sx m e
    /\ e <= ex - ey - 51
    /\ (Rabs (IZR (Zpos m) * powerRZ 2 e
              - IZR (Zpos mx) * powerRZ 2 ex
                / (IZR (Zpos my) * powerRZ 2 ey))
        <= powerRZ 2 e)%R.
Proof.
  intros Hdx Hdy Hrange.
  pose proof (digits2_pos_bounds mx) as Hmx. rewrite Hdx in Hmx.
  pose proof (digits2_pos_bounds my) as Hmy. rewrite Hdy in Hmy.
  change (2 ^ (53 - 1)) with (2 ^ 52) in Hmx, Hmy.
  unfold div, SFdiv, SFdiv_core_binary. cbn [Zdigits2].
  rewrite Hdx, Hdy, fexp_eq.
  replace (Z.min (Z.max (53 + ex - (53 + ey) - 53) (-1074)) (ex - ey))
    with (ex - ey - 53) by lia.
  replace (ex - ey - (ex - ey - 53)) with 53 by lia.
  cbv beta iota. rewrite Z.shiftl_mul_pow2 by lia.
  pose proof (Z_div_mod (Zpos mx * 2 ^ 53) (Zpos my) ltac:(lia)) as Hdiv.
  destruct (Z.div_eucl (Zpos mx * 2 ^ 53) (Zpos my)) as [q r].
  destruct Hdiv as [Hqr Hr].
  assert (Hq : 2 ^ 52 <= q < 2 ^ 54).
  { change (2 ^ 54) with (2 * 2 ^ 53). change (2 ^ 53) with (2 * 2 ^ 52) in *.
    set (P := 2 ^ 52) in *. assert (0 < P) by (unfold P; lia).
    clearbody P. split.
    - apply Z.nlt_ge. intros Hlt.
      assert (Zpos my * (q + 1) <= Zpos my * P)
        by (apply Z.mul_le_mono_nonneg_l; lia).
      assert (Zpos my * P <= 2 * P * P)
        by (apply Z.mul_le_mono_nonneg_r; lia).
      assert (P * (2 * P) <= Zpos mx * (2 * P))
        by (apply Z.mul_le_mono_nonneg_r; lia).
      lia.
    - apply Z.nle_gt. intros Hge.
      assert (Zpos my * (2 * (2 * P)) <= Zpos my * q)
        by (apply Z.mul_le_mono_nonneg_l; lia).
      assert (P * (2 * (2 * P)) <= Zpos my * (2 * (2 * P)))
        by (apply Z.mul_le_mono_nonneg_r; lia).
      assert (Zpos mx * (2 * P) <= (2 * P - 1) * (2 * P))
        by (apply Z.mul_le_mono_nonneg_r; lia).
      lia. }
  set (e0 := ex - ey - 53).
  destruct (round_aux_faithful (xorb sx false) q e0
              (new_location (Zpos my) r) (Zpos my) (q * Zpos my + r))
    as (m & k & Heq & Hm & Hk & Hmin & Herr); try lia.
  { apply new_location_located; lia. }
  assert (Hdq : Zdigits2 q <= 54) by (apply Zdigits2_le; lia).
  assert (Hk2 : k <= 2) by lia.
  assert (Hpk : 1 <= 2 ^ k <= 4).
  { split; [assert (0 < 2 ^ k) by (apply Z.pow_pos_nonneg; lia); lia |].
    change 4 with (2 ^ 2). apply Z.pow_le_mono_r; lia. }
  rewrite Heq, xorb_false_r.
  destruct m as [| m | m]; [| | lia].
  { exfalso. rewrite Z.mul_0_l in Herr.
    assert (2 ^ k * Zpos my <= 4 * Zpos my)
      by (apply Z.mul_le_mono_nonneg_r; lia).
    assert (5 * Zpos my <= q * Zpos my)
      by (apply Z.mul_le_mono_nonneg_r; lia).
    lia. }
  destruct (Z.leb_spec (e0 + k) 971); [| lia].
  exists m, (e0 + k). split; [reflexivity |]. split; [lia |].
  assert (Hy : (0 < IZR (Zpos my))%R) by (apply IZR_lt; lia).
  pose proof (pow2_pos ey) as Hey. pose proof (pow2_pos e0) as He0.
  assert (Hex : powerRZ 2 ex
                = (powerRZ 2 e0 * IZR (2 ^ 53) * powerRZ 2 ey)%R).
  { rewrite IZR_pow2 by lia. rewrite <- !pow2_add. f_equal. unfold e0. lia. }
  assert (Hkey : (IZR (Zpos m) * powerRZ 2 (e0 + k)
                  - IZR (Zpos mx) * powerRZ 2 ex
                    / (IZR (Zpos my) * powerRZ 2 ey)
                  = IZR (Zpos m * (2 ^ k * Zpos my) - (q * Zpos my + r))
                    * (powerRZ 2 e0 / IZR (Zpos my)))%R).
  { replace (q * Zpos my + r) with (Zpos mx * 2 ^ 53) by lia.
    rewrite Hex, pow2_add, <- (IZR_pow2 k) by lia.
    rewrite minus_IZR, !mult_IZR. field. split; lra. }
  rewrite Hkey, Rabs_mult.
  rewrite (Rabs_pos_eq (powerRZ 2 e0 / IZR (Zpos my)))
    by (apply Rlt_le, Rdiv_lt_0_compat; assumption).
  apply Z.abs_le in Herr.
  assert (Hd : (Rabs (IZR (Zpos m * (2 ^ k * Zpos my) - (q * Zpos my + r)))
                <= IZR (2 ^ k * Zpos my))%R).
  { apply Rabs_le. rewrite <- opp_IZR. split; apply IZR_le; lia. }
  rewrite mult_IZR, IZR_pow2 in Hd by lia.
  rewrite pow2_add.
  apply Rle_trans
    with (powerRZ 2 k * IZR (Zpos my) * (powerRZ 2 e0 / IZR (Zpos my)))%R.
  - apply Rmult_le_compat_r; [| exact Hd].
    apply Rlt_le, Rdiv_lt_0_compat; assumption.
  - apply Req_le. field. lra.
Qed.


Local Open Scope R_scope.

Lemma pow2_neg (k : Z) : (0 <= k)%Z -> powerRZ 2 (- k) = / IZR (2 ^ k).
Proof.
  intros Hk. rewrite IZR_pow2 by exact Hk.
  apply Rmult_eq_reg_r with (powerRZ 2 k);
    [| apply Rgt_not_eq, pow2_pos].
  rewrite <- pow2_add, Rinv_l by apply Rgt_not_eq, pow2_pos.
  now replace (- k + k)%Z with 0%Z by lia.
Qed.

Lemma ln2_bounds : 0 < ln 2 < 1.
Proof.
  split.
  - pose proof ln_lt_2. lra.
  - apply Rlt_le_trans with (ln (exp 1)); [| rewrite ln_exp; lra].
    apply ln_increasing; [lra |]. pose proof (exp_ineq1 1). lra.
Qed.

Lemma Rabs_le_inv (a b : R) : Rabs a <= b -> - b <= a <= b.
Proof. unfold Rabs. destruct (Rcase_abs a); lra. Qed.

(** A small change of the exponent changes a power of two little. *)
Lemma pow2_near_one (t : R) :
  Rabs t <= 1 / 2 -> Rabs (Rpower 2 t - 1) <= 2 * Rabs t.
Proof.
  intros Ht. unfold Rpower. pose proof ln2_bounds as [Hl0 Hl1].
  set (y := t * ln 2).
  pose proof (exp_ineq1_le y) as Hlow.
  pose proof (exp_ineq1_le (- y)) as Hinv. rewrite exp_Ropp in Hinv.
  pose proof (exp_pos y) as Hpos.
  assert (Hprod : exp y * (1 - y) <= 1).
  { apply Rmult_le_reg_l with (/ exp y); [now apply Rinv_0_lt_compat |].
    rewrite <- Rmult_assoc, Rinv_l by lra. lra. }
  destruct (Rle_dec 0 t) as [Hge | Hlt].
  - rewrite (Rabs_pos_eq t) in * by assumption.
    assert (Hy : 0 <= y <= t) by (unfold y; nra).
    rewrite Rabs_pos_eq by lra.
    assert (exp y <= 1 + 2 * y) by nra. lra.
  - apply Rnot_le_lt in Hlt.
    rewrite (Rabs_left t) in * by assumption.
    assert (Hy : t <= y < 0) by (unfold y; nra).
    assert (exp y < 1) by (rewrite <- exp_0; apply exp_increasing; lra).
    rewrite Rabs_left by lra. lra.
Qed.

(** From the accuracy of the three steps to the accuracy of the
    frequency. *)
Lemma tolerance_chain (va vp v X vx : R) :
  Rabs (vx - X) <= / IZR (2 ^ 35) ->
  Rabs (vp - Rpower 2 vx) <= 9 / 10 ^ 10 * Rpower 2 vx ->
  Rabs (v - va * vp) <= / IZR (2 ^ 52) * Rabs v ->
  Rabs (v - va * Rpower 2 X) <= 1 / 10 ^ 9 * Rabs (va * Rpower 2 X).
Proof.
  intros Hx Hp Hv.
  change (2 ^ 35)%Z with 34359738368%Z in Hx.
  change (2 ^ 52)%Z with 4503599627370496%Z in Hv.
  set (A := Rpower 2 X) in *.
  assert (HA : 0 < A) by apply exp_pos.
  set (g := Rpower 2 (vx - X)).
  assert (Hsplit : Rpower 2 vx = A * g).
  { unfold A, g. rewrite <- Rpower_plus. f_equal. ring. }
  rewrite Hsplit in Hp.
  assert (Hg : Rabs (g - 1) <= 2 / 34359738368).
  { eapply Rle_trans; [apply pow2_near_one; lra | lra]. }
  apply Rabs_le_inv in Hg. apply Rabs_le_inv in Hp.
  assert (HAg : A * (1 - 2 / 34359738368) <= A * g
                <= A * (1 + 2 / 34359738368)) by nra.
  assert (Hvp : A * (1 - 96 / 10 ^ 11) <= vp <= A * (1 + 96 / 10 ^ 11))
    by nra.
  assert (Hvp0 : 0 < vp) by nra.
  rewrite Rabs_mult, (Rabs_pos_eq A) by lra.
  set (a := Rabs va). assert (Ha : 0 <= a) by apply Rabs_pos.
  assert (H1 : Rabs (va * vp - va * A) <= a * A * (96 / 10 ^ 11)).
  { replace (va * vp - va * A) with (va * (vp - A)) by ring.
    rewrite Rabs_mult. fold a.
    assert (Rabs (vp - A) <= A * (96 / 10 ^ 11)) by (apply Rabs_le; lra).
    nra. }
  assert (H2 : Rabs v <= Rabs (va * vp) + Rabs (v - va * vp)).
  { replace v with (va * vp + (v - va * vp)) at 1 by ring.
    apply Rabs_triang. }
  rewrite Rabs_mult, (Rabs_pos_eq vp) in H2 by lra. fold a in H2.
  pose proof (Rabs_pos v) as HV.
  assert (H3 : Rabs v <= 2 * (a * A)) by nra.
  assert (H4 : Rabs (v - va * vp) <= 1 / 10 ^ 15 * (a * A)) by nra.
  replace (v - va * A) with ((v - va * vp) + (va * vp - va * A)) by ring.
  eapply Rle_trans; [apply Rabs_triang |]. nra.
Qed.



Local Open Scope Z_scope.

Lemma Zdigits2_abs (n : Z) : Zdigits2 (Z.abs n) = Zdigits2 n.
Proof. now destruct n. Qed.

(** An integer below [2 ^ 53] is held exactly. *)
Lemma value_of_Z (n : Z) :
  Z.abs n < 2 ^ 53 -> value (of_Z n) = Some (IZR n).
Proof.
  intros Hn. destruct (Z.eq_dec n 0) as [-> | Hnz]; [reflexivity |].
  destruct (of_Z_finite n Hnz Hn) as (m & e & Hx & Hd & He & Hv).
  rewrite Hx. cbn [value]. f_equal.
  assert (He0 : e <= 0).
  { rewrite He, <- Zdigits2_abs. 
    assert (Zdigits2 (Z.abs n) <= 53) by (apply Zdigits2_le; lia). lia. }
  assert (Hm : (IZR (Zpos m) * powerRZ 2 e = IZR (Z.abs n))%R).
  { rewrite Hv, mult_IZR, IZR_pow2 by lia.
    rewrite Rmult_assoc, <- pow2_add.
    replace (- e + e) with 0 by lia. cbn. ring. }
  destruct (Z.ltb_spec n 0); cbn [signed].
  - change (Zneg m) with (- Zpos m). rewrite opp_IZR.
    replace (IZR n) with (- IZR (Z.abs n))%R
      by (rewrite <- opp_IZR; f_equal; lia).
    rewrite <- Hm. ring.
  - rewrite Hm. f_equal. lia.
Qed.

(** The exponent that [getEDOFrequency] passes to [Math.pow] is within
    [2 ^ -35] of the exact quotient. *)
Lemma exponent_error (step divisions : Z) :
  Z.abs step < 2 ^ 20 -> 8 <= divisions < 2 ^ 53 ->
  exists vx : R,
    value (div (sub (of_Z step) (of_Z 0)) (of_Z divisions)) = Some vx
    /\ (Rabs (vx - IZR step / IZR divisions) <= / IZR (2 ^ 35))%R.
Proof.
  intros Hstep Hd.
  destruct (of_Z_finite divisions ltac:(lia) ltac:(lia))
    as (my & ey & Hy & Hdy & Hey & Hvy).
  replace (divisions <? 0) with false in Hy by (symmetry; apply Z.ltb_ge; lia).
  change (of_Z 0) with (S754_zero false).
  destruct (Z.eq_dec step 0) as [-> | Hnz].
  { change (of_Z 0) with (S754_zero false). rewrite Hy. cbn.
    exists 0%R. split; [reflexivity |].
    unfold Rdiv. rewrite Rmult_0_l, Rminus_0_r, Rabs_R0.
    apply Rlt_le, Rinv_0_lt_compat, IZR_lt. reflexivity. }
  destruct (of_Z_finite step Hnz ltac:(lia))
    as (mx & ex & Hx & Hdx & Hex & Hvx).
  rewrite Hx, Hy. cbn [sub SFsub].
  assert (Hds : 1 <= Zdigits2 step <= 20).
  { rewrite <- Zdigits2_abs. split.
    - destruct step; cbn; lia.
    - apply Zdigits2_le; lia. }
  assert (Hdd : 4 <= Zdigits2 divisions <= 53).
  { pose proof (Zdigits2_gt divisions ltac:(lia)) as Hgt. split.
    - apply Z.nlt_ge. intros Hlt.
      assert (2 ^ Zdigits2 divisions <= 2 ^ 3)
        by (apply Z.pow_le_mono_r; lia).
      change (2 ^ 3) with 8 in *. lia.
    - apply Zdigits2_le; lia. }
  destruct (div_normalized (step <? 0) mx my ex ey Hdx Hdy ltac:(lia))
    as (m & e & Hdiv & He & Herr).
  rewrite Hdiv. cbn [value]. eexists. split; [reflexivity |].
  assert (He' : e <= -35) by lia.
  apply Rle_trans with (powerRZ 2 e);
    [| rewrite <- (pow2_neg 35) by lia; now apply pow2_le].
  assert (Hpx : (IZR (Zpos mx) * powerRZ 2 ex = IZR (Z.abs step))%R).
  { rewrite Hvx, mult_IZR, IZR_pow2 by lia.
    rewrite Rmult_assoc, <- pow2_add.
    replace (- ex + ex) with 0 by lia. cbn. ring. }
  assert (Hpy : (IZR (Zpos my) * powerRZ 2 ey = IZR divisions)%R).
  { rewrite Hvy, mult_IZR, IZR_pow2 by lia.
    rewrite Rmult_assoc, <- pow2_add.
    replace (- ey + ey) with 0 by lia.
    replace (Z.abs divisions) with divisions by lia. cbn. ring. }
  rewrite Hpx, Hpy in Herr.
  destruct (Z.ltb_spec step 0) as [Hneg | Hpos]; cbn [signed].
  - replace (IZR step) with (- IZR (Z.abs step))%R
      by (rewrite <- opp_IZR; f_equal; lia).
    change (Zneg m) with (- Zpos m). rewrite opp_IZR.
    rewrite <- Rabs_Ropp.
    replace (- (- IZR (Zpos m) * powerRZ 2 e
                - - IZR (Z.abs step) / IZR divisions))%R
      with (IZR (Zpos m) * powerRZ 2 e - IZR (Z.abs step) / IZR divisions)%R
      by (unfold Rdiv; ring).
    exact Herr.
  - now replace (Z.abs step) with step in Herr by lia.
Qed.


Import Binary64Tuning.

(** What [getFrequency] computes for an EDO identifier. *)
Lemma getFrequency_edo (Math_pow : double -> double -> double)
    (this : TuningSystem) (tuningType : string) (divisions : Z)
    (step : double) :
  In (tuningType, divisions) edo_divisions ->
  getFrequency Math_pow this tuningType step
  = mul (baseFrequency this)
        (Math_pow (of_Z 2) (div (sub step (of_Z 0)) (of_Z divisions)))
  /\ 8 <= divisions < 2 ^ 53.
Proof.
  intros Hin. cbn in Hin.
  destruct Hin as [[= <- <-] | [[= <- <-] | [[= <- <-] | [[= <- <-] | []]]]];
    (split; [reflexivity | lia]).
Qed.

(** Under the two conditions, that [Math.pow] is accurate at the call and
    that the frequency returned is a normal double, the frequency is within
    the tolerance. *)
Lemma edo_frequency_tolerance
    (Math_pow : double -> double -> double) (this : TuningSystem)
    (tuningType : string) (divisions step : Z) :
  In (tuningType, divisions) edo_divisions ->
  Z.abs step < 2 ^ 20 ->
  pow_accurate
    (Math_pow (of_Z 2) (div (sub (of_Z step) (of_Z 0)) (of_Z divisions)))
    (div (sub (of_Z step) (of_Z 0)) (of_Z divisions)) ->
  normal (getFrequency Math_pow this tuningType (of_Z step)) = true ->
  exists base v : R,
    value (baseFrequency this) = Some base
    /\ value (getFrequency Math_pow this tuningType (of_Z step)) = Some v
    /\ (Rabs (v - base * Rpower 2 (IZR step / IZR divisions))
        <= 1 / 10 ^ 9 * Rabs (base * Rpower 2 (IZR step / IZR divisions)))%R.
Proof.
  intros Hin Hstep Hpow Hnormal.
  destruct (getFrequency_edo Math_pow this tuningType divisions (of_Z step)
              Hin) as [Hrun Hd].
  rewrite Hrun in Hnormal |- *.
  destruct (exponent_error step divisions Hstep Hd) as (vx & Hvx & Hx).
  destruct Hpow as (vp & vx' & Hvp & Hvx' & Hp).
  rewrite Hvx in Hvx'. injection Hvx' as <-.
  destruct (mul_normal_error _ _ Hnormal)
    as (va & vb & v & Hva & Hvb & Hv & Herr).
  rewrite Hvp in Hvb. injection Hvb as <-.
  exists va, v. split; [exact Hva |]. split; [exact Hv |].
  change (-52)%Z with (- (52))%Z in Herr.
  rewrite (pow2_neg 52) in Herr by lia.
  exact (tolerance_chain va vp v _ vx Hx Hp Herr).
Qed.

(** C1, as amended.  For each EDO identifier, with 12, 24, 31 or 53
    divisions, every integer step below [2 ^ 20] in magnitude and every base
    frequency, [getFrequency] computes the base frequency times
    [Math.pow (2, step / divisions)] in double arithmetic; when what
    [Math.pow] returns there is within 9e-10, relatively, of two to the
    power of its argument, and the frequency returned is a normal double,
    that frequency is within 1e-9, relatively, of
    base * 2 ^ (step / divisions). *)
Theorem C1_edo_frequency_in_doubles
    (Math_pow : double -> double -> double) (this : TuningSystem)
    (tuningType : string) (divisions step : Z) :
  In (tuningType, divisions) edo_divisions ->
  Z.abs step < 2 ^ 20 ->
  pow_accurate
    (Math_pow (of_Z 2) (div (sub (of_Z step) (of_Z 0)) (of_Z divisions)))
    (div (sub (of_Z step) (of_Z 0)) (of_Z divisions)) ->
  normal (getFrequency Math_pow this tuningType (of_Z step)) = true ->
  getFrequency Math_pow this tuningType (of_Z step)
  = mul (baseFrequency this)
        (Math_pow (of_Z 2) (div (sub (of_Z step) (of_Z 0)) (of_Z divisions)))
  /\ exists base : R,
       value (baseFrequency this) = Some base
       /\ within_tolerance
            (getFrequency Math_pow this tuningType (of_Z step))
            (base * Rpower 2 (IZR step / IZR divisions)).
Proof.
  intros Hin Hstep Hpow Hnormal. split.
  - apply (getFrequency_edo Math_pow this tuningType divisions (of_Z step)
             Hin).
  - destruct (edo_frequency_tolerance Math_pow this tuningType divisions step
                Hin Hstep Hpow Hnormal) as (base & v & Hbase & Hv & Htol).
    exists base. split; [exact Hbase |]. exists v. now split.
Qed.


(** A browser whose [Math.pow (2, 1)] is 2: the octave above the base. *)
Lemma C1_edo_frequency_in_doubles_witness :
  exists base : R,
    value (of_Z 440) = Some base
    /\ within_tolerance
         (getFrequency (fun _ _ => of_Z 2) (mkTuningSystem (of_Z 440))
                       "12-edo" (of_Z 12))
         (base * Rpower 2 (IZR 12 / IZR 12)).
Proof.
  apply (proj2 (C1_edo_frequency_in_doubles
                  (fun _ _ => of_Z 2) (mkTuningSystem (of_Z 440))
                  "12-edo" 12 12 ltac:(left; reflexivity)
                  ltac:(reflexivity)
                  ltac:(exists 2%R, 1%R;
                        split; [apply value_of_Z; reflexivity |];
                        split; [apply (value_of_Z 1); reflexivity |];
                        rewrite Rpower_1 by lra;
                        rewrite Rminus_diag, Rabs_R0; lra)
                  ltac:(vm_compute; reflexivity))).
Defined.

Lemma mul_value_shape (a b : double) (v : R) :
  value (mul a b) = Some v ->
  v = 0%R
  \/ exists (s : bool) (m : positive) (e : Z),
       v = (IZR (signed s m) * powerRZ 2 e)%R
       /\ Zpos m < 2 ^ 53 /\ -1074 <= e <= 971.
Proof.
  destruct a as [sa | sa | | sa ma ea], b as [sb | sb | | sb mb eb];
    cbn [mul SFmul value]; try discriminate;
    try (intros [= <-]; now left).
  unfold mul. cbn [SFmul].
  destruct (round_aux_faithful (xorb sa sb) (Zpos (ma * mb)) (ea + eb)
              loc_Exact 1 (Zpos (ma * mb)))
    as (m & k & Heq & Hm & Hk & Hmin & Herr); try lia.
  { exists 0. cbn.
    repeat split; try lia; intuition (try discriminate; lia). }
  rewrite Heq. destruct m as [| m | m]; [| | lia].
  - intros [= <-]. now left.
  - destruct (Z.leb_spec (ea + eb + k) 971); [| discriminate].
    intros [= <-]. right. exists (xorb sa sb), m, (ea + eb + k).
    repeat split; lia.
Qed.


Local Open Scope R_scope.

(** Every product is below [2 ^ 1024] in magnitude. *)
Lemma mul_value_bounded (a b : double) (v : R) :
  value (mul a b) = Some v -> Rabs v < powerRZ 2 1024.
Proof.
  intros Hv. destruct (mul_value_shape a b v Hv)
    as [-> | (s & m & e & -> & Hm & He)].
  - rewrite Rabs_R0. apply pow2_pos.
  - rewrite Rabs_mult, signed_abs, (Rabs_pos_eq (powerRZ 2 e))
      by apply Rlt_le, pow2_pos.
    change 1024%Z with (53 + 971)%Z. rewrite pow2_add.
    apply Rlt_le_trans with (powerRZ 2 53 * powerRZ 2 e).
    + apply Rmult_lt_compat_r; [apply pow2_pos |].
      rewrite <- IZR_pow2 by lia. now apply IZR_lt.
    + apply Rmult_le_compat_l; [apply Rlt_le, pow2_pos |].
      apply pow2_le. lia.
Qed.

(** Every product is a whole number of units of [2 ^ -1074]. *)
Lemma mul_value_grid (a b : double) (v : R) :
  value (mul a b) = Some v ->
  exists K : Z, v = IZR K * powerRZ 2 (-1074).
Proof.
  intros Hv. destruct (mul_value_shape a b v Hv)
    as [-> | (s & m & e & -> & Hm & He)].
  - exists 0%Z. ring.
  - exists (signed s m * 2 ^ (e + 1074))%Z.
    rewrite mult_IZR, IZR_pow2 by lia.
    rewrite Rmult_assoc, <- pow2_add. do 2 f_equal. lia.
Qed.

(** C1 as stated fails outside the range of the doubles, whatever
    [Math.pow] returns: at base 440 under 12-EDO no double is within 1e-9 of
    440 * 2 ^ 1016 (step 12192), which is above every finite double, and
    none is within 1e-9 of 440 * 2 ^ -1080 (step -12960), which lies
    strictly between two neighbouring subnormal doubles. *)
Lemma C1_tolerance_fails_out_of_range :
  ~ (exists Math_pow : double -> double -> double,
       within_tolerance
         (getFrequency Math_pow (mkTuningSystem (of_Z 440)) "12-edo"
                       (of_Z 12192))
         (440 * Rpower 2 (12192 / 12)))
  /\ ~ (exists Math_pow : double -> double -> double,
          within_tolerance
            (getFrequency Math_pow (mkTuningSystem (of_Z 440)) "12-edo"
                          (of_Z (-12960)))
            (440 * Rpower 2 (-12960 / 12))).
Proof.
  split; intros (Math_pow & v & Hv & Htol).
  - change (getFrequency Math_pow (mkTuningSystem (of_Z 440)) "12-edo"
                         (of_Z 12192))
      with (mul (of_Z 440)
                (Math_pow (of_Z 2)
                          (div (sub (of_Z 12192) (of_Z 0)) (of_Z 12))))
      in Hv.
    apply mul_value_bounded in Hv.
    replace (12192 / 12) with (IZR 1016) in Htol by lra.
    rewrite <- powerRZ_Rpower in Htol by lra.
    change 1024%Z with (8 + 1016)%Z in Hv. rewrite pow2_add in Hv.
    rewrite <- (IZR_pow2 8) in Hv by lia. change (2 ^ 8)%Z with 256%Z in Hv.
    pose proof (pow2_pos 1016) as HQ.
    rewrite (Rabs_pos_eq (440 * powerRZ 2 1016)) in Htol by nra.
    apply Rabs_le_inv in Htol.
    assert (v <= Rabs v) by apply Rle_abs. nra.
  - change (getFrequency Math_pow (mkTuningSystem (of_Z 440)) "12-edo"
                         (of_Z (-12960)))
      with (mul (of_Z 440)
                (Math_pow (of_Z 2)
                          (div (sub (of_Z (-12960)) (of_Z 0)) (of_Z 12))))
      in Hv.
    apply mul_value_grid in Hv. destruct Hv as [K ->].
    replace (-12960 / 12) with (IZR (-1080)) in Htol by lra.
    rewrite <- powerRZ_Rpower in Htol by lra.
    change (-1080)%Z with (-1074 + - (6))%Z in Htol.
    rewrite pow2_add, (pow2_neg 6) in Htol by lia.
    change (2 ^ 6)%Z with 64%Z in Htol.
    pose proof (pow2_pos (-1074)) as HU.
    rewrite (Rabs_pos_eq (440 * (powerRZ 2 (-1074) * / 64))) in Htol by nra.
    apply Rabs_le_inv in Htol.
    destruct (Z_le_gt_dec K 6) as [Hle | Hgt].
    + apply IZR_le in Hle. nra.
    + assert (Hge : (7 <= K)%Z) by lia. apply IZR_le in Hge. nra.
Qed.

(** X27. In double arithmetic too, a higher step sounds higher: for an EDO
    identifier, a positive base frequency and two steps below [2 ^ 20] in
    magnitude, when [Math.pow] is accurate at both calls (within 9e-10,
    relatively) and both frequencies returned are normal doubles, the
    frequency of the lower step is positive and strictly below the
    frequency of the higher step. *)
Theorem edo_frequencies_increase_in_doubles
    (Math_pow : double -> double -> double) (this : TuningSystem)
    (tuningType : string) (divisions step step' : Z) (base : R) :
  In (tuningType, divisions) edo_divisions ->
  (Z.abs step < 2 ^ 20)%Z -> (Z.abs step' < 2 ^ 20)%Z -> (step < step')%Z ->
  value (baseFrequency this) = Some base -> 0 < base ->
  pow_accurate
    (Math_pow (of_Z 2) (div (sub (of_Z step) (of_Z 0)) (of_Z divisions)))
    (div (sub (of_Z step) (of_Z 0)) (of_Z divisions)) ->
  pow_accurate
    (Math_pow (of_Z 2) (div (sub (of_Z step') (of_Z 0)) (of_Z divisions)))
    (div (sub (of_Z step') (of_Z 0)) (of_Z divisions)) ->
  normal (getFrequency Math_pow this tuningType (of_Z step)) = true ->
  normal (getFrequency Math_pow this tuningType (of_Z step')) = true ->
  exists v v' : R,
    value (getFrequency Math_pow this tuningType (of_Z step)) = Some v
    /\ value (getFrequency Math_pow this tuningType (of_Z step')) = Some v'
    /\ 0 < v < v'.
Proof.
  intros Hin Hs Hs' Hlt Hbase Hpos Hp Hp' Hn Hn'.
  destruct (edo_frequency_tolerance Math_pow this tuningType divisions step
              Hin Hs Hp Hn) as (b1 & v & Hb1 & Hv & Htol).
  destruct (edo_frequency_tolerance Math_pow this tuningType divisions step'
              Hin Hs' Hp' Hn') as (b2 & v' & Hb2 & Hv' & Htol').
  rewrite Hbase in Hb1, Hb2. injection Hb1 as <-. injection Hb2 as <-.
  exists v, v'. split; [exact Hv |]. split; [exact Hv' |].
  destruct (getFrequency_edo Math_pow this tuningType divisions (of_Z step)
              Hin) as [_ Hd].
  assert (Hdr : 8 <= IZR divisions <= 53).
  { cbn in Hin.
    destruct Hin as [[= _ <-] | [[= _ <-] | [[= _ <-] | [[= _ <-] | []]]]];
      lra. }
  set (T := Rpower 2 (IZR step / IZR divisions)) in *.
  assert (HT : 0 < T) by apply exp_pos.
  set (g := Rpower 2 ((IZR step' - IZR step) / IZR divisions)).
  assert (Hsplit : Rpower 2 (IZR step' / IZR divisions) = T * g).
  { unfold T, g. rewrite <- Rpower_plus. f_equal. field. lra. }
  rewrite Hsplit in Htol'.
  assert (Hg : 1 + / 106 <= g).
  { unfold g, Rpower. pose proof ln2_bounds as [_ _]. pose proof ln_lt_2.
    eapply Rle_trans; [| apply exp_ineq1_le].
    assert (Hk : 1 <= IZR step' - IZR step)
      by (rewrite <- minus_IZR; apply IZR_le; lia).
    assert (/ 53 <= (IZR step' - IZR step) / IZR divisions).
    { apply Rle_trans with (1 / IZR divisions).
      - unfold Rdiv. rewrite Rmult_1_l.
        apply Rinv_le_contravar; lra.
      - apply Rmult_le_compat_r; [| exact Hk].
        apply Rlt_le, Rinv_0_lt_compat. lra. }
    nra. }
  assert (Hbt : 0 < base * T) by nra.
  assert (Hbtg : base * T * (1 + / 106) <= base * (T * g)) by nra.
  rewrite (Rabs_pos_eq (base * T)) in Htol by lra.
  rewrite (Rabs_pos_eq (base * (T * g))) in Htol' by lra.
  apply Rabs_le_inv in Htol. apply Rabs_le_inv in Htol'.
  split; lra.
Qed.

(** A browser whose [Math.pow (2, x)] is 1 at 0 and 2 at 1: the base note
    and its octave. *)
Lemma edo_frequencies_increase_in_doubles_witness :
  exists v v' : R,
    value (getFrequency (fun _ x => add x (of_Z 1))
                        (mkTuningSystem (of_Z 440)) "12-edo" (of_Z 0))
    = Some v
    /\ value (getFrequency (fun _ x => add x (of_Z 1))
                           (mkTuningSystem (of_Z 440)) "12-edo" (of_Z 12))
       = Some v'
    /\ 0 < v < v'.
Proof.
  apply (edo_frequencies_increase_in_doubles
           (fun _ x => add x (of_Z 1)) (mkTuningSystem (of_Z 440))
           "12-edo" 12 0 12 440).
  - left; reflexivity.
  - reflexivity.
  - reflexivity.
  - reflexivity.
  - apply (value_of_Z 440). reflexivity.
  - lra.
  - exists 1, 0. split; [apply (value_of_Z 1); reflexivity |].
    split; [reflexivity |].
    rewrite Rpower_O by lra. rewrite Rminus_diag, Rabs_R0. lra.
  - exists 2, 1. split; [apply (value_of_Z 2); reflexivity |].
    split; [apply (value_of_Z 1); reflexivity |].
    rewrite Rpower_1 by lra. rewrite Rminus_diag, Rabs_R0. lra.
  - vm_compute. reflexivity.
  - vm_compute. reflexivity.
Defined.

End Binary64Facts.


Lemma Rpower_2_neg1 : Rpower 2 (-1) = (/ 2)%R.
Proof.
  replace (-1)%R with (- (1))%R by lra.
  rewrite Rpower_Ropp, Rpower_1; [reflexivity | lra].
Qed.

Lemma getFrequency_just (this : TuningSystem) (step : Z) :
  getFrequency this "just" step = getJustIntonation this step.
Proof. reflexivity. Qed.

(** C2. For every integer step, negative ones included, the Just
    Intonation frequency is base * ratios[((step % 12) + 12) % 12] *
    2^floor(step / 12), the index being the floor remainder of the step
    and always inside the table; step -1 sounds one octave below step 11,
    and step 0 sounds the base frequency. *)
Theorem C2_just_intonation (this : TuningSystem) :
  (forall step : Z,
     exists ratio : R,
       JS.rem (JS.rem step 12 + 12) 12 = step mod 12
       /\ nth_error justRatios (Z.to_nat (step mod 12)) = Some ratio
       /\ getFrequency this "just" step
          = Some (baseFrequency this * ratio * Rpower 2 (IZR (step / 12)))%R)
  /\ (exists f11 : R,
        getFrequency this "just" 11 = Some f11
        /\ getFrequency this "just" (-1) = Some (f11 / 2)%R)
  /\ getFrequency this "just" 0 = Some (baseFrequency this).
Proof.
  split; [| split].
  - intros step.
    destruct (just_ratio_defined step) as [ratio Hr].
    exists ratio.
    pose proof (Z.mod_pos_bound step 12 ltac:(lia)) as Hb.
    split; [apply just_index_floor_mod |].
    split.
    + unfold JS.index in Hr.
      destruct (Z.ltb_spec (step mod 12) 0); [lia | exact Hr].
    + rewrite getFrequency_just. unfold getJustIntonation.
      rewrite just_index_floor_mod, Hr. reflexivity.
  - rewrite !getFrequency_just. unfold getJustIntonation.
    rewrite !just_index_floor_mod.
    change (11 mod 12) with 11. change (-1 mod 12) with 11.
    change (JS.floor_div 11 12) with 0.
    change (JS.floor_div (-1) 12) with (-1).
    change (JS.index justRatios 11) with (Some (15 / 8)%R).
    eexists; split; [reflexivity |].
    unfold JS.pow. f_equal.
    rewrite Rpower_2_neg1, Rpower_O by lra. lra.
  - rewrite getFrequency_just. unfold getJustIntonation.
    rewrite just_index_floor_mod.
    change (0 mod 12) with 0. change (JS.floor_div 0 12) with 0.
    change (JS.index justRatios 0) with (Some (1 / 1)%R).
    unfold JS.pow. f_equal.
    rewrite Rpower_O by lra. lra.
Qed.

(** C8 as stated fails: the setter stores a negative value as it is. *)
Lemma C8_negative_base_is_stored :
  ~ (forall (this : TuningSystem) (freq : R),
       (0 < baseFrequency (setBaseFrequency this freq))%R).
Proof.
  intros H. specialize (H TuningSystem_default (-1)%R).
  cbn in H. lra.
Qed.

(** C8, amended.  [setBaseFrequency] stores its argument as it is, with no
    rejection and no clamping: afterwards the base frequency is strictly
    positive exactly when the value passed in is. *)
Theorem C8_setBaseFrequency_stores (this : TuningSystem) (freq : R) :
  baseFrequency (setBaseFrequency this freq) = freq
  /\ ((0 < baseFrequency (setBaseFrequency this freq))%R <-> (0 < freq)%R).
Proof.
  split; [reflexivity | cbn; tauto].
Qed.

(** An unrecognised tuning identifier is tuned as 12-EDO. *)
Lemma getFrequency_default (this : TuningSystem) (tuningType : string)
    (step : Z) :
  recognized_tuning tuningType = false ->
  getFrequency this tuningType step = getFrequency this "12-edo" step.
Proof.
  unfold recognized_tuning, getFrequency. cbn [existsb].
  intros H.
  repeat (apply orb_false_elim in H; destruct H as [-> H]).
  reflexivity.
Qed.

(** ** Layout generators *)

Lemma zrange_S (first : Z) (count : nat) :
  zrange first (S count) = first :: zrange (first + 1) count.
Proof.
  unfold zrange. cbn [seq map]. rewrite Z.add_0_r. f_equal.
  rewrite <- seq_shift, map_map.
  apply map_ext. intros k. lia.
Qed.

Lemma zrange_length (first : Z) (count : nat) :
  List.length (zrange first count) = count.
Proof. unfold zrange. now rewrite length_map, length_seq. Qed.

Lemma zrange_nth (first : Z) (count k : nat) :
  (k < count)%nat ->
  nth_error (zrange first count) k = Some (first + Z.of_nat k).
Proof.
  intros Hk. unfold zrange.
  rewrite nth_error_map, nth_error_seq.
  destruct (Nat.ltb_spec k count); [reflexivity | lia].
Qed.

Lemma zrange_In (first : Z) (count : nat) (z : Z) :
  In z (zrange first count) <-> first <= z < first + Z.of_nat count.
Proof.
  unfold zrange. rewrite in_map_iff. split.
  - intros (k & <- & Hk). apply in_seq in Hk. lia.
  - intros Hz. exists (Z.to_nat (z - first)). split; [lia |].
    apply in_seq. lia.
Qed.

(** A loop that only pushes builds the image of its index range. *)
Lemma for_from_push {A : Type} (f : Z -> A) (count : nat) :
  forall (i : Z) (acc : list A),
    for_from count i (fun j keys => push keys (f j)) acc
    = acc ++ map f (zrange i count).
Proof.
  induction count as [| count IH]; intros i acc.
  - cbn. now rewrite app_nil_r.
  - cbn [for_from]. rewrite IH, zrange_S. unfold push.
    now rewrite <- app_assoc.
Qed.

Lemma chromatic_keys (tuningSystem : TuningSystem) (tuningType : string)
    (rows cols : Z) :
  generateKeys chromaticLayout tuningSystem tuningType rows cols
  = map (chromatic_key tuningSystem tuningType cols)
        (zrange 0 (Z.to_nat (rows * cols))).
Proof.
  unfold generateKeys, chromaticLayout, generator, for_lt.
  now rewrite for_from_push.
Qed.

Lemma inner_loop (mk : Z -> Z -> Z -> KeyDescriptor) (row : Z)
    (count : nat) :
  forall (c0 : Z) (keys : list KeyDescriptor) (keyId : Z),
    for_from count c0
      (fun col '(keys, keyId) => (push keys (mk keyId row col), keyId + 1))
      (keys, keyId)
    = (keys ++ map (fun c => mk (keyId + (c - c0)) row c) (zrange c0 count),
       keyId + Z.of_nat count).
Proof.
  induction count as [| count IH]; intros c0 keys keyId.
  - cbn. now rewrite app_nil_r, Z.add_0_r.
  - cbn [for_from]. rewrite IH, zrange_S. unfold push.
    rewrite <- app_assoc. cbn [map app].
    f_equal; [| lia]. f_equal.
    rewrite Z.sub_diag, Z.add_0_r. f_equal.
    apply map_ext. intros c. f_equal. lia.
Qed.

Lemma inner_loop_row (mk : Z -> Z -> Z -> KeyDescriptor) (row cols : Z)
    (keys : list KeyDescriptor) (keyId : Z) :
  for_lt cols
    (fun col '(keys, keyId) => (push keys (mk keyId row col), keyId + 1))
    (keys, keyId)
  = (keys ++ row_keys mk keyId row (Z.to_nat cols),
     keyId + Z.of_nat (Z.to_nat cols)).
Proof.
  unfold for_lt. rewrite inner_loop. unfold row_keys.
  f_equal. f_equal. apply map_ext. intros c. f_equal. lia.
Qed.

Lemma outer_loop (mk : Z -> Z -> Z -> KeyDescriptor) (cols : Z)
    (count : nat) :
  forall (r0 : Z) (keys : list KeyDescriptor) (keyId : Z),
    for_from count r0
      (fun row st =>
         for_lt cols
           (fun col '(keys, keyId) =>
              (push keys (mk keyId row col), keyId + 1)) st)
      (keys, keyId)
    = (keys ++ List.concat
         (map (fun r =>
                 row_keys mk (keyId + (r - r0) * Z.of_nat (Z.to_nat cols)) r
                          (Z.to_nat cols))
              (zrange r0 count)),
       keyId + Z.of_nat count * Z.of_nat (Z.to_nat cols)).
Proof.
  induction count as [| count IH]; intros r0 keys keyId.
  - cbn. rewrite app_nil_r. f_equal. lia.
  - cbn [for_from]. rewrite inner_loop_row, IH, zrange_S.
    cbn [map List.concat]. rewrite <- app_assoc.
    f_equal; [| lia]. f_equal.
    rewrite Z.sub_diag, Z.mul_0_l, Z.add_0_r. f_equal.
    f_equal. apply map_ext. intros r. f_equal. lia.
Qed.

(** The closed form of a grid layout: its rows one after the other, the
    identifiers counting on from row to row. *)
Lemma grid_loop_rows (rows cols : Z) (mk : Z -> Z -> Z -> KeyDescriptor) :
  grid_loop rows cols mk
  = List.concat
      (map (fun r => row_keys mk (r * Z.of_nat (Z.to_nat cols)) r
                              (Z.to_nat cols))
           (zrange 0 (Z.to_nat rows))).
Proof.
  unfold grid_loop. unfold for_lt at 1. rewrite outer_loop. cbn [fst app].
  f_equal. apply map_ext. intros r. f_equal. lia.
Qed.

Lemma nth_error_concat_uniform {A : Type} (n : nat) (ls : list (list A)) :
  Forall (fun l => List.length l = n) ls ->
  forall i j : nat,
    (j < n)%nat ->
    nth_error (List.concat ls) (i * n + j)
    = match nth_error ls i with
      | Some l => nth_error l j
      | None => None
      end.
Proof.
  induction 1 as [| l ls Hl _ IH]; intros i j Hj.
  - cbn. destruct i; now rewrite nth_error_nil.
  - destruct i as [| i]; cbn [List.concat nth_error].
    + cbn [Nat.mul Nat.add]. apply nth_error_app1. lia.
    + rewrite nth_error_app2 by lia.
      replace (S i * n + j - List.length l)%nat with (i * n + j)%nat by lia.
      now apply IH.
Qed.

Lemma row_keys_length (mk : Z -> Z -> Z -> KeyDescriptor) (firstId row : Z)
    (count : nat) :
  List.length (row_keys mk firstId row count) = count.
Proof. unfold row_keys. now rewrite length_map, zrange_length. Qed.

(** The key of a grid layout at row [r] and column [c] sits at the
    row-major position and carries that position as its identifier. *)
Lemma grid_loop_nth (rows cols : Z) (mk : Z -> Z -> Z -> KeyDescriptor)
    (r c : Z) :
  0 <= r < rows -> 0 <= c < cols ->
  nth_error (grid_loop rows cols mk) (Z.to_nat (r * cols + c))
  = Some (mk (r * cols + c) r c).
Proof.
  intros Hr Hc. rewrite grid_loop_rows.
  replace (Z.to_nat (r * cols + c))
    with (Z.to_nat r * Z.to_nat cols + Z.to_nat c)%nat by nia.
  rewrite (nth_error_concat_uniform (Z.to_nat cols)); [| | lia].
  - rewrite nth_error_map, zrange_nth by lia. cbn [option_map].
    unfold row_keys.
    rewrite nth_error_map, zrange_nth by lia. cbn [option_map].
    do 2 f_equal; lia.
  - apply Forall_forall. intros l Hl.
    apply in_map_iff in Hl. destruct Hl as (r' & <- & _).
    apply row_keys_length.
Qed.

Lemma grid_loop_In (rows cols : Z) (mk : Z -> Z -> Z -> KeyDescriptor)
    (k : KeyDescriptor) :
  In k (grid_loop rows cols mk) ->
  exists r c : Z,
    0 <= r < rows /\ 0 <= c < cols /\ k = mk (r * cols + c) r c.
Proof.
  rewrite grid_loop_rows. intros Hk.
  apply in_concat in Hk. destruct Hk as (l & Hl & Hk).
  apply in_map_iff in Hl. destruct Hl as (r & <- & Hr).
  unfold row_keys in Hk.
  apply in_map_iff in Hk. destruct Hk as (c & <- & Hc).
  apply zrange_In in Hr. apply zrange_In in Hc.
  exists r, c. repeat split; try lia.
  f_equal. lia.
Qed.

Lemma chromatic_nth (tuningSystem : TuningSystem) (tuningType : string)
    (rows cols i : Z) :
  0 <= i < rows * cols ->
  nth_error (generateKeys chromaticLayout tuningSystem tuningType rows cols)
            (Z.to_nat i)
  = Some (chromatic_key tuningSystem tuningType cols i).
Proof.
  intros Hi. rewrite chromatic_keys, nth_error_map, zrange_nth by lia.
  cbn [option_map]. do 2 f_equal. lia.
Qed.

Lemma chromatic_In (tuningSystem : TuningSystem) (tuningType : string)
    (rows cols : Z) (k : KeyDescriptor) :
  In k (generateKeys chromaticLayout tuningSystem tuningType rows cols) ->
  exists i : Z,
    0 <= i < rows * cols /\ k = chromatic_key tuningSystem tuningType cols i.
Proof.
  rewrite chromatic_keys. intros Hk.
  apply in_map_iff in Hk. destruct Hk as (i & <- & Hi).
  apply zrange_In in Hi. exists i. split; [lia | reflexivity].
Qed.

(** Row and column of the chromatic key at a row-major position. *)
Lemma row_major_position (cols r c : Z) :
  0 <= r -> 0 <= c < cols ->
  JS.floor_div (r * cols + c) cols = r /\ JS.rem (r * cols + c) cols = c.
Proof.
  intros Hr Hc. unfold JS.floor_div, JS.rem. split.
  - rewrite Z.div_add_l, Z.div_small by lia. lia.
  - rewrite Z.rem_mod_nonneg by nia.
    rewrite (Z.add_comm (r * cols) c), Z.mod_add by lia.
    apply Z.mod_small; lia.
Qed.

Lemma position_of_index (cols i : Z) :
  0 < cols -> 0 <= i ->
  0 <= JS.floor_div i cols /\ 0 <= JS.rem i cols < cols
  /\ i = JS.floor_div i cols * cols + JS.rem i cols.
Proof.
  intros Hc Hi. unfold JS.floor_div, JS.rem.
  rewrite Z.rem_mod_nonneg by lia.
  pose proof (Z.mod_pos_bound i cols Hc).
  pose proof (Z.div_pos i cols Hi Hc).
  pose proof (Z.div_mod i cols ltac:(lia)).
  lia.
Qed.

Lemma janko_row_terms (r : Z) :
  0 <= r -> JS.rem r 2 = r mod 2 /\ JS.floor_div r 2 = r / 2.
Proof.
  intros Hr. unfold JS.rem, JS.floor_div.
  now rewrite Z.rem_mod_nonneg by lia.
Qed.

(** What the four generators put at row [r], column [c]: the key at the
    row-major position has that row and column and the step of the
    layout's formula. *)
Lemma key_at_position (tuningSystem : TuningSystem) (tuningType : string)
    (rows cols : Z) (l : LayoutId) (r c : Z) :
  0 <= r < rows -> 0 <= c < cols ->
  exists k : KeyDescriptor,
    nth_error (generateKeys (layout_of l) tuningSystem tuningType rows cols)
              (Z.to_nat (r * cols + c)) = Some k
    /\ row k = r /\ col k = c /\ step k = stepIndex_spec l cols r c.
Proof.
  intros Hr Hc.
  destruct l; cbn [layout_of].
  - eexists. split; [apply chromatic_nth; nia |].
    cbn [row col step chromatic_key stepIndex_spec].
    destruct (row_major_position cols r c) as [-> ->]; try lia.
  - eexists. split; [apply grid_loop_nth; assumption |].
    cbn [row col step stepIndex_spec]. lia.
  - eexists. split; [apply grid_loop_nth; assumption |].
    cbn [row col step stepIndex_spec]. lia.
  - eexists. split; [apply grid_loop_nth; assumption |].
    cbn [row col step stepIndex_spec].
    destruct (janko_row_terms r) as [-> ->]; lia.
Qed.

(** Every key that a generator produces lies in the grid and has the step
    of the layout's formula at its own row and column. *)
Lemma key_in_grid (tuningSystem : TuningSystem) (tuningType : string)
    (rows cols : Z) (l : LayoutId) (k : KeyDescriptor) :
  0 < cols ->
  In k (generateKeys (layout_of l) tuningSystem tuningType rows cols) ->
  0 <= row k < rows /\ 0 <= col k < cols
  /\ step k = stepIndex_spec l cols (row k) (col k).
Proof.
  intros Hcols Hk.
  destruct l; cbn [layout_of] in Hk.
  - apply chromatic_In in Hk. destruct Hk as (i & Hi & ->).
    cbn [row col step chromatic_key stepIndex_spec].
    destruct (position_of_index cols i) as (H0 & H1 & H2); try lia.
    repeat split; try lia. nia.
  - apply grid_loop_In in Hk. destruct Hk as (r & c & Hr & Hc & ->).
    cbn [row col step stepIndex_spec]. lia.
  - apply grid_loop_In in Hk. destruct Hk as (r & c & Hr & Hc & ->).
    cbn [row col step stepIndex_spec]. lia.
  - apply grid_loop_In in Hk. destruct Hk as (r & c & Hr & Hc & ->).
    cbn [row col step stepIndex_spec].
    destruct (janko_row_terms r) as [-> ->]; lia.
Qed.

Lemma chromatic_steps (tuningSystem : TuningSystem) (tuningType : string)
    (rows cols : Z) :
  map step (generateKeys chromaticLayout tuningSystem tuningType rows cols)
  = zrange (-12) (Z.to_nat (rows * cols)).
Proof.
  rewrite chromatic_keys, map_map. unfold zrange. rewrite !map_map.
  apply map_ext. intros k. cbn [step chromatic_key]. lia.
Qed.

(** C3. In each of the four layouts, for every grid size and every
    in-range row and column, the generated key at that position has the
    step of the layout's formula, and no generated key has another step;
    the chromatic layout on 4 rows of 12 columns gives the steps -12 to 35
    in row-major order and labels step 0 as C4 under 12-EDO; Wicki-Hayden
    gives step -12 at row 0, column 0 and step -3 at row 1, column 1. *)
Theorem C3_layout_step_formulas (tuningSystem : TuningSystem)
    (tuningType : string) (rows cols : Z) :
  (forall (l : LayoutId) (r c : Z),
     0 <= r < rows -> 0 <= c < cols ->
     exists k : KeyDescriptor,
       nth_error
         (generateKeys (layout_of l) tuningSystem tuningType rows cols)
         (Z.to_nat (r * cols + c)) = Some k
       /\ row k = r /\ col k = c /\ step k = stepIndex_spec l cols r c)
  /\ (forall (l : LayoutId) (k : KeyDescriptor),
        0 < cols ->
        In k (generateKeys (layout_of l) tuningSystem tuningType rows cols) ->
        0 <= row k < rows /\ 0 <= col k < cols
        /\ step k = stepIndex_spec l cols (row k) (col k))
  /\ map step (generateKeys chromaticLayout tuningSystem "12-edo" 4 12)
     = [ -12; -11; -10; -9; -8; -7; -6; -5; -4; -3; -2; -1;
         0; 1; 2; 3; 4; 5; 6; 7; 8; 9; 10; 11;
         12; 13; 14; 15; 16; 17; 18; 19; 20; 21; 22; 23;
         24; 25; 26; 27; 28; 29; 30; 31; 32; 33; 34; 35 ]
  /\ (forall k : KeyDescriptor,
        In k (generateKeys chromaticLayout tuningSystem "12-edo" 4 12) ->
        step k = 0 -> noteName k = "C4"%string)
  /\ (1 < rows -> 1 < cols ->
      exists k00 k11 : KeyDescriptor,
        nth_error
          (generateKeys wickiHaydenLayout tuningSystem tuningType rows cols)
          0 = Some k00
        /\ row k00 = 0 /\ col k00 = 0 /\ step k00 = -12
        /\ nth_error
             (generateKeys wickiHaydenLayout tuningSystem tuningType rows
                           cols)
             (Z.to_nat (cols + 1)) = Some k11
        /\ row k11 = 1 /\ col k11 = 1 /\ step k11 = -3).
Proof.
  split; [| split; [| split; [| split]]].
  - intros l r c. apply key_at_position.
  - intros l k. apply key_in_grid.
  - rewrite chromatic_steps. reflexivity.
  - intros k Hk Hstep.
    apply chromatic_In in Hk. destruct Hk as (i & _ & ->).
    cbn [step noteName chromatic_key] in *.
    replace (-12 + i) with 0 by lia. reflexivity.
  - intros Hrows Hcols.
    destruct (key_at_position tuningSystem tuningType rows cols
                WickiHayden 0 0) as (k00 & H00 & Hr0 & Hc0 & Hs0);
      try lia.
    destruct (key_at_position tuningSystem tuningType rows cols
                WickiHayden 1 1) as (k11 & H11 & Hr1 & Hc1 & Hs1);
      try lia.
    exists k00, k11.
    cbn [layout_of stepIndex_spec] in *.
    replace (Z.to_nat (0 * cols + 0)) with 0%nat in H00 by lia.
    replace (1 * cols + 1) with (cols + 1) in H11 by lia.
    repeat split; try assumption; lia.
Qed.

(** The keys of the Wicki-Hayden grid of 6 rows and 8 columns at row 1,
    column 1 and at row 0, column 0. *)
Lemma C3_layout_step_formulas_witness :
  (exists k : KeyDescriptor,
     nth_error
       (generateKeys (layout_of WickiHayden) TuningSystem_default "12-edo"
                     6 8)
       (Z.to_nat (1 * 8 + 1)) = Some k
     /\ row k = 1 /\ col k = 1 /\ step k = stepIndex_spec WickiHayden 8 1 1)
  /\ (exists k00 k11 : KeyDescriptor,
        nth_error
          (generateKeys wickiHaydenLayout TuningSystem_default "12-edo" 6 8)
          0 = Some k00
        /\ row k00 = 0 /\ col k00 = 0 /\ step k00 = -12
        /\ nth_error
             (generateKeys wickiHaydenLayout TuningSystem_default "12-edo"
                           6 8)
             (Z.to_nat (8 + 1)) = Some k11
        /\ row k11 = 1 /\ col k11 = 1 /\ step k11 = -3).
Proof.
  split.
  - apply (proj1 (C3_layout_step_formulas TuningSystem_default "12-edo" 6 8)
                 WickiHayden 1 1); lia.
  - apply (proj2 (proj2 (proj2 (proj2
             (C3_layout_step_formulas TuningSystem_default "12-edo" 6 8)))));
      lia.
Defined.

(** ** Accidentals *)

Lemma prefix_true_iff (t s : string) :
  String.prefix t s = true <-> exists after, s = (t ++ after)%string.
Proof.
  revert t. induction s as [| b s IH]; intros [| a t]; cbn.
  - split; [intros _; now exists ""%string | reflexivity].
  - split; [intros H; discriminate H | intros (after & H); discriminate H].
  - split; [intros _; now exists (String b s) | reflexivity].
  - destruct (ascii_dec a b) as [-> | Hab].
    + rewrite IH. split.
      * intros (after & ->). now exists after.
      * intros (after & H). injection H as ->. now exists after.
    + split; [intros H; discriminate H |].
      intros (after & H). injection H as H _. congruence.
Qed.

(** [includes] decides the occurrence of a substring. *)
Lemma includes_true_iff (s t : string) :
  JS.includes s t = true <-> contains s t.
Proof.
  unfold contains. induction s as [| a s IH]; cbn [JS.includes].
  - destruct (String.prefix t "") eqn:E.
    + apply prefix_true_iff in E. destruct E as (after & E).
      split; [intros _; now exists ""%string, after | reflexivity].
    + split; [discriminate |].
      intros (before & after & H).
      destruct before; [| discriminate].
      assert (String.prefix t "" = true) as E'
        by (apply prefix_true_iff; now exists after).
      congruence.
  - destruct (String.prefix t (String a s)) eqn:E.
    + apply prefix_true_iff in E. destruct E as (after & E).
      split; [intros _; now exists ""%string, after | reflexivity].
    + rewrite IH. split.
      * intros (before & after & ->). now exists (String a before), after.
      * intros (before & after & H).
        destruct before as [| b before].
        -- assert (String.prefix t (String a s) = true) as E'
             by (apply prefix_true_iff; now exists after).
           congruence.
        -- injection H as _ ->. now exists before, after.
Qed.

Lemma sharp_flag_iff (label : string) :
  JS.includes label "#" || JS.includes label "♯" = true
  <-> has_sharp_marker label.
Proof.
  unfold has_sharp_marker.
  now rewrite orb_true_iff, !includes_true_iff.
Qed.

(** C6 as stated fails: on the Wicki-Hayden grid of 6 rows and 8 columns
    under 12-EDO, the key at row 3, column 1 is labelled C#4 and is not
    flagged as an accidental. *)
Lemma C6_wicki_hayden_sharp_not_flagged :
  ~ (forall (l : LayoutId) (tuningSystem : TuningSystem)
            (tuningType : string) (rows cols : Z) (k : KeyDescriptor),
       In k (generateKeys (layout_of l) tuningSystem tuningType rows cols) ->
       (isAccidental k = true <-> has_sharp_marker (noteName k))).
Proof.
  intros H.
  assert (Hin : exists k,
            In k (generateKeys (layout_of WickiHayden) TuningSystem_default
                               "12-edo" 6 8)
            /\ noteName k = "C#4"%string /\ isAccidental k = false).
  { eexists. split.
    - eapply nth_error_In.
      apply (grid_loop_nth 6 8 _ 3 1); lia.
    - cbn [noteName isAccidental]. split; reflexivity. }
  destruct Hin as (k & Hin & Hname & Hflag).
  apply H in Hin. rewrite Hname, Hflag in Hin.
  assert (false = true) as Habs; [| discriminate Habs].
  apply Hin. left. now exists "C"%string, "4"%string.
Qed.

(** C6, amended.  For every tuning, base frequency and grid size, a key of
    the Chromatic or of the Janko layout is flagged as an accidental
    exactly when its label contains a sharp marker; a key of the
    Wicki-Hayden or of the Harmonic Table layout is never flagged. *)
Theorem C6_accidental_flags (tuningSystem : TuningSystem)
    (tuningType : string) (rows cols : Z) (k : KeyDescriptor) :
  (In k (generateKeys chromaticLayout tuningSystem tuningType rows cols)
   \/ In k (generateKeys jankoLayout tuningSystem tuningType rows cols) ->
   (isAccidental k = true <-> has_sharp_marker (noteName k)))
  /\ (In k (generateKeys wickiHaydenLayout tuningSystem tuningType rows cols)
      \/ In k (generateKeys harmonicLayout tuningSystem tuningType rows cols)
      -> isAccidental k = false).
Proof.
  split; intros [Hk | Hk].
  - apply chromatic_In in Hk. destruct Hk as (i & _ & ->).
    cbn [isAccidental noteName chromatic_key]. apply sharp_flag_iff.
  - apply grid_loop_In in Hk. destruct Hk as (r & c & _ & _ & ->).
    cbn [isAccidental noteName]. apply sharp_flag_iff.
  - apply grid_loop_In in Hk. now destruct Hk as (r & c & _ & _ & ->).
  - apply grid_loop_In in Hk. now destruct Hk as (r & c & _ & _ & ->).
Qed.

(** The chromatic key at index 13 of the 4 by 12 grid, labelled C#4. *)
Lemma C6_accidental_flags_witness :
  isAccidental (chromatic_key TuningSystem_default "12-edo" 12 13) = true
  <-> has_sharp_marker
        (noteName (chromatic_key TuningSystem_default "12-edo" 12 13)).
Proof.
  apply (proj1 (C6_accidental_flags TuningSystem_default "12-edo" 4 12
                  (chromatic_key TuningSystem_default "12-edo" 12 13))).
  left. eapply nth_error_In.
  apply (chromatic_nth TuningSystem_default "12-edo" 4 12 13). lia.
Defined.

(** ** Quarter-tone labels *)

(** C7.  The 24-EDO branch reads the note table at [step % 24], which is
    negative for a negative step, and at [ceil (23 / 2) = 12] for the last
    odd sub-step: the first key of every layout (step -12) is labelled
    undefined3, step -11 is labelled with two undefined names, and step 23
    has no upper neighbour. *)
Theorem C7_quarter_tone_labels_off_table :
  getNoteNameFromStep (-12) "24-edo" = "undefined3"%string
  /\ getNoteNameFromStep (-11) "24-edo" = "undefined♯/♭undefined3"%string
  /\ getNoteNameFromStep 23 "24-edo" = "B♯/♭undefined4"%string
  /\ (forall tuningSystem : TuningSystem,
        option_map noteName
          (nth_error (generateKeys chromaticLayout tuningSystem "24-edo" 4 12)
                     0)
        = Some "undefined3"%string).
Proof.
  split; [reflexivity | split; [reflexivity | split; [reflexivity |]]].
  intros tuningSystem.
  change 0%nat with (Z.to_nat 0).
  now rewrite (chromatic_nth tuningSystem "24-edo" 4 12 0) by lia.
Qed.

(** Inside one octave above the reference, except for its last sub-step,
    the 24-EDO labels are as described: a chromatic name and the octave for
    an even sub-step, the two neighbouring names around the sharp and flat
    signs for an odd one. *)
Lemma quarter_tone_labels_first_octave (step : Z) :
  0 <= step < 23 ->
  exists lower upper : string,
    nth_error noteNames (Z.to_nat (step / 2)) = Some lower
    /\ nth_error noteNames (Z.to_nat ((step + 1) / 2)) = Some upper
    /\ getNoteNameFromStep step "24-edo"
       = if Z.even step then (lower ++ "4")%string
         else (lower ++ "♯/♭" ++ upper ++ "4")%string.
Proof.
  intros H.
  assert (Hcases : In step (zrange 0 23)) by (apply zrange_In; lia).
  cbv [zrange seq map Z.add Z.of_nat Pos.of_succ_nat Pos.succ] in Hcases.
  cbn [In] in Hcases.
  repeat (destruct Hcases as [<- | Hcases];
          [do 2 eexists; repeat split; reflexivity |]).
  contradiction.
Qed.

(** ** Unknown identifiers *)

(** A layout name that is neither in the registry nor a property of
    [Object.prototype] gives the chromatic layout. *)
Lemma getLayout_default (layoutName : string) :
  recognized layoutName = false ->
  existsb (String.eqb layoutName) Object_prototype = false ->
  getLayout layoutName = LayoutObject chromaticLayout.
Proof.
  unfold recognized, getLayout, get_property, LAYOUTS.
  cbn [map fst existsb].
  intros H Hp. rewrite Hp.
  repeat (apply orb_false_elim in H; destruct H as [E H];
          rewrite String.eqb_sym in E; cbn [own_property]; rewrite E;
          clear E).
  reflexivity.
Qed.

Lemma getLayout_recognized :
  getLayout "chromatic" = LayoutObject chromaticLayout
  /\ getLayout "wicki-hayden" = LayoutObject wickiHaydenLayout
  /\ getLayout "harmonic" = LayoutObject harmonicLayout
  /\ getLayout "janko" = LayoutObject jankoLayout.
Proof. repeat split. Qed.

(** C9.  An unrecognised tuning identifier is tuned as 12-EDO, and an
    unrecognised layout name that [Object.prototype] does not define gives
    the chromatic layout; but the names that every object inherits are
    found on the registry, so for them [getLayout] returns the inherited
    member instead of the chromatic layout. *)
Theorem C9_unknown_identifiers :
  (forall (this : TuningSystem) (step : Z),
     getFrequency this "19-edo" step = getFrequency this "12-edo" step)
  /\ getLayout "hexagonal" = LayoutObject chromaticLayout
  /\ recognized "constructor" = false
  /\ getLayout "constructor" = Inherited "constructor"
  /\ getLayout "constructor" <> LayoutObject chromaticLayout
  /\ getLayout "toString" = Inherited "toString".
Proof.
  split; [intros this step; now apply getFrequency_default |].
  split; [now apply getLayout_default |].
  repeat split. discriminate.
Qed.

(** ** Voice manager *)

Module JSMapFacts.

Section Facts.

Context {V : Type}.
Implicit Types (m : JSMap.t V) (k : string) (v : V).

Lemma get_delete m k : JSMap.get (JSMap.delete m k) k = None.
Proof.
  induction m as [| [k' v'] m IH]; cbn; [reflexivity |].
  destruct (String.eqb k' k) eqn:E; [exact IH |].
  cbn. now rewrite E.
Qed.

Lemma get_set m k v : JSMap.get (JSMap.set m k v) k = Some v.
Proof.
  induction m as [| [k' v'] m IH]; cbn.
  - now rewrite String.eqb_refl.
  - destruct (String.eqb k' k) eqn:E; cbn.
    + now rewrite String.eqb_refl.
    + now rewrite E.
Qed.

Lemma keys_delete m k k' :
  In k' (JSMap.keys (JSMap.delete m k)) -> In k' (JSMap.keys m).
Proof.
  induction m as [| [k0 v0] m IH]; cbn; [tauto |].
  destruct (String.eqb k0 k); cbn; intuition.
Qed.

Lemma keys_set m k v k' :
  In k' (JSMap.keys (JSMap.set m k v)) -> k' = k \/ In k' (JSMap.keys m).
Proof.
  induction m as [| [k0 v0] m IH]; cbn.
  - intuition.
  - destruct (String.eqb k0 k) eqn:E; cbn.
    + intuition.
    + intuition.
Qed.

Lemma NoDup_delete m k :
  NoDup (JSMap.keys m) -> NoDup (JSMap.keys (JSMap.delete m k)).
Proof.
  induction m as [| [k0 v0] m IH]; cbn; [trivial |].
  intros H. inversion H as [| ? ? Hnot Hm]; subst.
  destruct (String.eqb k0 k); [now apply IH |].
  cbn. constructor; [| now apply IH].
  intros Hin. apply Hnot. eapply keys_delete. exact Hin.
Qed.

Lemma NoDup_set m k v :
  NoDup (JSMap.keys m) -> NoDup (JSMap.keys (JSMap.set m k v)).
Proof.
  induction m as [| [k0 v0] m IH]; cbn.
  - intros _. constructor; [intros [] | constructor].
  - intros H. inversion H as [| ? ? Hnot Hm]; subst.
    destruct (String.eqb_spec k0 k) as [-> | Hne]; cbn.
    + now constructor.
    + constructor; [| now apply IH].
      intros Hin. apply keys_set in Hin.
      destruct Hin as [Heq | Hin]; [congruence | now apply Hnot].
Qed.

Lemma count_absent m k :
  ~ In k (JSMap.keys m) -> JSMap.count m k = 0%nat.
Proof.
  unfold JSMap.count.
  induction m as [| [k0 v0] m IH]; cbn; [reflexivity |].
  intros Hnot. destruct (String.eqb_spec k0 k) as [-> | Hne].
  - exfalso. apply Hnot. now left.
  - apply IH. intros Hin. apply Hnot. now right.
Qed.

(** Distinct keys: no identifier has two entries. *)
Lemma count_le_1 m k :
  NoDup (JSMap.keys m) -> (JSMap.count m k <= 1)%nat.
Proof.
  unfold JSMap.count.
  induction m as [| [k0 v0] m IH]; cbn; [lia |].
  intros H. inversion H as [| ? ? Hnot Hm]; subst.
  destruct (String.eqb_spec k0 k) as [-> | Hne]; [| now apply IH].
  cbn. pose proof (count_absent m k Hnot) as H0.
  unfold JSMap.count in H0. lia.
Qed.

End Facts.

End JSMapFacts.

Section Preservation.

Variable P : AudioEngine -> Prop.

Lemma preserves_ret {A : Type} (a : A) : preserves P (ret a).
Proof. intros b s H. exact H. Qed.

Lemma preserves_throw {A : Type} (e : Error) : preserves P (@throw A e).
Proof. intros b s H. exact H. Qed.

Lemma preserves_gets {A : Type} (f : AudioEngine -> A) :
  preserves P (gets f).
Proof. intros b s H. exact H. Qed.

Lemma preserves_ask {A : Type} (f : Browser -> A) : preserves P (ask f).
Proof. intros b s H. exact H. Qed.

Lemma preserves_bind {A B : Type} (m : M A) (f : A -> M B) :
  preserves P m -> (forall a, preserves P (f a)) -> preserves P (bind m f).
Proof.
  intros Hm Hf b s H. unfold bind.
  specialize (Hm b s H).
  destruct (m b s) as [[a | e] s']; cbn in *.
  - now apply Hf.
  - exact Hm.
Qed.

Lemma preserves_try_catch (m : M unit) (handler : Error -> M unit) :
  preserves P m -> (forall e, preserves P (handler e)) ->
  preserves P (try_catch m handler).
Proof.
  intros Hm Hh b s H. unfold try_catch.
  specialize (Hm b s H).
  destruct (m b s) as [[a | e] s']; cbn in *.
  - exact Hm.
  - now apply Hh.
Qed.

Lemma preserves_modify (f : AudioEngine -> AudioEngine) :
  (forall s, P s -> P (f s)) -> preserves P (modify f).
Proof. intros Hf b s H. now apply Hf. Qed.

Hypothesis P_sink : forall c s, P s -> P (add_sinkCall c s).
Hypothesis P_console : forall e s, P s -> P (add_console e s).

Lemma preserves_sink (c : SinkCall) : preserves P (sink c).
Proof.
  intros b s H. unfold sink.
  destruct (throws b c); cbn; [exact H | now apply P_sink].
Qed.

Lemma preserves_sink_async (c : SinkCall) : preserves P (sink_async c).
Proof. apply preserves_modify. intros s. apply P_sink. Qed.

Lemma preserves_log (e : LogEntry) : preserves P (log e).
Proof. apply preserves_modify. intros s. apply P_console. Qed.

End Preservation.

(** *** At most one voice per note identifier *)

Lemma one_voice_sink (c : SinkCall) (s : AudioEngine) :
  one_voice_per_note s -> one_voice_per_note (add_sinkCall c s).
Proof. trivial. Qed.

Lemma one_voice_console (e : LogEntry) (s : AudioEngine) :
  one_voice_per_note s -> one_voice_per_note (add_console e s).
Proof. trivial. Qed.

Lemma one_voice_delete (noteId : string) (s : AudioEngine) :
  one_voice_per_note s ->
  one_voice_per_note
    (set_activeOscillators (JSMap.delete (activeOscillators s) noteId) s).
Proof. apply JSMapFacts.NoDup_delete. Qed.

Lemma one_voice_set (noteId : string) (data : VoiceData) (s : AudioEngine) :
  one_voice_per_note s ->
  one_voice_per_note
    (set_activeOscillators (JSMap.set (activeOscillators s) noteId data) s).
Proof. apply JSMapFacts.NoDup_set. Qed.

(** Takes engine code apart down to its sink calls and field updates. *)
Ltac keeps_one_voice :=
  repeat first
    [ apply preserves_ret
    | apply preserves_throw
    | apply preserves_gets
    | apply preserves_ask
    | apply (preserves_sink _ one_voice_sink)
    | apply (preserves_sink_async _ one_voice_sink)
    | apply (preserves_log _ one_voice_console)
    | apply preserves_modify; intros ? ?;
      first [ assumption | now apply one_voice_delete
            | now apply one_voice_set ]
    | apply preserves_bind; [| intros ?]
    | apply preserves_try_catch; [| intros ?]
    | match goal with
      | |- preserves _ (match ?x with _ => _ end) => destruct x
      end ].

Lemma initialize_one_voice : preserves one_voice_per_note initialize.
Proof. unfold initialize. keeps_one_voice. Qed.

Lemma setVolume_one_voice (value : R) :
  preserves one_voice_per_note (setVolume value).
Proof. unfold setVolume. keeps_one_voice. Qed.

Lemma forEach_one_voice {V : Type} (f : V -> string -> M unit)
    (entries : list (string * V)) :
  (forall v k, preserves one_voice_per_note (f v k)) ->
  preserves one_voice_per_note (forEach entries f).
Proof.
  intros Hf. induction entries as [| [k v] rest IH]; cbn [forEach].
  - apply preserves_ret.
  - apply preserves_bind; [apply Hf | intros _; exact IH].
Qed.

Lemma setWaveform_one_voice (w : string) :
  preserves one_voice_per_note (setWaveform w).
Proof.
  unfold setWaveform.
  apply preserves_bind; [keeps_one_voice | intros _].
  apply preserves_bind; [keeps_one_voice | intros voices].
  apply forEach_one_voice. intros v k. keeps_one_voice.
Qed.

Lemma stopNote_one_voice (noteId : string) :
  preserves one_voice_per_note (stopNote noteId).
Proof. unfold stopNote. keeps_one_voice. Qed.

Lemma createVoice_one_voice (ctx : Handle) (noteId : string)
    (frequency : option R) :
  preserves one_voice_per_note (createVoice ctx noteId frequency).
Proof. unfold createVoice. keeps_one_voice. Qed.

Lemma playNote_one_voice (noteId : string) (frequency : option R) :
  preserves one_voice_per_note (playNote noteId frequency).
Proof.
  unfold playNote.
  apply preserves_bind; [keeps_one_voice | intros init].
  apply preserves_bind;
    [destruct (negb init); [apply initialize_one_voice | keeps_one_voice] |
     intros _].
  apply preserves_bind; [keeps_one_voice | intros [ctx |]];
    [| keeps_one_voice].
  apply preserves_bind; [keeps_one_voice | intros susp].
  apply preserves_bind; [destruct susp; keeps_one_voice | intros _].
  apply preserves_bind; [apply stopNote_one_voice | intros _].
  apply preserves_try_catch; [apply createVoice_one_voice | intros e].
  keeps_one_voice.
Qed.

Lemma stopAll_loop_one_voice (pending : list string) :
  preserves one_voice_per_note (stopAll_loop pending).
Proof.
  induction pending as [| noteId rest IH]; cbn [stopAll_loop].
  - apply preserves_ret.
  - apply preserves_bind; [keeps_one_voice | intros voices].
    destruct (JSMap.get voices noteId); [| exact IH].
    apply preserves_bind; [apply stopNote_one_voice | intros _; exact IH].
Qed.

Lemma stopAllNotes_one_voice : preserves one_voice_per_note stopAllNotes.
Proof.
  unfold stopAllNotes.
  apply preserves_bind; [keeps_one_voice | intros voices].
  apply stopAll_loop_one_voice.
Qed.

Lemma run_op_one_voice (op : Op) : preserves one_voice_per_note (run_op op).
Proof.
  destruct op; cbn [run_op].
  - apply initialize_one_voice.
  - apply setVolume_one_voice.
  - apply setWaveform_one_voice.
  - apply playNote_one_voice.
  - apply stopNote_one_voice.
  - apply stopAllNotes_one_voice.
Qed.

Lemma run_one_voice (ops : list (Op * Browser)) :
  forall s : AudioEngine,
    one_voice_per_note s -> one_voice_per_note (run ops s).
Proof.
  induction ops as [| [op b] rest IH]; intros s H; cbn [run].
  - exact H.
  - apply IH. now apply run_op_one_voice.
Qed.

Lemma new_engine_one_voice : one_voice_per_note AudioEngine_new.
Proof. constructor. Qed.

(** *** Running engine code on given inputs *)

(** Unfolds the engine code in the goal and runs it as far as the known
    answers [H] of the browser allow. *)
Ltac run_engine :=
  unfold playNote, initialize, createVoice, stopNote, bind, try_catch,
    gets, ask, sink, sink_async, log, modify, throw, ret;
  cbn -[Rplus Rdiv IZR].

Ltac run_engine_with H :=
  run_engine;
  repeat (progress (rewrite ?H; cbn -[Rplus Rdiv IZR])).

Lemma playNote_unfold (noteId : string) (frequency : option R) :
  playNote noteId frequency
  = (init <- gets initialized ;;
     (if negb init then initialize else ret tt) ;;
     ctx <- gets audioContext ;;
     match ctx with
     | None => throw (TypeError "Cannot read properties of null")
     | Some ctx => playNote_with_context ctx noteId frequency
     end).
Proof. reflexivity. Qed.

Lemma stopNote_absent (noteId : string) (b : Browser) (s : AudioEngine) :
  JSMap.get (activeOscillators s) noteId = None ->
  stopNote noteId b s = (Normal tt, s).
Proof. intros H. run_engine. now rewrite H. Qed.

(** Releasing a voice: four calls reach the sink, the last one stops the
    oscillator, and the entry leaves the map. *)
Lemma stopNote_releases (noteId : string) (b : Browser) (s : AudioEngine)
    (old : VoiceData) (ctx : Handle) :
  JSMap.get (activeOscillators s) noteId = Some old ->
  audioContext s = Some ctx ->
  releases b old ->
  exists s' : AudioEngine,
    stopNote noteId b s = (Normal tt, s')
    /\ activeOscillators s' = JSMap.delete (activeOscillators s) noteId
    /\ sinkCalls s'
       = sinkCalls s
         ++ [ GainCancelScheduledValues (gainNode old) (currentTime b);
              GainSetValueAtTime (gainNode old) (gainValue b (gainNode old))
                                 (currentTime b);
              GainLinearRampToValueAtTime (gainNode old) 0
                                          (currentTime b + 1 / 10)%R;
              Stop (oscillator old) (currentTime b + 1 / 10)%R ]
    /\ audioContext s' = audioContext s
    /\ masterGain s' = masterGain s
    /\ initialized s' = initialized s
    /\ console s' = console s.
Proof.
  intros Hget Hctx (H1 & H2 & H3 & H4).
  run_engine. rewrite Hget. cbn -[Rplus Rdiv IZR].
  rewrite Hctx. cbn -[Rplus Rdiv IZR].
  rewrite H1. cbn -[Rplus Rdiv IZR].
  rewrite H2. cbn -[Rplus Rdiv IZR].
  rewrite H3. cbn -[Rplus Rdiv IZR].
  rewrite H4. cbn -[Rplus Rdiv IZR].
  eexists. split; [reflexivity |].
  cbn -[Rplus Rdiv IZR]. rewrite <- !app_assoc. cbn [app].
  repeat split; assumption.
Qed.

Lemma working_releases (b : Browser) (data : VoiceData) :
  working b -> releases b data.
Proof. intros H. repeat split; apply H. Qed.

Lemma initialize_working (b : Browser) (s : AudioEngine) :
  working b -> initialized s = false ->
  exists (s' : AudioEngine) (extra : list SinkCall),
    initialize b s = (Normal tt, s')
    /\ initialized s' = true
    /\ audioContext s' = Some (List.length (sinkCalls s))
    /\ masterGain s' = Some (S (List.length (sinkCalls s)))
    /\ activeOscillators s' = activeOscillators s
    /\ sinkCalls s' = sinkCalls s ++ extra.
Proof.
  intros Hb Hinit.
  run_engine. rewrite Hinit. run_engine_with Hb.
  do 2 eexists. split; [reflexivity |].
  cbn -[Rplus Rdiv IZR]. rewrite !length_app. cbn [List.length].
  rewrite <- !app_assoc. cbn [app].
  repeat split. do 2 f_equal. lia.
Qed.

(** Creating a voice in a browser where the sink works: the oscillator and
    its gain stage are the next two handles, and the voice is entered under
    the note identifier. *)
Lemma createVoice_working (ctx : Handle) (noteId : string)
    (frequency : option R) (b : Browser) (s : AudioEngine) (m : Handle) :
  working b -> masterGain s = Some m ->
  exists (s' : AudioEngine) (extra : list SinkCall),
    createVoice ctx noteId frequency b s = (Normal tt, s')
    /\ activeOscillators s'
       = JSMap.set (activeOscillators s) noteId
           (mkVoice (List.length (sinkCalls s))
                    (S (List.length (sinkCalls s))) frequency)
    /\ sinkCalls s' = sinkCalls s ++ CreateOscillator ctx :: extra
    /\ audioContext s' = audioContext s
    /\ masterGain s' = masterGain s
    /\ initialized s' = initialized s.
Proof.
  intros Hb Hm.
  run_engine_with Hb. rewrite Hm. run_engine_with Hb.
  do 2 eexists. split; [reflexivity |].
  cbn -[Rplus Rdiv IZR]. rewrite !length_app. cbn [List.length].
  rewrite <- !app_assoc. cbn [app].
  repeat split; try assumption. do 3 f_equal. lia.
Qed.

(** A voice creation that throws leaves the map of voices as it was. *)
Lemma createVoice_throws (ctx : Handle) (noteId : string)
    (frequency : option R) (b : Browser) (s : AudioEngine) (e : Error) :
  fst (createVoice ctx noteId frequency b s) = Throw e ->
  activeOscillators (snd (createVoice ctx noteId frequency b s))
  = activeOscillators s
  /\ console (snd (createVoice ctx noteId frequency b s)) = console s
  /\ exists extra : list SinkCall,
       sinkCalls (snd (createVoice ctx noteId frequency b s))
       = sinkCalls s ++ extra.
Proof.
  run_engine.
  repeat (match goal with
          | |- context [throws ?b' ?c] => destruct (throws b' c)
          | |- context [masterGain s] => destruct (masterGain s)
          end; cbn -[Rplus Rdiv IZR]);
    intros H; try discriminate H;
    (split; [reflexivity | split; [reflexivity |]]);
    rewrite <- ?app_assoc; eexists; try reflexivity.
  symmetry. apply app_nil_r.
Qed.

Lemma delete_absent {V : Type} (m : JSMap.t V) (k : string) :
  JSMap.get m k = None -> JSMap.delete m k = m.
Proof.
  induction m as [| [k' v'] m IH]; cbn; [reflexivity |].
  destruct (String.eqb k' k); [discriminate |].
  intros H. now rewrite IH.
Qed.

(** [stopNote] in a browser where the sink works. *)
Lemma stopNote_working (noteId : string) (b : Browser) (s : AudioEngine)
    (ctx : Handle) :
  working b -> audioContext s = Some ctx ->
  exists (s' : AudioEngine) (extra : list SinkCall),
    stopNote noteId b s = (Normal tt, s')
    /\ activeOscillators s' = JSMap.delete (activeOscillators s) noteId
    /\ sinkCalls s' = sinkCalls s ++ extra
    /\ (forall old : VoiceData,
          JSMap.get (activeOscillators s) noteId = Some old ->
          In (Stop (oscillator old) (currentTime b + 1 / 10)%R) extra)
    /\ audioContext s' = audioContext s
    /\ masterGain s' = masterGain s
    /\ initialized s' = initialized s.
Proof.
  intros Hb Hctx.
  destruct (JSMap.get (activeOscillators s) noteId) as [old |] eqn:Hget.
  - destruct (stopNote_releases noteId b s old ctx Hget Hctx
                (working_releases b old Hb))
      as (s' & Hrun & Hmap & Hcalls & Hc & Hm & Hi & _).
    exists s'. eexists. repeat split; try eassumption.
    intros old' Hold. injection Hold as <-. cbn. tauto.
  - exists s, []. rewrite stopNote_absent by assumption.
    rewrite delete_absent by assumption. rewrite app_nil_r.
    repeat split. intros old Hold. discriminate Hold.
Qed.

(** [playNote] on an engine that holds its context and master gain, in a
    browser where the sink works: the voice of the note is replaced by a
    new one on a new oscillator, after the old oscillator, if any, was told
    to stop. *)
Lemma playNote_with_context_working (ctx : Handle) (noteId : string)
    (frequency : option R) (b : Browser) (s : AudioEngine)
    (ctx' m : Handle) :
  working b -> audioContext s = Some ctx' -> masterGain s = Some m ->
  exists (s' : AudioEngine) (v : VoiceData) (extra : list SinkCall),
    playNote_with_context ctx noteId frequency b s = (Normal tt, s')
    /\ activeOscillators s'
       = JSMap.set (JSMap.delete (activeOscillators s) noteId) noteId v
    /\ voiceFrequency v = frequency
    /\ sinkCalls s' = sinkCalls s ++ extra
    /\ (List.length (sinkCalls s) <= oscillator v
        < List.length (sinkCalls s'))%nat
    /\ (forall old : VoiceData,
          JSMap.get (activeOscillators s) noteId = Some old ->
          In (Stop (oscillator old) (currentTime b + 1 / 10)%R) extra)
    /\ audioContext s' = audioContext s
    /\ masterGain s' = masterGain s
    /\ initialized s' = initialized s.
Proof.
  intros Hb Hctx Hm.
  set (s0 := if suspended b then add_sinkCall (Resume ctx) s else s).
  assert (Hs0 : activeOscillators s0 = activeOscillators s
                /\ audioContext s0 = audioContext s
                /\ masterGain s0 = masterGain s
                /\ initialized s0 = initialized s
                /\ exists pre, sinkCalls s0 = sinkCalls s ++ pre).
  { unfold s0. destruct (suspended b); cbn.
    - repeat split. now eexists.
    - repeat split. exists []. now rewrite app_nil_r. }
  destruct Hs0 as (Hv0 & Hc0 & Hm0 & Hi0 & pre & Hcalls0).
  destruct (stopNote_working noteId b s0 ctx' Hb)
    as (s1 & mid & Hrun1 & Hv1 & Hcalls1 & Hstop & Hc1 & Hm1 & Hi1);
    [congruence |].
  destruct (createVoice_working ctx noteId frequency b s1 m Hb)
    as (s2 & post & Hrun2 & Hv2 & Hcalls2 & Hc2 & Hm2 & Hi2);
    [congruence |].
  exists s2. eexists. exists (pre ++ mid ++ CreateOscillator ctx :: post).
  split.
  - unfold playNote_with_context, bind, ask, try_catch.
    replace ((if suspended b then sink_async (Resume ctx) else ret tt) b s)
      with (Normal tt, s0)
      by (unfold s0; now destruct (suspended b)).
    now rewrite Hrun1, Hrun2.
  - rewrite Hv2, Hv1, Hv0, Hcalls2, Hcalls1, Hcalls0.
    rewrite <- !app_assoc. cbn [oscillator voiceFrequency].
    repeat split; try congruence.
    + rewrite !length_app. cbn [oscillator]. lia.
    + rewrite !length_app. cbn [oscillator List.length]. lia.
    + intros old Hold. apply in_or_app. right. apply in_or_app. left.
      apply Hstop. now rewrite Hv0.
Qed.

Lemma new_engine_has_sink : initialized_has_sink AudioEngine_new.
Proof. intros H. discriminate H. Qed.

(** [playNote] in a browser where the sink works, the engine being new or
    initialised. *)
Lemma playNote_working (noteId : string) (frequency : option R)
    (b : Browser) (s : AudioEngine) :
  working b -> initialized_has_sink s ->
  exists (s' : AudioEngine) (v : VoiceData) (extra : list SinkCall),
    playNote noteId frequency b s = (Normal tt, s')
    /\ activeOscillators s'
       = JSMap.set (JSMap.delete (activeOscillators s) noteId) noteId v
    /\ voiceFrequency v = frequency
    /\ sinkCalls s' = sinkCalls s ++ extra
    /\ (List.length (sinkCalls s) <= oscillator v
        < List.length (sinkCalls s'))%nat
    /\ (forall old : VoiceData,
          JSMap.get (activeOscillators s) noteId = Some old ->
          In (Stop (oscillator old) (currentTime b + 1 / 10)%R) extra)
    /\ initialized_has_sink s'.
Proof.
  intros Hb Hinv. rewrite playNote_unfold.
  destruct (initialized s) eqn:Hinit.
  - destruct (Hinv Hinit) as (ctx & m & Hctx & Hm).
    destruct (playNote_with_context_working ctx noteId frequency b s ctx m
                Hb Hctx Hm)
      as (s' & v & extra & Hrun & Hv & Hf & Hcalls & Hosc & Hstop
          & Hc' & Hm' & Hi').
    exists s', v, extra. split.
    + unfold bind at 1. unfold gets at 1. rewrite Hinit. cbn [negb].
      unfold bind at 1. unfold ret at 1.
      unfold bind at 1. unfold gets at 1. now rewrite Hctx.
    + repeat split; try assumption; try lia.
      intros _. exists ctx, m. split; congruence.
  - destruct (initialize_working b s Hb Hinit)
      as (s0 & pre & Hrun0 & Hi0 & Hc0 & Hm0 & Hv0 & Hcalls0).
    destruct (playNote_with_context_working
                (List.length (sinkCalls s)) noteId frequency b s0 _ _
                Hb Hc0 Hm0)
      as (s' & v & extra & Hrun & Hv & Hf & Hcalls & Hosc & Hstop
          & Hc' & Hm' & Hi').
    exists s', v, (pre ++ extra). split.
    + unfold bind at 1. unfold gets at 1. rewrite Hinit. cbn [negb].
      unfold bind at 1. rewrite Hrun0.
      unfold bind at 1. unfold gets at 1. now rewrite Hc0.
    + rewrite Hv0 in *. rewrite Hcalls0 in *.
      rewrite length_app in Hosc.
      repeat split; try assumption; try lia.
      * now rewrite app_assoc.
      * intros old Hold. apply in_or_app. right. now apply Hstop.
      * intros _. do 2 eexists. split; [rewrite Hc' | rewrite Hm'];
          eassumption.
Qed.

(** C4. Whatever calls are made on a new engine, in whatever browser, its
    map of voices never holds two entries for one note identifier; and
    where the sink works, [playNote ('a', 440)] followed by
    [playNote ('a', 466)] leaves exactly one voice for 'a', of frequency
    466, on a new oscillator, the first oscillator having been told to
    stop. *)
Theorem C4_one_voice_per_note :
  (forall (ops : list (Op * Browser)) (noteId : string),
     (JSMap.count (activeOscillators (run ops AudioEngine_new)) noteId
      <= 1)%nat)
  /\ (forall b1 b2 : Browser,
        working b1 -> working b2 ->
        let s1 := run [(OpPlayNote "a" (Some 440%R), b1)] AudioEngine_new in
        let s2 := run [(OpPlayNote "a" (Some 466%R), b2)] s1 in
        exists v1 v2 : VoiceData,
          activeOscillators s1 = [("a"%string, v1)]
          /\ voiceFrequency v1 = Some 440%R
          /\ activeOscillators s2 = [("a"%string, v2)]
          /\ voiceFrequency v2 = Some 466%R
          /\ JSMap.count (activeOscillators s2) "a" = 1%nat
          /\ getActiveNotes s2 = [("a"%string, Some 466%R)]
          /\ oscillator v2 <> oscillator v1
          /\ In (Stop (oscillator v1) (currentTime b2 + 1 / 10)%R)
                (sinkCalls s2)).
Proof.
  split.
  - intros ops noteId. apply JSMapFacts.count_le_1.
    apply run_one_voice, new_engine_one_voice.
  - intros b1 b2 H1 H2. cbn [run run_op].
    destruct (playNote_working "a" (Some 440%R) b1 AudioEngine_new H1
                new_engine_has_sink)
      as (s1 & v1 & extra1 & Hrun1 & Hv1 & Hf1 & Hcalls1 & Hosc1 & _
          & Hinv1).
    rewrite Hrun1. cbn [snd].
    destruct (playNote_working "a" (Some 466%R) b2 s1 H2 Hinv1)
      as (s2 & v2 & extra2 & Hrun2 & Hv2 & Hf2 & Hcalls2 & Hosc2 & Hstop2
          & _).
    rewrite Hrun2. cbn [snd].
    change (activeOscillators AudioEngine_new) with (@nil (string * VoiceData))
      in Hv1.
    cbn in Hv1. rewrite Hv1 in Hv2, Hstop2. cbn in Hv2.
    exists v1, v2. unfold getActiveNotes. rewrite Hv2, Hcalls2.
    cbn [map fst snd]. rewrite Hf2.
    repeat split; try assumption; try reflexivity.
    + lia.
    + apply in_or_app. right. apply Hstop2. reflexivity.
Qed.

(** Two presses of the same key in a browser where the sink works. *)
Lemma C4_one_voice_per_note_witness :
  let s1 :=
    run [(OpPlayNote "a" (Some 440%R), audio_ok 0)] AudioEngine_new in
  let s2 := run [(OpPlayNote "a" (Some 466%R), audio_ok 1)] s1 in
  exists v1 v2 : VoiceData,
    activeOscillators s1 = [("a"%string, v1)]
    /\ voiceFrequency v1 = Some 440%R
    /\ activeOscillators s2 = [("a"%string, v2)]
    /\ voiceFrequency v2 = Some 466%R
    /\ JSMap.count (activeOscillators s2) "a" = 1%nat
    /\ getActiveNotes s2 = [("a"%string, Some 466%R)]
    /\ oscillator v2 <> oscillator v1
    /\ In (Stop (oscillator v1) (currentTime (audio_ok 1) + 1 / 10)%R)
          (sinkCalls s2).
Proof.
  apply (proj2 C4_one_voice_per_note (audio_ok 0) (audio_ok 1));
    intros c; reflexivity.
Defined.

(** *** Failures *)

(** C5.  When the context cannot be constructed during the lazy
    initialisation, [initialize] logs the failure and returns, and
    [playNote] then reads the state of the missing context: the call
    throws a [TypeError] instead of returning.  No voice is registered. *)
Theorem C5_playNote_throws_without_context (noteId : string)
    (frequency : option R) (b : Browser) (s : AudioEngine) :
  initialized s = false ->
  audioContext s = None ->
  throws b NewAudioContext = true ->
  fst (playNote noteId frequency b s)
  = Throw (TypeError "Cannot read properties of null")
  /\ activeOscillators (snd (playNote noteId frequency b s))
     = activeOscillators s
  /\ console (snd (playNote noteId frequency b s))
     = console s
       ++ [console_error "Failed to initialize audio:"
                         (SinkError NewAudioContext)].
Proof.
  intros Hinit Hctx Hthrows.
  run_engine.
  repeat (progress (rewrite ?Hinit, ?Hthrows, ?Hctx; cbn -[Rplus Rdiv IZR])).
  repeat split.
Qed.

(** A first key press in a browser without Web Audio. *)
Lemma C5_playNote_throws_without_context_witness :
  fst (playNote "a" (Some 440%R) no_audio AudioEngine_new)
  = Throw (TypeError "Cannot read properties of null")
  /\ activeOscillators (snd (playNote "a" (Some 440%R) no_audio
                                      AudioEngine_new))
     = activeOscillators AudioEngine_new
  /\ console (snd (playNote "a" (Some 440%R) no_audio AudioEngine_new))
     = console AudioEngine_new
       ++ [console_error "Failed to initialize audio:"
                         (SinkError NewAudioContext)].
Proof.
  apply (C5_playNote_throws_without_context "a" (Some 440%R) no_audio
           AudioEngine_new); reflexivity.
Defined.

(** C10. [playNote] on a note that has a voice releases and removes that
    voice before it tries to create the new one: when the creation then
    throws, the call returns normally, the failure is logged, the old
    oscillator has been told to stop, and the note has no voice. *)
Theorem C10_playNote_not_atomic (noteId : string) (frequency : option R)
    (b : Browser) (s : AudioEngine) (ctx : Handle) (old : VoiceData)
    (e : Error) :
  initialized s = true ->
  audioContext s = Some ctx ->
  JSMap.get (activeOscillators s) noteId = Some old ->
  releases b old ->
  fst (createVoice ctx noteId frequency b (before_creation ctx noteId b s))
  = Throw e ->
  fst (playNote noteId frequency b s) = Normal tt
  /\ JSMap.get (activeOscillators (snd (playNote noteId frequency b s)))
               noteId = None
  /\ In (Stop (oscillator old) (currentTime b + 1 / 10)%R)
        (sinkCalls (snd (playNote noteId frequency b s)))
  /\ console (snd (playNote noteId frequency b s))
     = console s ++ [console_error "Failed to play note:" e].
Proof.
  intros Hinit Hctx Hget Hrel Hthrow.
  set (s0 := if suspended b then add_sinkCall (Resume ctx) s else s).
  assert (Hs0 : activeOscillators s0 = activeOscillators s
                /\ audioContext s0 = audioContext s
                /\ console s0 = console s)
    by (unfold s0; now destruct (suspended b)).
  destruct Hs0 as (Hv0 & Hc0 & Hl0).
  destruct (stopNote_releases noteId b s0 old ctx)
    as (s1 & Hrun1 & Hv1 & Hcalls1 & _ & _ & _ & Hl1);
    try congruence.
  assert (Hbefore : before_creation ctx noteId b s = s1)
    by (unfold before_creation; fold s0; now rewrite Hrun1).
  rewrite Hbefore in Hthrow.
  destruct (createVoice_throws ctx noteId frequency b s1 e Hthrow)
    as (Hv2 & Hl2 & extra & Hcalls2).
  assert (Hrun : playNote noteId frequency b s
                 = (Normal tt,
                    add_console (console_error "Failed to play note:" e)
                      (snd (createVoice ctx noteId frequency b s1)))).
  { rewrite playNote_unfold.
    unfold bind at 1. unfold gets at 1. rewrite Hinit. cbn [negb].
    unfold bind at 1. unfold ret at 1.
    unfold bind at 1. unfold gets at 1. rewrite Hctx.
    unfold playNote_with_context, bind, ask, try_catch.
    replace ((if suspended b then sink_async (Resume ctx) else ret tt) b s)
      with (Normal tt, s0)
      by (unfold s0; now destruct (suspended b)).
    rewrite Hrun1.
    destruct (createVoice ctx noteId frequency b s1) as [[[] | e'] s2];
      cbn [fst snd] in *; [discriminate Hthrow |].
    injection Hthrow as ->. reflexivity. }
  rewrite Hrun. cbn [fst snd].
  change (activeOscillators (add_console ?l ?x)) with (activeOscillators x).
  change (sinkCalls (add_console ?l ?x)) with (sinkCalls x).
  change (console (add_console ?l ?x)) with (console x ++ [l]).
  rewrite Hv2, Hv1, Hv0, Hcalls2, Hcalls1, Hl2, Hl1, Hl0.
  repeat split.
  - apply JSMapFacts.get_delete.
  - apply in_or_app. left. apply in_or_app. right. cbn. tauto.
Qed.

(** A second press of a sounding key in a browser that has stopped
    creating oscillators. *)
Lemma C10_playNote_not_atomic_witness :
  fst (playNote "a" (Some 466%R) no_oscillators engine_playing_a) = Normal tt
  /\ JSMap.get
       (activeOscillators
          (snd (playNote "a" (Some 466%R) no_oscillators engine_playing_a)))
       "a" = None
  /\ In (Stop 4%nat (currentTime no_oscillators + 1 / 10)%R)
        (sinkCalls
           (snd (playNote "a" (Some 466%R) no_oscillators engine_playing_a)))
  /\ console
       (snd (playNote "a" (Some 466%R) no_oscillators engine_playing_a))
     = console engine_playing_a
       ++ [console_error "Failed to play note:"
                         (SinkError (CreateOscillator 0%nat))].
Proof.
  apply (C10_playNote_not_atomic "a" (Some 466%R) no_oscillators
           engine_playing_a 0%nat (mkVoice 4%nat 5%nat (Some 440%R))
           (SinkError (CreateOscillator 0%nat)));
    try reflexivity.
  repeat split.
Defined.

(** * Further properties of the tuning engine *)

Lemma Rpower_2_pos (x : R) : (0 < Rpower 2 x)%R.
Proof. unfold Rpower. apply exp_pos. Qed.

Lemma Rpower_2_succ (x : R) : Rpower 2 (x + 1) = (2 * Rpower 2 x)%R.
Proof.
  rewrite Rpower_plus, Rpower_1 by lra. lra.
Qed.

Lemma getEDOFrequency_octave (this : TuningSystem)
    (steps divisions baseNote : Z) :
  divisions <> 0 ->
  getEDOFrequency this (steps + divisions) divisions baseNote
  = (2 * getEDOFrequency this steps divisions baseNote)%R.
Proof.
  intros Hd. unfold getEDOFrequency, JS.pow.
  replace (IZR (steps + divisions - baseNote) / IZR divisions)%R
    with (IZR (steps - baseNote) / IZR divisions + 1)%R.
  - rewrite Rpower_2_succ. lra.
  - rewrite !minus_IZR, plus_IZR. field.
    now apply not_0_IZR.
Qed.

(** The Just Intonation frequency of the step [12 * q + r], for [r] inside
    one octave. *)
Lemma just_at (this : TuningSystem) (q r : Z) :
  0 <= r < 12 ->
  exists ratio : R,
    nth_error justRatios (Z.to_nat r) = Some ratio
    /\ getFrequency this "just" (12 * q + r)
       = Some (baseFrequency this * ratio * Rpower 2 (IZR q))%R.
Proof.
  intros Hr.
  destruct (just_ratio_defined (12 * q + r)) as [ratio Hratio].
  assert (Hmod : (12 * q + r) mod 12 = r)
    by (rewrite Z.add_comm, Z.mul_comm, Z.mod_add by lia;
        apply Z.mod_small; lia).
  assert (Hdiv : (12 * q + r) / 12 = q)
    by (rewrite Z.add_comm, Z.mul_comm, Z.div_add by lia;
        rewrite Z.div_small by lia; lia).
  rewrite Hmod in Hratio. exists ratio. split.
  - unfold JS.index in Hratio.
    destruct (Z.ltb_spec r 0); [lia | exact Hratio].
  - rewrite getFrequency_just. unfold getJustIntonation.
    rewrite just_index_floor_mod, Hmod, Hratio.
    unfold JS.floor_div. now rewrite Hdiv.
Qed.

(** X1. One octave up doubles the frequency: adding the number of
    divisions of the tuning (12 for Just Intonation) to the step multiplies
    the frequency by two, for every integer step and every base. *)
Theorem octave_doubles_frequency (this : TuningSystem) (step : Z) :
  getFrequency this "12-edo" (step + 12)
  = option_map (Rmult 2) (getFrequency this "12-edo" step)
  /\ getFrequency this "24-edo" (step + 24)
     = option_map (Rmult 2) (getFrequency this "24-edo" step)
  /\ getFrequency this "31-edo" (step + 31)
     = option_map (Rmult 2) (getFrequency this "31-edo" step)
  /\ getFrequency this "53-edo" (step + 53)
     = option_map (Rmult 2) (getFrequency this "53-edo" step)
  /\ getFrequency this "just" (step + 12)
     = option_map (Rmult 2) (getFrequency this "just" step).
Proof.
  repeat split;
    try (cbn -[getEDOFrequency]; unfold get12EDO, get24EDO, get31EDO,
           get53EDO; now rewrite getEDOFrequency_octave by lia).
  pose proof (Z.mod_pos_bound step 12 ltac:(lia)) as Hb.
  pose proof (Z.div_mod step 12 ltac:(lia)) as Hstep.
  destruct (just_at this (step / 12) (step mod 12) Hb) as (r1 & Hr1 & H1).
  destruct (just_at this (step / 12 + 1) (step mod 12) Hb)
    as (r2 & Hr2 & H2).
  replace (12 * (step / 12 + 1) + step mod 12) with (step + 12) in H2 by lia.
  rewrite <- Hstep in H1. rewrite H1, H2. cbn [option_map]. f_equal.
  assert (r2 = r1) as -> by congruence.
  rewrite plus_IZR, Rpower_2_succ. lra.
Qed.

(** X2. Step 0 sounds the base frequency in every tuning, whatever the
    tuning identifier is. *)
Theorem step_zero_is_base (this : TuningSystem) (tuningType : string) :
  getFrequency this tuningType 0 = Some (baseFrequency this).
Proof.
  assert (Hedo : forall d : Z,
             getEDOFrequency this 0 d 0 = baseFrequency this).
  { intros d. rewrite getEDOFrequency_base0.
    replace (0 / IZR d)%R with 0%R by (unfold Rdiv; lra).
    rewrite Rpower_O by lra. lra. }
  unfold getFrequency, get12EDO, get24EDO, get31EDO, get53EDO.
  repeat match goal with
         | |- context [String.eqb tuningType ?t] =>
             destruct (String.eqb tuningType t)
         end;
    rewrite ?Hedo; try reflexivity.
  destruct (just_at this 0 0 ltac:(lia)) as (ratio & Hratio & H).
  cbn in Hratio. injection Hratio as <-.
  rewrite <- getFrequency_just. change 0 with (12 * 0 + 0) at 1.
  rewrite H. f_equal. rewrite Rpower_O by lra. lra.
Qed.

Lemma getEDOFrequency_increasing (this : TuningSystem)
    (step step' divisions : Z) :
  (0 < baseFrequency this)%R -> 0 < divisions -> step < step' ->
  (0 < getEDOFrequency this step divisions 0
   < getEDOFrequency this step' divisions 0)%R.
Proof.
  intros Hbase Hd Hlt. rewrite !getEDOFrequency_base0.
  assert (Hd' : (0 < IZR divisions)%R) by now apply IZR_lt.
  assert (Hs : (IZR step < IZR step')%R) by now apply IZR_lt.
  pose proof (Rpower_2_pos (IZR step / IZR divisions)) as Hpos.
  assert (Hpow : (Rpower 2 (IZR step / IZR divisions)
                  < Rpower 2 (IZR step' / IZR divisions))%R).
  { apply Rpower_lt; [lra |].
    unfold Rdiv. apply Rmult_lt_compat_r; [| exact Hs].
    now apply Rinv_0_lt_compat. }
  split; nra.
Qed.

Lemma just_next_step_higher (this : TuningSystem) (step : Z) :
  (0 < baseFrequency this)%R ->
  exists f f' : R,
    getFrequency this "just" step = Some f
    /\ getFrequency this "just" (step + 1) = Some f'
    /\ (0 < f < f')%R.
Proof.
  intros Hbase.
  pose proof (Z.mod_pos_bound step 12 ltac:(lia)) as Hb.
  pose proof (Z.div_mod step 12 ltac:(lia)) as Hstep.
  set (q := step / 12) in *. set (r := step mod 12) in *.
  pose proof (Rpower_2_pos (IZR q)) as Hq.
  destruct (just_at this q r Hb) as (ra & Hra & Ha).
  rewrite <- Hstep in Ha.
  assert (Hcases : r = 0 \/ r = 1 \/ r = 2 \/ r = 3 \/ r = 4 \/ r = 5
                   \/ r = 6 \/ r = 7 \/ r = 8 \/ r = 9 \/ r = 10 \/ r = 11)
    by lia.
  destruct (Z.eq_dec r 11) as [H11 | H11].
  - destruct (just_at this (q + 1) 0 ltac:(lia)) as (rb & Hrb & Hb').
    replace (12 * (q + 1) + 0) with (step + 1) in Hb' by lia.
    rewrite H11 in Hra. cbn in Hra, Hrb.
    injection Hra as <-. injection Hrb as <-.
    do 2 eexists. split; [exact Ha |]. split; [exact Hb' |].
    rewrite plus_IZR, Rpower_2_succ. split; nra.
  - destruct (just_at this q (r + 1) ltac:(lia)) as (rb & Hrb & Hb').
    replace (12 * q + (r + 1)) with (step + 1) in Hb' by lia.
    do 2 eexists. split; [exact Ha |]. split; [exact Hb' |].
    repeat (destruct Hcases as [Hr | Hcases];
            [rewrite Hr in Hra, Hrb; cbn in Hra, Hrb;
             injection Hra as <-; injection Hrb as <-; split; nra |]).
    contradiction.
Qed.

Lemma just_increasing (this : TuningSystem) (n : nat) :
  (0 < baseFrequency this)%R ->
  forall step : Z,
  exists f f' : R,
    getFrequency this "just" step = Some f
    /\ getFrequency this "just" (step + 1 + Z.of_nat n) = Some f'
    /\ (0 < f < f')%R.
Proof.
  intros Hbase. induction n as [| n IH]; intros step.
  - rewrite Z.add_0_r. now apply just_next_step_higher.
  - destruct (IH step) as (f & g & Hf & Hg & Hfg).
    destruct (just_next_step_higher this (step + 1 + Z.of_nat n) Hbase)
      as (g' & h & Hg' & Hh & Hgh).
    replace (step + 1 + Z.of_nat (S n)) with (step + 1 + Z.of_nat n + 1)
      by lia.
    exists f, h. repeat split; try assumption; try lra.
    assert (g' = g) by congruence. lra.
Qed.

(** X3. Over the reals, that is with the rounding, the overflow and the
    underflow of the doubles left out: with a positive base frequency,
    every tuning identifier gives a positive frequency at every integer
    step, and a higher step always sounds strictly higher. *)
Theorem frequencies_positive_and_increasing (this : TuningSystem)
    (tuningType : string) (step step' : Z) :
  (0 < baseFrequency this)%R -> step < step' ->
  exists f f' : R,
    getFrequency this tuningType step = Some f
    /\ getFrequency this tuningType step' = Some f'
    /\ (0 < f < f')%R.
Proof.
  intros Hbase Hlt.
  unfold getFrequency, get12EDO, get24EDO, get31EDO, get53EDO.
  repeat match goal with
         | |- context [String.eqb tuningType ?t] =>
             destruct (String.eqb tuningType t)
         end;
    try (do 2 eexists; split; [reflexivity |]; split; [reflexivity |];
         apply getEDOFrequency_increasing; [assumption | lia | assumption]).
  rewrite <- !getFrequency_just.
  replace step' with (step + 1 + Z.of_nat (Z.to_nat (step' - step - 1)))
    by lia.
  now apply just_increasing.
Qed.

(** Concert pitch: the A above sounds higher than the reference. *)
Lemma frequencies_positive_and_increasing_witness :
  exists f f' : R,
    getFrequency TuningSystem_default "just" 0 = Some f
    /\ getFrequency TuningSystem_default "just" 12 = Some f'
    /\ (0 < f < f')%R.
Proof.
  apply (frequencies_positive_and_increasing TuningSystem_default "just"
           0 12).
  - cbn. lra.
  - lia.
Defined.

(** X4. The tunings agree where they share pitches: an even step of 24-EDO
    is the 12-EDO step of half its index, and a whole number of octaves is
    the same in Just Intonation and in 12-EDO. *)
Theorem tunings_agree_on_shared_pitches (this : TuningSystem) (k : Z) :
  getFrequency this "24-edo" (2 * k) = getFrequency this "12-edo" k
  /\ getFrequency this "just" (12 * k) = getFrequency this "12-edo" (12 * k).
Proof.
  split.
  - cbn -[getEDOFrequency Z.mul]. unfold get12EDO, get24EDO.
    rewrite !getEDOFrequency_base0.
    replace (IZR (2 * k) / 24)%R with (IZR k / 12)%R
      by (rewrite mult_IZR; field).
    reflexivity.
  - destruct (just_at this k 0 ltac:(lia)) as (ratio & Hratio & H).
    cbn in Hratio. injection Hratio as <-.
    rewrite Z.add_0_r in H. rewrite H.
    cbn -[getEDOFrequency Z.mul]. unfold get12EDO.
    rewrite getEDOFrequency_base0. f_equal.
    replace (IZR (12 * k) / 12)%R with (IZR k) by (rewrite mult_IZR; field).
    lra.
Qed.

(** * Further properties of the key labels *)

Lemma chars_append (a b : string) :
  list_ascii_of_string (a ++ b)%string
  = list_ascii_of_string a ++ list_ascii_of_string b.
Proof. induction a as [| c a IH]; cbn; [reflexivity | now rewrite IH]. Qed.

(** A string that holds [t] holds the first character of [t]. *)
Lemma includes_needs_first_char (s t : string) (c : ascii) :
  JS.includes s (String c t) = true -> In c (list_ascii_of_string s).
Proof.
  induction s as [| d s IH]; cbn.
  - discriminate.
  - destruct (ascii_dec c d) as [-> | Hne].
    + intros _. now left.
    + intros H. right. now apply IH.
Qed.

Lemma includes_absent_char (s t : string) (c : ascii) :
  ~ In c (list_ascii_of_string s) -> JS.includes s (String c t) = false.
Proof.
  intros Hnot. destruct (JS.includes s (String c t)) eqn:E; [| reflexivity].
  exfalso. apply Hnot. eapply includes_needs_first_char. exact E.
Qed.

Lemma uint_chars (d : Decimal.uint) :
  Forall (fun c => In c (list_ascii_of_string "0123456789"))
         (list_ascii_of_string (DecimalString.NilEmpty.string_of_uint d)).
Proof.
  induction d; cbn [DecimalString.NilEmpty.string_of_uint
                      list_ascii_of_string];
    constructor; try assumption; cbn; tauto.
Qed.

(** The decimal rendering of an integer holds digits and the minus sign
    only. *)
Lemma show_int_chars (z : Z) :
  Forall (fun c => In c (list_ascii_of_string "-0123456789"))
         (list_ascii_of_string (JS.show_int z)).
Proof.
  assert (Hu : forall d,
             Forall (fun c => In c (list_ascii_of_string "-0123456789"))
               (list_ascii_of_string
                  (DecimalString.NilZero.string_of_uint d))).
  { intros d.
    assert (H0 : Forall
                   (fun c => In c (list_ascii_of_string "-0123456789"))
                   (list_ascii_of_string
                      (DecimalString.NilEmpty.string_of_uint d))).
    { eapply Forall_impl; [| apply uint_chars].
      intros c Hc. cbn in *. tauto. }
    destruct d; try exact H0.
    cbn. constructor; [tauto | constructor]. }
  unfold JS.show_int, DecimalString.NilZero.string_of_int.
  destruct (Z.to_int z) as [d | d].
  - apply Hu.
  - cbn [list_ascii_of_string]. constructor; [cbn; tauto | apply Hu].
Qed.

Lemma show_int_no_marker (z : Z) (t : string) (c : ascii) :
  ~ In c (list_ascii_of_string "-0123456789") ->
  JS.includes (JS.show_int z) (String c t) = false.
Proof.
  intros Hc. apply includes_absent_char. intros Hin.
  pose proof (show_int_chars z) as H.
  rewrite Forall_forall in H. now apply Hc, H.
Qed.

Lemma show_int_no_sharp (z : Z) :
  JS.includes (JS.show_int z) "#" = false
  /\ JS.includes (JS.show_int z) "♯" = false.
Proof.
  split; apply show_int_no_marker; cbn;
    intros H; repeat (destruct H as [H | H]; [discriminate H |]);
    exact H.
Qed.

(** The 12-EDO label in the embedding, at any integer. *)
Lemma twelve_tone_label_cases (step : Z) :
  exists name : string,
    nth_error noteNames (Z.to_nat (step mod 12)) = Some name
    /\ getNoteNameFromStep step "12-edo"
       = (name ++ JS.show_int (step / 12 + 4))%string.
Proof.
  pose proof (Z.mod_pos_bound step 12 ltac:(lia)) as Hb.
  destruct (nth_error noteNames (Z.to_nat (step mod 12))) as [name |] eqn:E.
  - exists name. split; [reflexivity |].
    unfold getNoteNameFromStep. cbn [String.eqb Ascii.eqb Bool.eqb orb].
    cbn -[JS.show_int JS.index JS.rem JS.floor_div noteNames].
    rewrite just_index_floor_mod. unfold JS.index.
    destruct (Z.ltb_spec (step mod 12) 0); [lia |].
    now rewrite E.
  - apply nth_error_None in E. cbn in E. lia.
Qed.

(** X5. Under 12-EDO and Just Intonation every step of at most 31 bits,
    negative or not, is labelled with the chromatic name at its floor
    remainder modulo 12 followed by the octave number floor (step / 12) + 4;
    the two tunings give the same labels.  The bound keeps the step where
    the doubles of the source hold the quotient and the remainder exactly
    and a number is printed in plain decimal. *)
Theorem twelve_tone_labels (step : Z) :
  Z.abs step < 2 ^ 31 ->
  (exists name : string,
     nth_error noteNames (Z.to_nat (step mod 12)) = Some name
     /\ getNoteNameFromStep step "12-edo"
        = (name ++ JS.show_int (step / 12 + 4))%string
     /\ 0 <= step mod 12 < 12
     /\ Z.abs (step / 12 + 4) < 2 ^ 31)
  /\ getNoteNameFromStep step "just" = getNoteNameFromStep step "12-edo".
Proof.
  intros Hrange. split; [| reflexivity].
  destruct (twelve_tone_label_cases step) as (name & Hname & Hlabel).
  exists name. split; [exact Hname |]. split; [exact Hlabel |].
  split; [apply Z.mod_pos_bound; lia |].
  pose proof (Z.mul_div_le step 12 ltac:(lia)) as Hle.
  pose proof (Z.mul_succ_div_gt step 12 ltac:(lia)) as Hgt.
  change (2 ^ 31) with 2147483648 in *. lia.
Qed.

(** The key below middle C. *)
Lemma twelve_tone_labels_witness :
  getNoteNameFromStep (-1) "12-edo" = "B3"%string
  /\ getNoteNameFromStep (-1) "just" = "B3"%string.
Proof.
  destruct (twelve_tone_labels (-1) ltac:(reflexivity))
    as [(name & Hname & Hlabel & _) Hjust].
  rewrite Hjust, Hlabel. injection Hname as <-. split; reflexivity.
Defined.

(** The sharp test on a 12-EDO label finds exactly the five raised
    notes. *)
Lemma twelve_tone_sharp (step : Z) :
  JS.includes (getNoteNameFromStep step "12-edo") "#"
  || JS.includes (getNoteNameFromStep step "12-edo") "♯"
  = black_key step.
Proof.
  destruct (twelve_tone_label_cases step) as (name & Hname & ->).
  pose proof (Z.mod_pos_bound step 12 ltac:(lia)) as Hb.
  unfold black_key.
  destruct (show_int_no_sharp (step / 12 + 4)) as [H1 H2].
  assert (Hcases : In (step mod 12) (zrange 0 12))
    by (apply zrange_In; lia).
  cbv [zrange seq map Z.add Z.of_nat Pos.of_succ_nat Pos.succ] in Hcases.
  cbn [In] in Hcases.
  assert (Hp : forall s : string, String.prefix "" s = true)
    by (now intros []).
  repeat (destruct Hcases as [Hr | Hcases];
          [rewrite <- Hr in *; cbn in Hname; injection Hname as <-;
           cbn -[JS.show_int]; rewrite ?Hp, ?H1, ?H2; reflexivity |]).
  contradiction.
Qed.

(** X6. Under 12-EDO and Just Intonation, the Chromatic and the Janko
    layouts flag a key as an accidental exactly when its step is one of the
    five raised notes of the octave (floor remainder 1, 3, 6, 8 or 10
    modulo 12), for negative steps too. *)
Theorem accidentals_are_black_keys (tuningSystem : TuningSystem)
    (tuningType : string) (rows cols : Z) (k : KeyDescriptor) :
  tuningType = "12-edo"%string \/ tuningType = "just"%string ->
  In k (generateKeys chromaticLayout tuningSystem tuningType rows cols)
  \/ In k (generateKeys jankoLayout tuningSystem tuningType rows cols) ->
  isAccidental k = black_key (step k).
Proof.
  intros Htuning Hk.
  assert (Hlabel : forall s,
             getNoteNameFromStep s tuningType
             = getNoteNameFromStep s "12-edo")
    by (intros s; destruct Htuning as [-> | ->]; reflexivity).
  destruct Hk as [Hk | Hk].
  - apply chromatic_In in Hk. destruct Hk as (i & _ & ->).
    cbn [isAccidental step chromatic_key].
    rewrite Hlabel. apply twelve_tone_sharp.
  - apply grid_loop_In in Hk. destruct Hk as (r & c & _ & _ & ->).
    cbn [isAccidental step].
    rewrite Hlabel. apply twelve_tone_sharp.
Qed.

(** The second key of the chromatic keyboard, a C sharp. *)
Lemma accidentals_are_black_keys_witness :
  isAccidental (chromatic_key TuningSystem_default "12-edo" 12 1)
  = black_key (step (chromatic_key TuningSystem_default "12-edo" 12 1)).
Proof.
  apply (accidentals_are_black_keys TuningSystem_default "12-edo" 4 12
           (chromatic_key TuningSystem_default "12-edo" 12 1)).
  - left. reflexivity.
  - left. eapply nth_error_In.
    apply (chromatic_nth TuningSystem_default "12-edo" 4 12 1). lia.
Defined.

Lemma plain_chars_no_sharp (s : string) :
  Forall plain_char (list_ascii_of_string s) ->
  JS.includes s "#" || JS.includes s "♯" = false.
Proof.
  intros H. rewrite Forall_forall in H.
  rewrite !includes_absent_char; [reflexivity | |];
    intros Hin; apply H in Hin; destruct Hin as [H1 H2]; congruence.
Qed.

Lemma decimal_chars_plain (c : ascii) :
  In c (list_ascii_of_string "-0123456789") -> plain_char c.
Proof.
  cbn. intros H.
  repeat (destruct H as [<- | H]; [split; discriminate |]).
  contradiction.
Qed.

Lemma show_int_plain (z : Z) :
  Forall plain_char (list_ascii_of_string (JS.show_int z)).
Proof.
  eapply Forall_impl; [| apply show_int_chars].
  apply decimal_chars_plain.
Qed.

Lemma literal_plain (s : string) :
  forallb (fun c => negb (Ascii.eqb c "#") && negb (Ascii.eqb c "226"))
          (list_ascii_of_string s) = true ->
  Forall plain_char (list_ascii_of_string s).
Proof.
  rewrite forallb_forall, Forall_forall. intros H c Hc.
  specialize (H c Hc). apply andb_true_iff in H. destruct H as [H1 H2].
  split; intros ->; cbn in H1, H2; discriminate.
Qed.

Lemma num_show_plain (x : JSNumber) :
  Forall plain_char (list_ascii_of_string (Num.show x)).
Proof.
  destruct x; cbn [Num.show];
    try apply show_int_plain; now apply literal_plain.
Qed.

(** The generic label, which every tuning other than 12-EDO, Just
    Intonation and 24-EDO gets, never holds a sharp marker. *)
Lemma generic_label_no_sharp (step : Z) (tuningType : string) :
  named_tuning tuningType = false ->
  JS.includes (getNoteNameFromStep step tuningType) "#"
  || JS.includes (getNoteNameFromStep step tuningType) "♯" = false.
Proof.
  unfold named_tuning. cbn [existsb]. intros H.
  apply orb_false_elim in H. destruct H as [H12 H].
  apply orb_false_elim in H. destruct H as [Hjust H].
  apply orb_false_elim in H. destruct H as [H24 _].
  unfold getNoteNameFromStep. rewrite H12, Hjust, H24. cbn [orb].
  apply plain_chars_no_sharp.
  rewrite !chars_append.
  apply Forall_app. split; [now apply literal_plain |].
  apply Forall_app. split; [apply show_int_plain |].
  apply Forall_app. split; [now apply literal_plain | apply num_show_plain].
Qed.

(** X7. For a step of at most 31 bits the 31-EDO and 53-EDO labels are
    St, the step, O and the octave number floor (step / divisions) + 4 (the
    bound keeps the step where the doubles of the source hold the quotient
    exactly and a number is printed in plain decimal); and under every
    tuning identifier other than 12-edo, just and 24-edo, no layout flags
    any key as an accidental. *)
Theorem generic_labels (tuningSystem : TuningSystem) (tuningType : string)
    (rows cols : Z) :
  (forall step : Z,
     Z.abs step < 2 ^ 31 ->
     getNoteNameFromStep step "31-edo"
     = ("St" ++ JS.show_int step ++ "O" ++ JS.show_int (step / 31 + 4))%string
     /\ getNoteNameFromStep step "53-edo"
        = ("St" ++ JS.show_int step ++ "O"
                ++ JS.show_int (step / 53 + 4))%string)
  /\ (named_tuning tuningType = false ->
      forall (l : LayoutId) (k : KeyDescriptor),
        In k (generateKeys (layout_of l) tuningSystem tuningType rows cols) ->
        isAccidental k = false).
Proof.
  split.
  - intros step _. split; reflexivity.
  - intros Hgeneric l k Hk.
    destruct l; cbn [layout_of] in Hk.
    + apply chromatic_In in Hk. destruct Hk as (i & _ & ->).
      cbn [isAccidental chromatic_key].
      now apply generic_label_no_sharp.
    + apply grid_loop_In in Hk. now destruct Hk as (r & c & _ & _ & ->).
    + apply grid_loop_In in Hk. now destruct Hk as (r & c & _ & _ & ->).
    + apply grid_loop_In in Hk. destruct Hk as (r & c & _ & _ & ->).
      cbn [isAccidental]. now apply generic_label_no_sharp.
Qed.

(** The Janko keyboard under 31-EDO, and the label of the step below the
    base note. *)
Lemma generic_labels_witness :
  getNoteNameFromStep (-1) "31-edo" = "St-1O3"%string
  /\ Forall (fun k : KeyDescriptor => isAccidental k = false)
            (generateKeys (layout_of Janko) TuningSystem_default "31-edo"
                          6 8).
Proof.
  pose proof (generic_labels TuningSystem_default "31-edo" 6 8)
    as [Hlabel Hflags].
  split.
  - apply (proj1 (Hlabel (-1) ltac:(reflexivity))).
  - apply Forall_forall. intros k. apply (Hflags eq_refl Janko k).
Defined.

(** * Further properties of the layout generators *)

Lemma zrange_app (first : Z) (n m : nat) :
  zrange first (n + m) = zrange first n ++ zrange (first + Z.of_nat n) m.
Proof.
  revert first. induction n as [| n IH]; intros first.
  - cbn [Nat.add]. unfold zrange at 2. cbn. now rewrite Z.add_0_r.
  - cbn [Nat.add]. rewrite !zrange_S, IH. cbn [app]. do 3 f_equal. lia.
Qed.

Lemma zrange_NoDup (first : Z) (count : nat) : NoDup (zrange first count).
Proof.
  unfold zrange. apply Finite.Injective_map_NoDup; [| apply seq_NoDup].
  intros a b H. lia.
Qed.

(** The rows of a grid, one after the other, enumerate the positions. *)
Lemma rows_enumerate (nC nR : nat) :
  forall r0 : Z,
    List.concat
      (map (fun r => zrange (r * Z.of_nat nC) nC) (zrange r0 nR))
    = zrange (r0 * Z.of_nat nC) (nR * nC).
Proof.
  induction nR as [| nR IH]; intros r0.
  - reflexivity.
  - rewrite zrange_S. cbn [map List.concat Nat.mul].
    rewrite IH, zrange_app. do 2 f_equal. lia.
Qed.

(** What a grid layout computes from the running identifier alone is
    computed along the positions 0, 1, 2, ... *)
Lemma grid_loop_by_position {A : Type} (f : KeyDescriptor -> A)
    (g : Z -> A) (mk : Z -> Z -> Z -> KeyDescriptor) (rows cols : Z) :
  (forall i r c, f (mk i r c) = g i) ->
  map f (grid_loop rows cols mk)
  = map g (zrange 0 (Z.to_nat rows * Z.to_nat cols)).
Proof.
  intros Hf. rewrite grid_loop_rows, concat_map, map_map.
  pose proof (rows_enumerate (Z.to_nat cols) (Z.to_nat rows) 0) as He.
  rewrite Z.mul_0_l in He. rewrite <- He.
  rewrite concat_map, map_map. f_equal.
  apply map_ext. intros r. unfold row_keys. rewrite map_map.
  unfold zrange. rewrite !map_map.
  apply map_ext. intros c. rewrite Hf. f_equal; lia.
Qed.

Lemma show_int_injective (a b : Z) : JS.show_int a = JS.show_int b -> a = b.
Proof.
  unfold JS.show_int. intros H.
  assert (Hok : forall z,
             DecimalString.NilZero.int_of_string
               (DecimalString.NilZero.string_of_int (Z.to_int z))
             = Some (Z.to_int z)).
  { intros z. apply DecimalString.NilZero.isi; destruct z; cbn;
      try discriminate;
      intros [= Hnil]; now apply DecimalPos.Unsigned.to_uint_nonnil in Hnil. }
  apply (f_equal DecimalString.NilZero.int_of_string) in H.
  rewrite !Hok in H. injection H as H.
  apply (f_equal Z.of_int) in H. now rewrite !DecimalZ.of_to in H.
Qed.

Lemma key_ids_NoDup (count : nat) :
  NoDup (map (fun i => ("key-" ++ JS.show_int i)%string) (zrange 0 count)).
Proof.
  apply Finite.Injective_map_NoDup; [| apply zrange_NoDup].
  intros a b H. cbn in H. injection H as H. now apply show_int_injective.
Qed.

Lemma generated_ids (tuningSystem : TuningSystem) (tuningType : string)
    (rows cols : Z) (l : LayoutId) :
  0 <= rows -> 0 <= cols ->
  map id (generateKeys (layout_of l) tuningSystem tuningType rows cols)
  = map (fun i => ("key-" ++ JS.show_int i)%string)
        (zrange 0 (Z.to_nat (rows * cols))).
Proof.
  intros Hrows Hcols.
  replace (Z.to_nat (rows * cols))
    with (Z.to_nat rows * Z.to_nat cols)%nat by nia.
  destruct l; cbn [layout_of];
    try (apply grid_loop_by_position; reflexivity).
  rewrite chromatic_keys, map_map.
  replace (Z.to_nat (rows * cols))
    with (Z.to_nat rows * Z.to_nat cols)%nat by nia.
  reflexivity.
Qed.

(** X8. A keyboard of [rows] by [cols] keys has [rows * cols] key
    descriptors in every layout, their identifiers are key-0, key-1, ... in
    the order of the list, and no two keys share an identifier. *)
Theorem keys_are_numbered (tuningSystem : TuningSystem)
    (tuningType : string) (rows cols : Z) (l : LayoutId) :
  0 <= rows -> 0 <= cols ->
  map id (generateKeys (layout_of l) tuningSystem tuningType rows cols)
  = map (fun i => ("key-" ++ JS.show_int i)%string)
        (zrange 0 (Z.to_nat (rows * cols)))
  /\ List.length
       (generateKeys (layout_of l) tuningSystem tuningType rows cols)
     = Z.to_nat (rows * cols)
  /\ NoDup
       (map id (generateKeys (layout_of l) tuningSystem tuningType rows cols)).
Proof.
  intros Hrows Hcols.
  pose proof (generated_ids tuningSystem tuningType rows cols l Hrows Hcols)
    as Hids.
  split; [exact Hids |]. split.
  - rewrite <- (length_map id), Hids, length_map. apply zrange_length.
  - rewrite Hids. apply key_ids_NoDup.
Qed.

(** The keyboards that the page builds: 4 by 12 and 6 by 8, 48 keys
    each. *)
Lemma keys_are_numbered_witness :
  List.length
    (generateKeys (layout_of Chromatic) TuningSystem_default "12-edo" 4 12)
  = Z.to_nat (4 * 12)
  /\ List.length
       (generateKeys (layout_of Janko) TuningSystem_default "12-edo" 6 8)
     = Z.to_nat (6 * 8).
Proof.
  split.
  - apply (keys_are_numbered TuningSystem_default "12-edo" 4 12 Chromatic);
      lia.
  - apply (keys_are_numbered TuningSystem_default "12-edo" 6 8 Janko); lia.
Defined.

(** X9. The layouts are regular: wherever both keys are on the grid, the
    right neighbour of a key is 1 (Chromatic), 7 (Wicki-Hayden),
    4 (Harmonic Table) or 2 (Janko) steps higher, and the key two rows
    further is two rows' worth of columns, 4, 6 or 12 steps higher; so
    under 12-EDO two rows further on the Janko keyboard is an octave, which
    over the reals (the rounding of the doubles left out) is twice the
    frequency. *)
Theorem layouts_are_regular (tuningSystem : TuningSystem)
    (tuningType : string) (rows cols : Z) (l : LayoutId) (r c : Z) :
  0 <= r -> r + 2 < rows -> 0 <= c -> c + 1 < cols ->
  exists k right above : KeyDescriptor,
    nth_error (generateKeys (layout_of l) tuningSystem tuningType rows cols)
              (Z.to_nat (r * cols + c)) = Some k
    /\ nth_error
         (generateKeys (layout_of l) tuningSystem tuningType rows cols)
         (Z.to_nat (r * cols + (c + 1))) = Some right
    /\ nth_error
         (generateKeys (layout_of l) tuningSystem tuningType rows cols)
         (Z.to_nat ((r + 2) * cols + c)) = Some above
    /\ step right = step k + column_interval l
    /\ step above = step k + two_rows_interval l cols
    /\ (l = Janko -> tuningType = "12-edo"%string ->
        frequency above = option_map (Rmult 2) (frequency k)).
Proof.
  intros Hr Hr' Hc Hc'.
  destruct (key_at_position tuningSystem tuningType rows cols l r c)
    as (k & Hk & Hkr & Hkc & Hks); try lia.
  destruct (key_at_position tuningSystem tuningType rows cols l r (c + 1))
    as (k1 & Hk1 & _ & _ & Hk1s); try lia.
  destruct (key_at_position tuningSystem tuningType rows cols l (r + 2) c)
    as (k2 & Hk2 & _ & _ & Hk2s); try lia.
  exists k, k1, k2.
  assert (Hmod : (r + 2) mod 2 = r mod 2)
    by (replace (r + 2) with (r + 1 * 2) by lia; now rewrite Z.mod_add).
  assert (Hdiv : (r + 2) / 2 = r / 2 + 1)
    by (replace (r + 2) with (r + 1 * 2) by lia; now rewrite Z.div_add).
  repeat split; try assumption.
  - rewrite Hk1s, Hks. destruct l; cbn; lia.
  - rewrite Hk2s, Hks. destruct l; cbn [stepIndex_spec two_rows_interval];
      rewrite ?Hmod, ?Hdiv; lia.
  - intros -> ->. cbn [layout_of] in Hk, Hk2.
    unfold generateKeys, jankoLayout in Hk, Hk2. cbn [generator] in Hk, Hk2.
    rewrite grid_loop_nth in Hk, Hk2 by lia.
    injection Hk as <-. injection Hk2 as <-. cbn [frequency].
    destruct (janko_row_terms r) as [-> ->]; [lia |].
    destruct (janko_row_terms (r + 2)) as [-> ->]; [lia |].
    rewrite Hmod, Hdiv.
    replace (c * 2 + r mod 2 + (r / 2 + 1) * 12 - 12)
      with (c * 2 + r mod 2 + r / 2 * 12 - 12 + 12) by lia.
    cbn -[getEDOFrequency]. unfold get12EDO.
    now rewrite getEDOFrequency_octave by lia.
Qed.

(** The first key of the Janko keyboard of 6 rows and 8 columns, its right
    neighbour and the key two rows further. *)
Lemma layouts_are_regular_witness :
  exists k right above : KeyDescriptor,
    nth_error (generateKeys (layout_of Janko) TuningSystem_default "12-edo"
                            6 8)
              (Z.to_nat (0 * 8 + 0)) = Some k
    /\ nth_error
         (generateKeys (layout_of Janko) TuningSystem_default "12-edo" 6 8)
         (Z.to_nat (0 * 8 + (0 + 1))) = Some right
    /\ nth_error
         (generateKeys (layout_of Janko) TuningSystem_default "12-edo" 6 8)
         (Z.to_nat ((0 + 2) * 8 + 0)) = Some above
    /\ step right = step k + column_interval Janko
    /\ step above = step k + two_rows_interval Janko 8
    /\ (Janko = Janko -> "12-edo"%string = "12-edo"%string ->
        frequency above = option_map (Rmult 2) (frequency k)).
Proof.
  apply (layouts_are_regular TuningSystem_default "12-edo" 6 8 Janko 0 0);
    lia.
Defined.

(** * Further properties of the audio engine *)

(** ** The voices and the sounding oscillators *)

Lemma sounding_app (calls extra : list SinkCall) :
  sounding (calls ++ extra) = fold_left sounding_step extra (sounding calls).
Proof. unfold sounding. apply fold_left_app. Qed.

Lemma quiet_calls_silent (extra : list SinkCall) :
  forallb quiet extra = true ->
  forall acc, fold_left sounding_step extra acc = acc.
Proof.
  induction extra as [| c extra IH]; cbn [forallb fold_left]; intros H acc.
  - reflexivity.
  - apply andb_true_iff in H. destruct H as [Hc Hextra].
    rewrite IH by assumption. now destruct c.
Qed.

Lemma get_None_not_key {V : Type} (m : JSMap.t V) (k : string) :
  JSMap.get m k = None <-> ~ In k (JSMap.keys m).
Proof.
  induction m as [| [k' v'] m IH]; cbn.
  - tauto.
  - destruct (String.eqb_spec k' k) as [-> | Hne].
    + split; [discriminate | intros H; exfalso; apply H; now left].
    + rewrite IH. split; [intros H [Heq | Hin]; [congruence | tauto] | tauto].
Qed.

Lemma get_Some_In {V : Type} (m : JSMap.t V) (k : string) (v : V) :
  JSMap.get m k = Some v -> In (k, v) m.
Proof.
  induction m as [| [k' v'] m IH]; cbn; [discriminate |].
  destruct (String.eqb_spec k' k) as [-> | Hne].
  - intros [= ->]. now left.
  - intros H. right. now apply IH.
Qed.

Lemma set_absent {V : Type} (m : JSMap.t V) (k : string) (v : V) :
  JSMap.get m k = None -> JSMap.set m k v = m ++ [(k, v)].
Proof.
  induction m as [| [k' v'] m IH]; cbn; [reflexivity |].
  destruct (String.eqb k' k); [discriminate |].
  intros H. now rewrite IH.
Qed.

Lemma remove_absent (h : Handle) (l : list Handle) :
  ~ In h l -> remove Nat.eq_dec h l = l.
Proof. intros H. now apply notin_remove. Qed.

(** Deleting a note removes its oscillator from the list of registered
    oscillators, when keys and oscillators are distinct. *)
Lemma voice_oscillators_delete (voices : JSMap.t VoiceData)
    (noteId : string) (old : VoiceData) :
  NoDup (JSMap.keys voices) -> NoDup (voice_oscillators voices) ->
  JSMap.get voices noteId = Some old ->
  voice_oscillators (JSMap.delete voices noteId)
  = remove Nat.eq_dec (oscillator old) (voice_oscillators voices).
Proof.
  induction voices as [| [k v] voices IH]; cbn; [discriminate |].
  intros Hkeys Hoscs.
  inversion Hkeys as [| ? ? Hk Hkeys']; subst.
  inversion Hoscs as [| ? ? Ho Hoscs']; subst.
  destruct (String.eqb_spec k noteId) as [-> | Hne].
  - intros [= ->].
    destruct (Nat.eq_dec (oscillator old) (oscillator old)); [| congruence].
    rewrite delete_absent by now apply get_None_not_key.
    symmetry. now apply remove_absent.
  - intros Hget. cbn.
    destruct (Nat.eq_dec (oscillator old) (oscillator v)) as [Heq | _].
    + exfalso. apply Ho. rewrite <- Heq.
      apply get_Some_In in Hget.
      change (oscillator old)
        with ((fun e : string * VoiceData => oscillator (snd e))
                (noteId, old)).
      now apply in_map.
    + f_equal. now apply IH.
Qed.

Lemma voice_oscillators_incl_delete (voices : JSMap.t VoiceData)
    (noteId : string) (h : Handle) :
  In h (voice_oscillators (JSMap.delete voices noteId)) ->
  In h (voice_oscillators voices).
Proof.
  induction voices as [| [k v] voices IH]; cbn; [tauto |].
  destruct (String.eqb k noteId); cbn; intuition.
Qed.

Lemma NoDup_voice_oscillators_delete (voices : JSMap.t VoiceData)
    (noteId : string) :
  NoDup (voice_oscillators voices) ->
  NoDup (voice_oscillators (JSMap.delete voices noteId)).
Proof.
  induction voices as [| [k v] voices IH]; cbn; [trivial |].
  intros H. inversion H as [| ? ? Ho H']; subst.
  destruct (String.eqb k noteId); [now apply IH |].
  cbn. constructor; [| now apply IH].
  intros Hin. apply Ho. eapply voice_oscillators_incl_delete. exact Hin.
Qed.

(** Calls that start and stop nothing keep the agreement. *)
Lemma match_quiet (voices : JSMap.t VoiceData)
    (calls extra : list SinkCall) :
  voices_match_sink voices calls -> forallb quiet extra = true ->
  voices_match_sink voices (calls ++ extra).
Proof.
  intros (Hs & Hk & Ho & Hb) Hq. repeat split; try assumption.
  - now rewrite sounding_app, quiet_calls_silent.
  - eapply Forall_impl; [| exact Hb].
    intros h Hh. cbn in Hh. rewrite length_app. lia.
Qed.

(** Releasing a voice keeps the agreement. *)
Lemma match_stop (voices : JSMap.t VoiceData) (calls pre : list SinkCall)
    (noteId : string) (old : VoiceData) (time : R) :
  voices_match_sink voices calls ->
  JSMap.get voices noteId = Some old ->
  forallb quiet pre = true ->
  voices_match_sink (JSMap.delete voices noteId)
                    (calls ++ pre ++ [Stop (oscillator old) time]).
Proof.
  intros (Hs & Hk & Ho & Hb) Hget Hq. repeat split.
  - rewrite app_assoc, sounding_app, sounding_app. cbn [fold_left].
    rewrite quiet_calls_silent by assumption. cbn [sounding_step].
    rewrite Hs. symmetry. now apply voice_oscillators_delete.
  - now apply JSMapFacts.NoDup_delete.
  - now apply NoDup_voice_oscillators_delete.
  - rewrite Forall_forall in *. intros h Hh.
    apply voice_oscillators_incl_delete in Hh. apply Hb in Hh.
    rewrite length_app. lia.
Qed.

(** Registering a new voice on the next handle, started by the last of
    the new calls, keeps the agreement. *)
Lemma match_start (voices : JSMap.t VoiceData) (calls pre : list SinkCall)
    (noteId : string) (g : Handle) (frequency : option R) :
  voices_match_sink voices calls ->
  JSMap.get voices noteId = None ->
  forallb quiet pre = true -> pre <> [] ->
  voices_match_sink
    (JSMap.set voices noteId (mkVoice (List.length calls) g frequency))
    (calls ++ pre ++ [Start (List.length calls)]).
Proof.
  intros (Hs & Hk & Ho & Hb) Hget Hq Hpre.
  rewrite set_absent by assumption.
  unfold voices_match_sink, voice_oscillators, JSMap.keys.
  rewrite !map_app. cbn [map fst snd oscillator].
  fold (voice_oscillators voices). fold (JSMap.keys voices).
  assert (Hfresh : ~ In (List.length calls) (voice_oscillators voices)).
  { intros Hin. rewrite Forall_forall in Hb. apply Hb in Hin. lia. }
  repeat split.
  - rewrite app_assoc, sounding_app, sounding_app. cbn [fold_left].
    rewrite quiet_calls_silent by assumption. cbn [sounding_step].
    now rewrite Hs.
  - apply NoDup_app; repeat split; try assumption.
    + constructor; [intros [] | constructor].
    + intros k Hin [<- | []]. now apply get_None_not_key in Hget.
  - apply NoDup_app; repeat split; try assumption.
    + constructor; [intros [] | constructor].
    + intros h Hin [<- | []]. contradiction.
  - apply Forall_app. split.
    + eapply Forall_impl; [| exact Hb].
      intros h Hh. cbn in Hh. rewrite !length_app. lia.
    + constructor; [| constructor].
      rewrite !length_app. cbn [List.length].
      destruct pre; [congruence | cbn [List.length]; lia].
Qed.

Lemma consistent_quiet_call (c : SinkCall) (s : AudioEngine) :
  quiet c = true -> consistent s -> consistent (add_sinkCall c s).
Proof.
  intros Hq H. unfold consistent in *. cbn [activeOscillators sinkCalls
    add_sinkCall]. apply match_quiet; [assumption |].
  cbn. now rewrite Hq.
Qed.

Lemma consistent_console (e : LogEntry) (s : AudioEngine) :
  consistent s -> consistent (add_console e s).
Proof. trivial. Qed.

Lemma preserves_quiet_sink (P : AudioEngine -> Prop) (c : SinkCall) :
  (forall s, P s -> P (add_sinkCall c s)) -> preserves P (sink c).
Proof.
  intros Hc b s H. unfold sink.
  destruct (throws b c); cbn; [exact H | now apply Hc].
Qed.

(** Takes apart engine code whose sink calls start and stop nothing. *)
Ltac keeps_consistent :=
  repeat first
    [ apply preserves_ret
    | apply preserves_throw
    | apply preserves_gets
    | apply preserves_ask
    | apply preserves_quiet_sink; intros ? ?;
      apply consistent_quiet_call; [reflexivity | assumption]
    | apply preserves_modify; intros ? ?;
      first [ assumption
            | apply consistent_quiet_call; [reflexivity | assumption] ]
    | apply preserves_bind; [| intros ?]
    | apply preserves_try_catch; [| intros ?]
    | match goal with
      | |- preserves _ (match ?x with _ => _ end) => destruct x
      end ].

Lemma initialize_consistent : preserves consistent initialize.
Proof. unfold initialize, log. keeps_consistent. Qed.

Lemma setVolume_consistent (value : R) :
  preserves consistent (setVolume value).
Proof. unfold setVolume. keeps_consistent. Qed.

Lemma forEach_preserves {V : Type} (P : AudioEngine -> Prop)
    (f : V -> string -> M unit) (entries : list (string * V)) :
  (forall v k, preserves P (f v k)) -> preserves P (forEach entries f).
Proof.
  intros Hf. induction entries as [| [k v] rest IH]; cbn [forEach].
  - apply preserves_ret.
  - apply preserves_bind; [apply Hf | intros _; exact IH].
Qed.

Lemma setWaveform_consistent (w : string) :
  preserves consistent (setWaveform w).
Proof.
  unfold setWaveform.
  apply preserves_bind; [keeps_consistent | intros _].
  apply preserves_bind; [keeps_consistent | intros voices].
  apply forEach_preserves. intros v k. keeps_consistent.
Qed.

(** Brings the engine reached by straight-line code into the form of the
    agreement lemmas. *)
Ltac after_calls :=
  unfold consistent in *;
  cbn -[Rplus Rdiv IZR voices_match_sink];
  rewrite <- ?app_assoc; cbn [app].

(** [stopNote] keeps the agreement however it ends, and when it returns
    the note has no voice. *)
Lemma stopNote_consistent (noteId : string) :
  preserves consistent (stopNote noteId).
Proof.
  intros b s H. run_engine.
  destruct (JSMap.get (activeOscillators s) noteId) as [old |] eqn:Hget;
    cbn -[Rplus Rdiv IZR]; [| exact H].
  destruct (audioContext s); cbn -[Rplus Rdiv IZR]; [| exact H].
  repeat (match goal with
          | |- context [throws b ?c] => destruct (throws b c)
          end; cbn -[Rplus Rdiv IZR]);
    after_calls;
    first [ assumption
          | apply match_quiet; [assumption | reflexivity]
          | apply (match_stop _ _ [_; _; _]); [assumption .. | reflexivity] ].
Qed.

Lemma stopNote_returns_absent (noteId : string) (b : Browser)
    (s : AudioEngine) :
  fst (stopNote noteId b s) = Normal tt ->
  JSMap.get (activeOscillators (snd (stopNote noteId b s))) noteId = None.
Proof.
  run_engine.
  destruct (JSMap.get (activeOscillators s) noteId) as [old |] eqn:Hget;
    cbn -[Rplus Rdiv IZR]; [| intros _; exact Hget].
  destruct (audioContext s); cbn -[Rplus Rdiv IZR]; [| discriminate].
  repeat (match goal with
          | |- context [throws b ?c] => destruct (throws b c)
          end; cbn -[Rplus Rdiv IZR]);
    try discriminate.
  intros _. apply JSMapFacts.get_delete.
Qed.

(** Creating a voice for a note that has none keeps the agreement, whether
    the creation succeeds or throws on the way. *)
Lemma createVoice_consistent (ctx : Handle) (noteId : string)
    (frequency : option R) (b : Browser) (s : AudioEngine) :
  consistent s -> JSMap.get (activeOscillators s) noteId = None ->
  consistent (snd (createVoice ctx noteId frequency b s)).
Proof.
  intros H Hget. run_engine.
  repeat (match goal with
          | |- context [throws b ?c] => destruct (throws b c)
          | |- context [masterGain s] => destruct (masterGain s)
          end; cbn -[Rplus Rdiv IZR]);
    after_calls;
    first [ assumption
          | apply match_quiet; [assumption | reflexivity]
          | apply (match_start _ _ [_; _; _; _; _; _; _; _]);
            [assumption | assumption | reflexivity | discriminate] ].
Qed.

Lemma stop_then_create_consistent (ctx : Handle) (noteId : string)
    (frequency : option R) :
  preserves consistent
    (stopNote noteId ;;
     try_catch (createVoice ctx noteId frequency)
       (fun error => log (console_error "Failed to play note:" error))).
Proof.
  intros b s H. unfold bind.
  pose proof (stopNote_consistent noteId b s H) as H1.
  pose proof (stopNote_returns_absent noteId b s) as Habs.
  destruct (stopNote noteId b s) as [[[] | e] s1]; cbn [fst snd] in *;
    [| exact H1].
  unfold try_catch.
  pose proof (createVoice_consistent ctx noteId frequency b s1 H1
                (Habs eq_refl)) as H2.
  destruct (createVoice ctx noteId frequency b s1) as [[[] | e] s2];
    cbn [fst snd] in *; [exact H2 |].
  now apply consistent_console.
Qed.

Lemma playNote_consistent (noteId : string) (frequency : option R) :
  preserves consistent (playNote noteId frequency).
Proof.
  rewrite playNote_unfold.
  apply preserves_bind; [keeps_consistent | intros init].
  apply preserves_bind;
    [destruct (negb init); [apply initialize_consistent | keeps_consistent] |
     intros _].
  apply preserves_bind; [keeps_consistent | intros [ctx |]];
    [| keeps_consistent].
  unfold playNote_with_context.
  apply preserves_bind; [keeps_consistent | intros susp].
  apply preserves_bind;
    [destruct susp; unfold sink_async; keeps_consistent | intros _].
  apply stop_then_create_consistent.
Qed.

Lemma stopAll_loop_preserves (P : AudioEngine -> Prop)
    (pending : list string) :
  (forall noteId, preserves P (stopNote noteId)) ->
  preserves P (stopAll_loop pending).
Proof.
  intros Hstop. induction pending as [| noteId rest IH]; cbn [stopAll_loop].
  - apply preserves_ret.
  - apply preserves_bind; [apply preserves_gets | intros voices].
    destruct (JSMap.get voices noteId); [| exact IH].
    apply preserves_bind; [apply Hstop | intros _; exact IH].
Qed.

Lemma run_op_consistent (op : Op) : preserves consistent (run_op op).
Proof.
  destruct op; cbn [run_op].
  - apply initialize_consistent.
  - apply setVolume_consistent.
  - apply setWaveform_consistent.
  - apply playNote_consistent.
  - apply stopNote_consistent.
  - unfold stopAllNotes.
    apply preserves_bind; [apply preserves_gets | intros voices].
    apply stopAll_loop_preserves, stopNote_consistent.
Qed.

(** X10. Whatever calls are made on a new engine, and whatever the browser
    lets succeed or throw, the oscillators that have been started and not
    told to stop are exactly the oscillators of the registered voices, in
    the same order: no oscillator sounds without a voice, no voice is
    registered on a silent or shared oscillator. *)
Theorem voices_are_the_sounding_oscillators (ops : list (Op * Browser)) :
  sounding (sinkCalls (run ops AudioEngine_new))
  = voice_oscillators (activeOscillators (run ops AudioEngine_new))
  /\ NoDup (voice_oscillators (activeOscillators (run ops AudioEngine_new))).
Proof.
  assert (H : forall s, consistent s -> consistent (run ops s)).
  { induction ops as [| [op b] rest IH]; intros s Hs; cbn [run].
    - exact Hs.
    - apply IH. now apply run_op_consistent. }
  destruct (H AudioEngine_new) as (Hs & _ & Ho & _).
  - repeat split; constructor.
  - split; assumption.
Qed.

(** ** Stopping every note *)

Lemma keys_delete_other {V : Type} (m : JSMap.t V) (k k' : string) :
  In k' (JSMap.keys (JSMap.delete m k)) -> k' <> k.
Proof.
  induction m as [| [k0 v0] m IH]; cbn; [tauto |].
  destruct (String.eqb_spec k0 k) as [-> | Hne]; cbn; [exact IH |].
  intros [<- | Hin]; [exact Hne | now apply IH].
Qed.

(** Deleting every key of a map, in any order and with repetitions, leaves
    the empty map. *)
Lemma delete_all_keys {V : Type} (pending : list string) :
  forall m : JSMap.t V,
    (forall k, In k (JSMap.keys m) -> In k pending) ->
    fold_left (@JSMap.delete V) pending m = [].
Proof.
  induction pending as [| k pending IH]; intros m Hm; cbn [fold_left].
  - destruct m as [| [k v] m]; [reflexivity |].
    exfalso. apply (Hm k). now left.
  - apply IH. intros k' Hin.
    pose proof (keys_delete_other m k k' Hin) as Hne.
    apply JSMapFacts.keys_delete in Hin. apply Hm in Hin.
    destruct Hin as [-> | Hin]; [congruence | exact Hin].
Qed.

Lemma stopAll_loop_working (b : Browser) (ctx : Handle)
    (pending : list string) :
  working b ->
  forall s : AudioEngine,
    audioContext s = Some ctx ->
    exists s' : AudioEngine,
      stopAll_loop pending b s = (Normal tt, s')
      /\ activeOscillators s'
         = fold_left (@JSMap.delete VoiceData) pending (activeOscillators s)
      /\ audioContext s' = Some ctx.
Proof.
  intros Hb. induction pending as [| noteId rest IH]; intros s Hctx.
  - exists s. repeat split. assumption.
  - cbn [stopAll_loop fold_left]. unfold bind at 1. unfold gets at 1.
    destruct (JSMap.get (activeOscillators s) noteId) as [old |] eqn:Hget.
    + destruct (stopNote_working noteId b s ctx Hb Hctx)
        as (s1 & extra & Hrun & Hv & _ & _ & Hc & _).
      unfold bind. rewrite Hrun.
      destruct (IH s1) as (s' & Hrun' & Hv' & Hc'); [congruence |].
      exists s'. rewrite Hrun'. repeat split; [| assumption].
      now rewrite Hv', Hv.
    + destruct (IH s Hctx) as (s' & Hrun' & Hv' & Hc').
      exists s'. rewrite Hrun'. repeat split; [| assumption].
      now rewrite Hv', delete_absent.
Qed.

(** X11. In a browser where the sink works, [stopAllNotes] on an engine
    that holds its context returns normally and leaves no voice
    registered; on any engine reached from a new one nothing is left
    sounding either. *)
Theorem stopAllNotes_silences (b : Browser) (s : AudioEngine)
    (ctx : Handle) :
  working b -> audioContext s = Some ctx ->
  fst (stopAllNotes b s) = Normal tt
  /\ activeOscillators (snd (stopAllNotes b s)) = []
  /\ getActiveNotes (snd (stopAllNotes b s)) = []
  /\ (consistent s -> sounding (sinkCalls (snd (stopAllNotes b s))) = []).
Proof.
  intros Hb Hctx.
  destruct (stopAll_loop_working b ctx (JSMap.keys (activeOscillators s))
              Hb s Hctx) as (s' & Hrun & Hv & _).
  assert (Hall : stopAllNotes b s = (Normal tt, s'))
    by (unfold stopAllNotes, bind, gets; exact Hrun).
  rewrite delete_all_keys in Hv by auto.
  rewrite Hall. cbn [fst snd]. unfold getActiveNotes. rewrite Hv.
  repeat split.
  intros Hs.
  assert (Hs' : consistent s').
  { replace s' with (snd (stopAllNotes b s)) by now rewrite Hall.
    apply (run_op_consistent OpStopAllNotes b s Hs). }
  destruct Hs' as (Hsound & _). now rewrite Hsound, Hv.
Qed.

(** One sounding note, then [stopAllNotes]. *)
Lemma stopAllNotes_silences_witness :
  fst (stopAllNotes (audio_ok 2) engine_playing_a) = Normal tt
  /\ activeOscillators (snd (stopAllNotes (audio_ok 2) engine_playing_a))
     = []
  /\ getActiveNotes (snd (stopAllNotes (audio_ok 2) engine_playing_a)) = []
  /\ (consistent engine_playing_a ->
      sounding (sinkCalls (snd (stopAllNotes (audio_ok 2) engine_playing_a)))
      = []).
Proof.
  apply (stopAllNotes_silences (audio_ok 2) engine_playing_a 0%nat).
  - intros c. reflexivity.
  - reflexivity.
Defined.

(** ** Notes do not disturb each other *)

Lemma get_delete_other {V : Type} (m : JSMap.t V) (k other : string) :
  other <> k -> JSMap.get (JSMap.delete m k) other = JSMap.get m other.
Proof.
  intros Hne. induction m as [| [k0 v0] m IH]; cbn; [reflexivity |].
  destruct (String.eqb_spec k0 k) as [-> | Hk].
  - rewrite IH. destruct (String.eqb_spec k other); [congruence | reflexivity].
  - cbn. now rewrite IH.
Qed.

Lemma get_set_other {V : Type} (m : JSMap.t V) (k other : string) (v : V) :
  other <> k -> JSMap.get (JSMap.set m k v) other = JSMap.get m other.
Proof.
  intros Hne. induction m as [| [k0 v0] m IH]; cbn.
  - destruct (String.eqb_spec k other); [congruence | reflexivity].
  - destruct (String.eqb_spec k0 k) as [-> | Hk]; cbn.
    + destruct (String.eqb_spec k other); [congruence | reflexivity].
    + now rewrite IH.
Qed.

Section Frame.

Variable voices : JSMap.t VoiceData.
Variable noteId : string.

Let P := others_as_in voices noteId.

Lemma others_delete (s : AudioEngine) :
  P s ->
  P (set_activeOscillators (JSMap.delete (activeOscillators s) noteId) s).
Proof.
  intros H other Hne. cbn. rewrite get_delete_other by assumption.
  now apply H.
Qed.

Lemma others_set (data : VoiceData) (s : AudioEngine) :
  P s ->
  P (set_activeOscillators (JSMap.set (activeOscillators s) noteId data) s).
Proof.
  intros H other Hne. cbn. rewrite get_set_other by assumption.
  now apply H.
Qed.

Ltac keeps_others :=
  repeat first
    [ apply preserves_ret
    | apply preserves_throw
    | apply preserves_gets
    | apply preserves_ask
    | apply preserves_quiet_sink; intros ? ?; assumption
    | apply preserves_modify; intros ? ?;
      first [ assumption | now apply others_delete | now apply others_set ]
    | apply preserves_bind; [| intros ?]
    | apply preserves_try_catch; [| intros ?]
    | match goal with
      | |- preserves _ (match ?x with _ => _ end) => destruct x
      end ].

Lemma stopNote_others : preserves P (stopNote noteId).
Proof. unfold stopNote. keeps_others. Qed.

Lemma playNote_others (frequency : option R) :
  preserves P (playNote noteId frequency).
Proof.
  unfold playNote, initialize, createVoice, sink_async, log.
  apply preserves_bind; [keeps_others | intros init].
  apply preserves_bind;
    [destruct (negb init); keeps_others | intros _].
  apply preserves_bind; [keeps_others | intros [ctx |]];
    [| keeps_others].
  apply preserves_bind; [keeps_others | intros susp].
  apply preserves_bind; [destruct susp; keeps_others | intros _].
  apply preserves_bind; [apply stopNote_others | intros _].
  keeps_others.
Qed.

End Frame.

(** X12. Playing or stopping one note never changes the voice registered
    for another note, whatever the browser does and however the call
    ends. *)
Theorem notes_are_independent (noteId other : string)
    (frequency : option R) (b : Browser) (s : AudioEngine) :
  other <> noteId ->
  JSMap.get (activeOscillators (snd (playNote noteId frequency b s))) other
  = JSMap.get (activeOscillators s) other
  /\ JSMap.get (activeOscillators (snd (stopNote noteId b s))) other
     = JSMap.get (activeOscillators s) other.
Proof.
  intros Hne. split.
  - apply (playNote_others (activeOscillators s) noteId frequency b s);
      [intros k _; reflexivity | assumption].
  - apply (stopNote_others (activeOscillators s) noteId b s);
      [intros k _; reflexivity | assumption].
Qed.

(** The sounding A is untouched by a B that fails to start. *)
Lemma notes_are_independent_witness :
  JSMap.get
    (activeOscillators
       (snd (playNote "b" (Some 494%R) no_oscillators engine_playing_a)))
    "a"
  = JSMap.get (activeOscillators engine_playing_a) "a"
  /\ JSMap.get
       (activeOscillators (snd (stopNote "b" no_oscillators engine_playing_a)))
       "a"
     = JSMap.get (activeOscillators engine_playing_a) "a".
Proof.
  apply (notes_are_independent "b" "a" (Some 494%R) no_oscillators
           engine_playing_a).
  discriminate.
Defined.

(** ** Stopping twice *)

(** X13. [stopNote] on a note without a voice changes nothing and does not
    throw, in any browser and even on an engine without a context; so a
    second [stopNote] after one that returned is always safe. *)
Theorem stopNote_twice (noteId : string) (b b' : Browser)
    (s : AudioEngine) :
  (JSMap.get (activeOscillators s) noteId = None ->
   stopNote noteId b s = (Normal tt, s))
  /\ (fst (stopNote noteId b s) = Normal tt ->
      stopNote noteId b' (snd (stopNote noteId b s))
      = (Normal tt, snd (stopNote noteId b s))).
Proof.
  split.
  - apply stopNote_absent.
  - intros H. apply stopNote_absent. now apply stopNote_returns_absent.
Qed.

(** A release on a new engine, which has neither voices nor context. *)
Lemma stopNote_twice_witness :
  stopNote "a" no_audio AudioEngine_new = (Normal tt, AudioEngine_new).
Proof.
  apply (proj1 (stopNote_twice "a" no_audio no_audio AudioEngine_new)).
  reflexivity.
Defined.

(** ** How [playNote] can end *)

(** Finds the calls appended by straight-line code. *)
Ltac calls_appended :=
  first [ exists []; now rewrite app_nil_r
        | eexists; rewrite <- ?app_assoc; reflexivity ].

Ltac call_recorded :=
  rewrite <- ?app_assoc; apply in_or_app; right; cbn [app In];
  repeat first [left; reflexivity | right].

Lemma initialize_outcome (b : Browser) (s : AudioEngine) :
  fst (initialize b s) = Normal tt
  /\ activeOscillators (snd (initialize b s)) = activeOscillators s
  /\ waveform (snd (initialize b s)) = waveform s
  /\ exists extra, sinkCalls (snd (initialize b s)) = sinkCalls s ++ extra.
Proof.
  run_engine. destruct (initialized s); cbn -[Rplus Rdiv IZR].
  - repeat split. calls_appended.
  - repeat (match goal with
            | |- context [throws b ?c] => destruct (throws b c)
            end; cbn -[Rplus Rdiv IZR]);
      repeat split; calls_appended.
Qed.

Lemma stopNote_outcome (noteId : string) (b : Browser) (s : AudioEngine) :
  (exists extra,
     sinkCalls (snd (stopNote noteId b s)) = sinkCalls s ++ extra)
  /\ waveform (snd (stopNote noteId b s)) = waveform s
  /\ ((exists e, fst (stopNote noteId b s) = Throw e)
      /\ activeOscillators (snd (stopNote noteId b s)) = activeOscillators s
      \/ fst (stopNote noteId b s) = Normal tt
         /\ activeOscillators (snd (stopNote noteId b s))
            = JSMap.delete (activeOscillators s) noteId).
Proof.
  run_engine.
  destruct (JSMap.get (activeOscillators s) noteId) as [old |] eqn:Hget;
    cbn -[Rplus Rdiv IZR].
  - destruct (audioContext s); cbn -[Rplus Rdiv IZR].
    + repeat (match goal with
              | |- context [throws b ?c] => destruct (throws b c)
              end; cbn -[Rplus Rdiv IZR]);
        (split; [calls_appended | split; [reflexivity |]]);
        first [ right; split; reflexivity
              | left; split; [eexists; reflexivity | reflexivity] ].
    + split; [calls_appended | split; [reflexivity |]].
      left. split; [eexists; reflexivity | reflexivity].
  - split; [calls_appended | split; [reflexivity |]].
    right. split; [reflexivity |]. symmetry. now apply delete_absent.
Qed.

Lemma createVoice_outcome (ctx : Handle) (noteId : string)
    (frequency : option R) (b : Browser) (s : AudioEngine) :
  (exists extra,
     sinkCalls (snd (createVoice ctx noteId frequency b s))
     = sinkCalls s ++ extra)
  /\ ((exists e, fst (createVoice ctx noteId frequency b s) = Throw e)
      /\ activeOscillators (snd (createVoice ctx noteId frequency b s))
         = activeOscillators s
      \/ fst (createVoice ctx noteId frequency b s) = Normal tt
         /\ (exists g,
               activeOscillators (snd (createVoice ctx noteId frequency b s))
               = JSMap.set (activeOscillators s) noteId
                   (mkVoice (List.length (sinkCalls s)) g frequency))
         /\ In (TypeSet (List.length (sinkCalls s)) (waveform s))
               (sinkCalls (snd (createVoice ctx noteId frequency b s)))
         /\ In (FrequencySetValueAtTime (List.length (sinkCalls s)) frequency
                                        (currentTime b))
               (sinkCalls (snd (createVoice ctx noteId frequency b s)))
         /\ In (Start (List.length (sinkCalls s)))
               (sinkCalls (snd (createVoice ctx noteId frequency b s)))).
Proof.
  run_engine.
  repeat (match goal with
          | |- context [throws b ?c] => destruct (throws b c)
          | |- context [masterGain s] => destruct (masterGain s)
          end; cbn -[Rplus Rdiv IZR]);
    (split; [calls_appended |]);
    first [ left; split; [eexists; reflexivity | reflexivity]
          | right; split; [reflexivity |];
            split; [eexists; reflexivity |];
            split; [call_recorded |];
            split; call_recorded ].
Qed.

Lemma playNote_with_context_outcome (ctx : Handle) (noteId : string)
    (frequency : option R) (b : Browser) (s : AudioEngine) :
  let r := fst (playNote_with_context ctx noteId frequency b s) in
  let s' := snd (playNote_with_context ctx noteId frequency b s) in
  (exists extra, sinkCalls s' = sinkCalls s ++ extra)
  /\ ((exists e, r = Throw e) /\ activeOscillators s' = activeOscillators s
      \/ r = Normal tt
         /\ activeOscillators s' = JSMap.delete (activeOscillators s) noteId
         /\ (exists e, In (console_error "Failed to play note:" e)
                          (console s'))
      \/ r = Normal tt
         /\ exists v : VoiceData,
              activeOscillators s'
              = JSMap.set (JSMap.delete (activeOscillators s) noteId)
                          noteId v
              /\ voiceFrequency v = frequency
              /\ (List.length (sinkCalls s) <= oscillator v)%nat
              /\ In (TypeSet (oscillator v) (waveform s)) (sinkCalls s')
              /\ In (FrequencySetValueAtTime (oscillator v) frequency
                                             (currentTime b))
                    (sinkCalls s')
              /\ In (Start (oscillator v)) (sinkCalls s')).
Proof.
  cbv zeta.
  set (s0 := if suspended b then add_sinkCall (Resume ctx) s else s).
  assert (Hs0 : activeOscillators s0 = activeOscillators s
                /\ waveform s0 = waveform s
                /\ exists pre, sinkCalls s0 = sinkCalls s ++ pre).
  { unfold s0. destruct (suspended b); cbn; repeat split; calls_appended. }
  destruct Hs0 as (Hv0 & Hw0 & pre & Hc0).
  assert (Hrun : playNote_with_context ctx noteId frequency b s
                 = (stopNote noteId ;;
                    try_catch (createVoice ctx noteId frequency)
                      (fun error =>
                         log (console_error "Failed to play note:" error)))
                     b s0).
  { unfold playNote_with_context. unfold bind at 1. unfold ask at 1.
    unfold bind at 1. unfold s0.
    now destruct (suspended b). }
  rewrite Hrun. clear Hrun. unfold bind.
  destruct (stopNote_outcome noteId b s0) as ((mid & Hc1) & Hw1 & Hstop).
  destruct (stopNote noteId b s0) as [r1 s1]. cbn [fst snd] in *.
  destruct Hstop as [((e & ->) & Hv1) | (-> & Hv1)].
  - cbn [fst snd]. split.
    + exists (pre ++ mid). now rewrite Hc1, Hc0, app_assoc.
    + left. split; [now exists e | congruence].
  - unfold try_catch.
    destruct (createVoice_outcome ctx noteId frequency b s1)
      as ((post & Hc2) & Hcreate).
    destruct (createVoice ctx noteId frequency b s1) as [r2 s2].
    cbn [fst snd] in *.
    assert (Hcalls : sinkCalls s2 = sinkCalls s ++ (pre ++ mid ++ post))
      by (rewrite Hc2, Hc1, Hc0; now rewrite <- !app_assoc).
    destruct Hcreate
      as [((e & ->) & Hv2) | (-> & (g & Hv2) & Htype & Hfreq & Hstart)].
    + cbn [fst snd log modify]. split; [eexists; exact Hcalls |].
      right. left. split; [reflexivity |]. split.
      * cbn. congruence.
      * exists e. cbn. apply in_or_app. right. now left.
    + cbn [fst snd]. split; [eexists; exact Hcalls |].
      right. right. split; [reflexivity |].
      eexists. split; [rewrite Hv2, Hv1, Hv0; reflexivity |].
      cbn [voiceFrequency oscillator]. rewrite Hw1, Hw0 in Htype.
      repeat split; try assumption.
      rewrite Hc1, Hc0, !length_app. lia.
Qed.

Lemma playNote_outcome_cases (noteId : string) (frequency : option R)
    (b : Browser) (s : AudioEngine) :
  let r := fst (playNote noteId frequency b s) in
  let s' := snd (playNote noteId frequency b s) in
  (exists extra, sinkCalls s' = sinkCalls s ++ extra)
  /\ ((exists e, r = Throw e) /\ activeOscillators s' = activeOscillators s
      \/ r = Normal tt
         /\ activeOscillators s' = JSMap.delete (activeOscillators s) noteId
         /\ (exists e, In (console_error "Failed to play note:" e)
                          (console s'))
      \/ r = Normal tt
         /\ exists v : VoiceData,
              activeOscillators s'
              = JSMap.set (JSMap.delete (activeOscillators s) noteId)
                          noteId v
              /\ voiceFrequency v = frequency
              /\ (List.length (sinkCalls s) <= oscillator v)%nat
              /\ In (TypeSet (oscillator v) (waveform s)) (sinkCalls s')
              /\ In (FrequencySetValueAtTime (oscillator v) frequency
                                             (currentTime b))
                    (sinkCalls s')
              /\ In (Start (oscillator v)) (sinkCalls s')).
Proof.
  cbv zeta.
  assert (Hinit : exists s0,
             (if negb (initialized s) then initialize else ret tt) b s
             = (Normal tt, s0)
             /\ activeOscillators s0 = activeOscillators s
             /\ waveform s0 = waveform s
             /\ exists pre, sinkCalls s0 = sinkCalls s ++ pre).
  { destruct (negb (initialized s)).
    - destruct (initialize_outcome b s) as (Hr & Hv & Hw & Hc).
      exists (snd (initialize b s)).
      destruct (initialize b s) as [r0 s0]. cbn [fst snd] in *.
      now subst r0.
    - exists s. repeat split. calls_appended. }
  destruct Hinit as (s0 & Hrun0 & Hv0 & Hw0 & pre & Hc0).
  assert (Heq : playNote noteId frequency b s
                = match audioContext s0 with
                  | Some ctx => playNote_with_context ctx noteId frequency b s0
                  | None =>
                      (Throw (TypeError "Cannot read properties of null"), s0)
                  end).
  { rewrite playNote_unfold. unfold bind at 1. unfold gets at 1.
    unfold bind at 1. rewrite Hrun0.
    unfold bind at 1. unfold gets at 1.
    now destruct (audioContext s0). }
  rewrite Heq. clear Heq.
  destruct (audioContext s0) as [ctx |].
  - destruct (playNote_with_context_outcome ctx noteId frequency b s0)
      as ((extra & Hc) & Hcases).
    rewrite Hv0, Hw0 in Hcases. split.
    + exists (pre ++ extra). now rewrite Hc, Hc0, app_assoc.
    + destruct Hcases as [H | [H | (Hr & v & Hv & Hf & Hosc & Hrest)]];
        [left; exact H | right; left; exact H |].
      right. right. split; [exact Hr |].
      exists v. repeat split; try tauto.
      rewrite Hc0, length_app in Hosc. lia.
  - cbn [fst snd throw]. split; [now exists pre |].
    left. split; [now eexists | exact Hv0].
Qed.

(** X14. However the browser behaves, [playNote] ends in one of three
    ways: it throws and leaves the map of voices as it was; or it returns
    with the note silent, its old voice removed and the failure logged; or
    it returns with a new voice for the note at the requested frequency,
    on an oscillator created during the call, which was given the engine's
    waveform and the frequency and was started.  Every call recorded before
    stays recorded. *)
Theorem playNote_outcomes (noteId : string) (frequency : option R)
    (b : Browser) (s : AudioEngine) :
  let r := fst (playNote noteId frequency b s) in
  let s' := snd (playNote noteId frequency b s) in
  (exists extra, sinkCalls s' = sinkCalls s ++ extra)
  /\ ((exists e, r = Throw e) /\ activeOscillators s' = activeOscillators s
      \/ r = Normal tt
         /\ activeOscillators s' = JSMap.delete (activeOscillators s) noteId
         /\ (exists e, In (console_error "Failed to play note:" e)
                          (console s'))
      \/ r = Normal tt
         /\ exists v : VoiceData,
              activeOscillators s'
              = JSMap.set (JSMap.delete (activeOscillators s) noteId)
                          noteId v
              /\ voiceFrequency v = frequency
              /\ (List.length (sinkCalls s) <= oscillator v)%nat
              /\ In (TypeSet (oscillator v) (waveform s)) (sinkCalls s')
              /\ In (FrequencySetValueAtTime (oscillator v) frequency
                                             (currentTime b))
                    (sinkCalls s')
              /\ In (Start (oscillator v)) (sinkCalls s')).
Proof.
  cbv zeta.
  destruct (playNote_outcome_cases noteId frequency b s)
    as (Hcalls & Hcases).
  split; [exact Hcalls | exact Hcases].
Qed.


(** ** Waveform and volume *)

Lemma forEach_TypeSet_working (w : string) (b : Browser) :
  working b ->
  forall (voices : JSMap.t VoiceData) (s : AudioEngine),
  exists s' : AudioEngine,
    forEach voices
      (fun data _ => sink (TypeSet (oscillator data) w) ;; ret tt) b s
    = (Normal tt, s')
    /\ sinkCalls s'
       = sinkCalls s ++ map (fun e => TypeSet (oscillator (snd e)) w) voices
    /\ activeOscillators s' = activeOscillators s
    /\ waveform s' = waveform s.
Proof.
  intros Hb. induction voices as [| [k v] voices IH]; intros s.
  - exists s. cbn. now rewrite app_nil_r.
  - cbn [forEach map snd]. unfold bind at 1. unfold bind at 1.
    unfold sink at 1. rewrite Hb. unfold ret at 1.
    destruct (IH (add_sinkCall (TypeSet (oscillator v) w) s))
      as (s' & Hrun & Hc & Hv & Hw).
    exists s'. rewrite Hrun. repeat split; try assumption.
    rewrite Hc. cbn [sinkCalls add_sinkCall]. now rewrite <- app_assoc.
Qed.

(** X15. In a browser where the sink works, [setWaveform] stores the
    waveform, leaves the voices registered as they are and sets the type of
    the oscillator of every registered voice, in the order of the map; and
    whatever the browser does afterwards, a voice that a later [playNote]
    registers is on an oscillator that was given the new waveform. *)
Theorem setWaveform_retunes (w : string) (b b' : Browser)
    (s : AudioEngine) :
  working b ->
  exists s' : AudioEngine,
    setWaveform w b s = (Normal tt, s')
    /\ waveform s' = w
    /\ activeOscillators s' = activeOscillators s
    /\ sinkCalls s'
       = sinkCalls s
         ++ map (fun e => TypeSet (oscillator (snd e)) w)
                (activeOscillators s)
    /\ (forall (noteId : string) (frequency : option R) (v : VoiceData),
          fst (playNote noteId frequency b' s') = Normal tt ->
          JSMap.get
            (activeOscillators (snd (playNote noteId frequency b' s')))
            noteId = Some v ->
          In (TypeSet (oscillator v) w)
             (sinkCalls (snd (playNote noteId frequency b' s')))).
Proof.
  intros Hb.
  destruct (forEach_TypeSet_working w b Hb (activeOscillators s)
              (set_waveform w s)) as (s' & Hrun & Hc & Hv & Hw).
  exists s'. split; [| split; [| split; [| split]]].
  - unfold setWaveform. unfold bind at 1. unfold modify at 1.
    unfold bind at 1. unfold gets at 1. exact Hrun.
  - exact Hw.
  - exact Hv.
  - exact Hc.
  - intros noteId frequency v Hnormal Hget.
    destruct (playNote_outcome_cases noteId frequency b' s')
      as (_ & [((e & He) & _) | [(_ & Hdel & _) | (_ & v' & Hset & _ & _
                                                    & Htype & _)]]).
    + rewrite He in Hnormal. discriminate Hnormal.
    + rewrite Hdel, JSMapFacts.get_delete in Hget. discriminate Hget.
    + rewrite Hset, JSMapFacts.get_set in Hget. injection Hget as <-.
      now rewrite Hw in Htype.
Qed.

(** Square waves on the A that is sounding. *)
Lemma setWaveform_retunes_witness :
  exists s' : AudioEngine,
    setWaveform "square" (audio_ok 1) engine_playing_a = (Normal tt, s')
    /\ waveform s' = "square"%string
    /\ activeOscillators s' = activeOscillators engine_playing_a
    /\ sinkCalls s'
       = sinkCalls engine_playing_a
         ++ map (fun e => TypeSet (oscillator (snd e)) "square")
                (activeOscillators engine_playing_a)
    /\ (forall (noteId : string) (frequency : option R) (v : VoiceData),
          fst (playNote noteId frequency no_oscillators s') = Normal tt ->
          JSMap.get
            (activeOscillators
               (snd (playNote noteId frequency no_oscillators s')))
            noteId = Some v ->
          In (TypeSet (oscillator v) "square")
             (sinkCalls (snd (playNote noteId frequency no_oscillators s')))).
Proof.
  apply (setWaveform_retunes "square" (audio_ok 1) no_oscillators
           engine_playing_a).
  intros c. reflexivity.
Defined.

Lemma initialize_applies_volume (b : Browser) (s : AudioEngine) :
  working b -> initialized s = false ->
  exists (s' : AudioEngine) (g : Handle),
    initialize b s = (Normal tt, s')
    /\ masterGain s' = Some g
    /\ initialized s' = true
    /\ In (GainValueSet g (volume s)) (sinkCalls s').
Proof.
  intros Hb Hinit.
  run_engine. rewrite Hinit. run_engine_with Hb.
  do 2 eexists. split; [reflexivity |].
  cbn -[Rplus Rdiv IZR]. repeat split. call_recorded.
Qed.

(** X16. [setVolume] stores the volume whatever the browser does; without
    a master gain it touches nothing else, with one it sets the gain to the
    value; and a volume set before the engine is initialised is the one
    that initialisation gives to the master gain it creates. *)
Theorem setVolume_applies (value : R) (b b' : Browser) (s : AudioEngine) :
  volume (snd (setVolume value b s)) = value
  /\ activeOscillators (snd (setVolume value b s)) = activeOscillators s
  /\ (masterGain s = None ->
      setVolume value b s = (Normal tt, set_volume value s))
  /\ (forall g : Handle,
        masterGain s = Some g -> throws b (GainValueSet g value) = false ->
        fst (setVolume value b s) = Normal tt
        /\ sinkCalls (snd (setVolume value b s))
           = sinkCalls s ++ [GainValueSet g value])
  /\ (initialized s = false -> working b' ->
      exists g : Handle,
        masterGain (snd (initialize b' (snd (setVolume value b s))))
        = Some g
        /\ In (GainValueSet g value)
              (sinkCalls (snd (initialize b' (snd (setVolume value b s)))))).
Proof.
  assert (Hfields : volume (snd (setVolume value b s)) = value
                    /\ activeOscillators (snd (setVolume value b s))
                       = activeOscillators s
                    /\ initialized (snd (setVolume value b s))
                       = initialized s).
  { unfold setVolume, bind, modify, gets, sink, ret.
    cbn -[Rplus Rdiv IZR].
    destruct (masterGain s) as [g |]; cbn -[Rplus Rdiv IZR];
      [destruct (throws b (GainValueSet g value)) |]; repeat split. }
  destruct Hfields as (Hvol & Hvoices & Hinit).
  split; [exact Hvol |]. split; [exact Hvoices |]. split; [| split].
  - intros Hm. unfold setVolume, bind, modify, gets, ret.
    cbn -[Rplus Rdiv IZR]. now rewrite Hm.
  - intros g Hm Hok. unfold setVolume, bind, modify, gets, sink, ret.
    cbn -[Rplus Rdiv IZR]. rewrite Hm. cbn -[Rplus Rdiv IZR].
    rewrite Hok. split; reflexivity.
  - intros Hnot Hb'.
    destruct (initialize_applies_volume b' (snd (setVolume value b s)) Hb')
      as (s' & g & Hrun & Hm & _ & Hin); [congruence |].
    exists g. rewrite Hrun. cbn [snd]. split; [exact Hm |].
    now rewrite Hvol in Hin.
Qed.

(** The slider moved to 80 percent before the first touch. *)
Lemma setVolume_applies_witness :
  setVolume (8 / 10) no_audio AudioEngine_new
  = (Normal tt, set_volume (8 / 10) AudioEngine_new)
  /\ exists g : Handle,
       masterGain
         (snd (initialize (audio_ok 0)
                 (snd (setVolume (8 / 10) no_audio AudioEngine_new))))
       = Some g
       /\ In (GainValueSet g (8 / 10))
             (sinkCalls
                (snd (initialize (audio_ok 0)
                        (snd (setVolume (8 / 10) no_audio
                                        AudioEngine_new))))).
Proof.
  pose proof (setVolume_applies (8 / 10) no_audio (audio_ok 0)
                AudioEngine_new) as (_ & _ & Hnone & _ & Hinit).
  split.
  - apply Hnone. reflexivity.
  - apply Hinit; [reflexivity | intros c; reflexivity].
Defined.

(** ** One audio context *)

Lemma preserves_gets_bind {A B : Type} (P : AudioEngine -> Prop)
    (g : AudioEngine -> A) (f : A -> M B) :
  (forall b s, P s -> P (snd (f (g s) b s))) ->
  preserves P (bind (gets g) f).
Proof. intros H b s Hs. unfold bind, gets. now apply H. Qed.

Lemma contexts_after_call (c : SinkCall) (s : AudioEngine) :
  contexts_constructed (add_sinkCall c s)
  = (contexts_constructed s
     + match c with NewAudioContext => 1 | _ => 0 end)%nat.
Proof.
  unfold contexts_constructed. cbn [sinkCalls add_sinkCall].
  rewrite map_app, count_occ_app. f_equal. now destruct c.
Qed.

Section OneContext.

Variable n : nat.

Let P := initialized_with n.

Lemma initialized_after_call (c : SinkCall) (s : AudioEngine) :
  match c with NewAudioContext => false | _ => true end = true ->
  P s -> P (add_sinkCall c s).
Proof.
  intros Hc [Hi Hn]. split; [exact Hi |].
  rewrite contexts_after_call, Hn. destruct c; try discriminate; lia.
Qed.

Ltac stays_initialized :=
  repeat first
    [ apply preserves_ret
    | apply preserves_throw
    | apply preserves_gets
    | apply preserves_ask
    | apply preserves_quiet_sink; intros ? ?;
      apply initialized_after_call; [reflexivity | assumption]
    | apply preserves_modify; intros ? ?;
      first [ assumption
            | apply initialized_after_call; [reflexivity | assumption] ]
    | apply preserves_bind; [| intros ?]
    | apply preserves_try_catch; [| intros ?]
    | match goal with
      | |- preserves _ (match ?x with _ => _ end) => destruct x
      end ].

Lemma initialize_stays : preserves P initialize.
Proof.
  unfold initialize. apply preserves_gets_bind. intros b s [Hi Hn].
  rewrite Hi. split; assumption.
Qed.

Lemma stopNote_stays (noteId : string) : preserves P (stopNote noteId).
Proof. unfold stopNote. stays_initialized. Qed.

Lemma playNote_stays (noteId : string) (frequency : option R) :
  preserves P (playNote noteId frequency).
Proof.
  unfold playNote. apply preserves_gets_bind. intros b s Hs.
  destruct Hs as [Hi Hn]. rewrite Hi. cbn [negb].
  revert b s Hi Hn.
  assert (Hrest : preserves P
            (ret tt ;;
             ctx <- gets audioContext ;;
             match ctx with
             | None => throw (TypeError "Cannot read properties of null")
             | Some ctx =>
                 susp <- ask suspended ;;
                 (if susp then sink_async (Resume ctx) else ret tt) ;;
                 stopNote noteId ;;
                 try_catch (createVoice ctx noteId frequency)
                   (fun error =>
                      log (console_error "Failed to play note:" error))
             end)).
  { unfold createVoice, sink_async, log.
    apply preserves_bind; [stays_initialized | intros _].
    apply preserves_bind; [stays_initialized | intros [ctx |]];
      [| stays_initialized].
    apply preserves_bind; [stays_initialized | intros susp].
    apply preserves_bind; [destruct susp; stays_initialized | intros _].
    apply preserves_bind; [apply stopNote_stays | intros _].
    stays_initialized. }
  intros b s Hi Hn. apply Hrest. split; assumption.
Qed.

Lemma run_op_stays (op : Op) : preserves P (run_op op).
Proof.
  destruct op; cbn [run_op].
  - apply initialize_stays.
  - unfold setVolume. stays_initialized.
  - unfold setWaveform.
    apply preserves_bind; [stays_initialized | intros _].
    apply preserves_bind; [stays_initialized | intros voices].
    apply forEach_preserves. intros v k. stays_initialized.
  - apply playNote_stays.
  - apply stopNote_stays.
  - unfold stopAllNotes.
    apply preserves_bind; [apply preserves_gets | intros voices].
    apply stopAll_loop_preserves, stopNote_stays.
Qed.

End OneContext.

(** X17. Once the engine is initialised it stays initialised, and no later
    call constructs another audio context, whatever the calls are and
    whatever the browser does. *)
Theorem one_context_once_initialized (ops : list (Op * Browser))
    (s : AudioEngine) :
  initialized s = true ->
  initialized (run ops s) = true
  /\ contexts_constructed (run ops s) = contexts_constructed s.
Proof.
  intros Hi.
  assert (H : forall s', initialized_with (contexts_constructed s) s' ->
                         initialized_with (contexts_constructed s)
                                          (run ops s')).
  { induction ops as [| [op b] rest IH]; intros s' Hs'; cbn [run].
    - exact Hs'.
    - apply IH. now apply run_op_stays. }
  apply H. split; [exact Hi | reflexivity].
Qed.

(** A second key press, then everything is stopped: still one context. *)
Lemma one_context_once_initialized_witness :
  initialized
    (run [(OpPlayNote "b" (Some 494%R), audio_ok 1);
          (OpStopAllNotes, audio_ok 2)] engine_playing_a) = true
  /\ contexts_constructed
       (run [(OpPlayNote "b" (Some 494%R), audio_ok 1);
             (OpStopAllNotes, audio_ok 2)] engine_playing_a)
     = contexts_constructed engine_playing_a.
Proof.
  apply (one_context_once_initialized
           [(OpPlayNote "b" (Some 494%R), audio_ok 1);
            (OpStopAllNotes, audio_ok 2)] engine_playing_a).
  reflexivity.
Defined.

(** ** Press and release *)

Lemma delete_appended {V : Type} (m : JSMap.t V) (k : string) (v : V) :
  JSMap.get m k = None -> JSMap.delete (m ++ [(k, v)]) k = m.
Proof.
  induction m as [| [k' v'] m IH]; cbn.
  - intros _. now rewrite String.eqb_refl.
  - destruct (String.eqb k' k); [discriminate |].
    intros H. now rewrite IH.
Qed.

(** X18. In a browser where the sink works, pressing a note that has no
    voice adds it at the end of the list of active notes with the
    frequency given, and releasing it gives back the list as it was
    before. *)
Theorem press_then_release (noteId : string) (frequency : option R)
    (b b' : Browser) (s : AudioEngine) :
  working b -> working b' -> initialized_has_sink s ->
  JSMap.get (activeOscillators s) noteId = None ->
  let s1 := snd (playNote noteId frequency b s) in
  let s2 := snd (stopNote noteId b' s1) in
  fst (playNote noteId frequency b s) = Normal tt
  /\ getActiveNotes s1 = getActiveNotes s ++ [(noteId, frequency)]
  /\ fst (stopNote noteId b' s1) = Normal tt
  /\ activeOscillators s2 = activeOscillators s
  /\ getActiveNotes s2 = getActiveNotes s.
Proof.
  intros Hb Hb' Hinv Hget. cbv zeta.
  destruct (playNote_working noteId frequency b s Hb Hinv)
    as (s1 & v & extra & Hrun & Hv & Hf & _ & _ & _ & Hinv1).
  rewrite Hrun. cbn [fst snd].
  rewrite delete_absent, set_absent in Hv by assumption.
  assert (Hctx : exists ctx, audioContext s1 = Some ctx).
  { destruct (initialized s) eqn:Hi.
    - destruct (Hinv Hi) as (ctx & m & Hc & Hm).
      revert Hrun. rewrite playNote_unfold.
      unfold bind at 1. unfold gets at 1. rewrite Hi. cbn [negb].
      unfold bind at 1. unfold ret at 1.
      unfold bind at 1. unfold gets at 1. rewrite Hc. intros Hrun.
      destruct (playNote_with_context_working ctx noteId frequency b s ctx m
                  Hb Hc Hm)
        as (s1' & _ & _ & Hrun' & _ & _ & _ & _ & _ & Hc' & _).
      rewrite Hrun' in Hrun. injection Hrun as <-.
      exists ctx. congruence.
    - destruct (initialize_working b s Hb Hi)
        as (s0 & pre & Hrun0 & Hi0 & Hc0 & Hm0 & _ & _).
      revert Hrun. rewrite playNote_unfold.
      unfold bind at 1. unfold gets at 1. rewrite Hi. cbn [negb].
      unfold bind at 1. rewrite Hrun0.
      unfold bind at 1. unfold gets at 1. rewrite Hc0. intros Hrun.
      destruct (playNote_with_context_working
                  (List.length (sinkCalls s)) noteId frequency b s0 _ _
                  Hb Hc0 Hm0)
        as (s1' & _ & _ & Hrun' & _ & _ & _ & _ & _ & Hc' & _).
      rewrite Hrun' in Hrun. injection Hrun as <-.
      eexists. rewrite Hc'. exact Hc0. }
  destruct Hctx as (ctx & Hctx).
  destruct (stopNote_working noteId b' s1 ctx Hb' Hctx)
    as (s2 & extra' & Hrun2 & Hv2 & _).
  rewrite Hrun2. cbn [fst snd].
  assert (Hback : activeOscillators s2 = activeOscillators s)
    by (rewrite Hv2, Hv; now apply delete_appended).
  unfold getActiveNotes. rewrite Hback, Hv, map_app. cbn [map fst snd].
  rewrite Hf. repeat split.
Qed.

(** A B pressed and released while the A keeps sounding. *)
Lemma press_then_release_witness :
  let s1 := snd (playNote "b" (Some 494%R) (audio_ok 1) engine_playing_a) in
  let s2 := snd (stopNote "b" (audio_ok 2) s1) in
  fst (playNote "b" (Some 494%R) (audio_ok 1) engine_playing_a) = Normal tt
  /\ getActiveNotes s1
     = getActiveNotes engine_playing_a ++ [("b"%string, Some 494%R)]
  /\ fst (stopNote "b" (audio_ok 2) s1) = Normal tt
  /\ activeOscillators s2 = activeOscillators engine_playing_a
  /\ getActiveNotes s2 = getActiveNotes engine_playing_a.
Proof.
  apply (press_then_release "b" (Some 494%R) (audio_ok 1) (audio_ok 2)
           engine_playing_a).
  - intros c. reflexivity.
  - intros c. reflexivity.
  - intros _. exists 0%nat, 1%nat. split; reflexivity.
  - reflexivity.
Defined.

(** ** When [playNote] returns *)

Lemma initialize_keeps_context (b : Browser) (s : AudioEngine)
    (ctx : Handle) :
  audioContext s = Some ctx ->
  exists ctx', audioContext (snd (initialize b s)) = Some ctx'.
Proof.
  intros Hctx. run_engine. destruct (initialized s); cbn -[Rplus Rdiv IZR].
  - now exists ctx.
  - repeat (match goal with
            | |- context [throws b ?c] => destruct (throws b c)
            end; cbn -[Rplus Rdiv IZR]);
      eexists; first [exact Hctx | reflexivity].
Qed.

(** X19. [playNote] throws only for want of a context or because the
    release of the old voice throws: on an engine that holds a context, if
    the note has no voice or the sink accepts the release of its voice,
    the call returns normally, whatever else the browser lets fail. *)
Theorem playNote_returns (noteId : string) (frequency : option R)
    (b : Browser) (s : AudioEngine) (ctx : Handle) :
  audioContext s = Some ctx ->
  (forall old : VoiceData,
     JSMap.get (activeOscillators s) noteId = Some old -> releases b old) ->
  fst (playNote noteId frequency b s) = Normal tt.
Proof.
  intros Hctx Hrel.
  assert (Hinit : exists s0 ctx0,
             (if negb (initialized s) then initialize else ret tt) b s
             = (Normal tt, s0)
             /\ activeOscillators s0 = activeOscillators s
             /\ audioContext s0 = Some ctx0).
  { destruct (negb (initialized s)).
    - destruct (initialize_outcome b s) as (Hr & Hv & _).
      destruct (initialize_keeps_context b s ctx Hctx) as (ctx0 & Hc).
      exists (snd (initialize b s)), ctx0.
      destruct (initialize b s) as [r0 s0]. cbn [fst snd] in *.
      now subst r0.
    - now exists s, ctx. }
  destruct Hinit as (s0 & ctx0 & Hrun0 & Hv0 & Hc0).
  rewrite playNote_unfold. unfold bind at 1. unfold gets at 1.
  unfold bind at 1. rewrite Hrun0.
  unfold bind at 1. unfold gets at 1. rewrite Hc0.
  unfold playNote_with_context. unfold bind at 1. unfold ask at 1.
  unfold bind at 1.
  set (s1 := if suspended b then add_sinkCall (Resume ctx0) s0 else s0).
  replace ((if suspended b then sink_async (Resume ctx0) else ret tt) b s0)
    with (Normal tt, s1) by (unfold s1; now destruct (suspended b)).
  assert (Hs1 : activeOscillators s1 = activeOscillators s
                /\ audioContext s1 = Some ctx0)
    by (unfold s1; destruct (suspended b); cbn; split; congruence).
  destruct Hs1 as (Hv1 & Hc1).
  assert (Hstop : exists s2, stopNote noteId b s1 = (Normal tt, s2)).
  { destruct (JSMap.get (activeOscillators s1) noteId) as [old |] eqn:Hget.
    - destruct (stopNote_releases noteId b s1 old ctx0 Hget Hc1)
        as (s2 & Hrun & _); [apply Hrel; congruence |].
      now exists s2.
    - exists s1. now apply stopNote_absent. }
  destruct Hstop as (s2 & Hrun2).
  unfold bind. rewrite Hrun2. unfold try_catch.
  now destruct (createVoice ctx0 noteId frequency b s2) as [[[] | e] s3].
Qed.

(** A key press in a browser that refuses to create oscillators. *)
Lemma playNote_returns_witness :
  fst (playNote "b" (Some 494%R) no_oscillators engine_playing_a)
  = Normal tt.
Proof.
  apply (playNote_returns "b" (Some 494%R) no_oscillators engine_playing_a
           0%nat).
  - reflexivity.
  - intros old Hold. discriminate Hold.
Defined.

(** A refused frequency ends the [try] block of [playNote] in its
    [catch]. *)
Lemma createVoice_refused (ctx : Handle) (noteId : string)
    (frequency : option R) (b : Browser) (s : AudioEngine) :
  refuses b frequency ->
  exists e : Error, fst (createVoice ctx noteId frequency b s) = Throw e.
Proof.
  intros Href. run_engine.
  repeat (match goal with
          | |- context [throws b (FrequencySetValueAtTime ?o ?f ?t)] =>
              rewrite (Href o t)
          | |- context [throws b ?c] => destruct (throws b c)
          end; cbn -[Rplus Rdiv IZR]);
    eexists; reflexivity.
Qed.

(** [playNote] with a frequency that the browser refuses never registers
    a voice for a note that had none. *)
Lemma playNote_refused (noteId : string) (frequency : option R)
    (b : Browser) (s : AudioEngine) :
  refuses b frequency ->
  JSMap.get (activeOscillators s) noteId = None ->
  JSMap.get (activeOscillators (snd (playNote noteId frequency b s))) noteId
  = None.
Proof.
  intros Href Hget.
  assert (Hinit : exists s0,
             (if negb (initialized s) then initialize else ret tt) b s
             = (Normal tt, s0)
             /\ activeOscillators s0 = activeOscillators s).
  { destruct (negb (initialized s)).
    - destruct (initialize_outcome b s) as (Hr & Hv & _).
      exists (snd (initialize b s)).
      destruct (initialize b s) as [r0 s0]. cbn [fst snd] in *.
      now subst r0.
    - now exists s. }
  destruct Hinit as (s0 & Hrun0 & Hv0).
  assert (Heq : playNote noteId frequency b s
                = match audioContext s0 with
                  | Some ctx => playNote_with_context ctx noteId frequency b s0
                  | None =>
                      (Throw (TypeError "Cannot read properties of null"), s0)
                  end).
  { rewrite playNote_unfold. unfold bind at 1. unfold gets at 1.
    unfold bind at 1. rewrite Hrun0.
    unfold bind at 1. unfold gets at 1.
    now destruct (audioContext s0). }
  rewrite Heq. clear Heq.
  destruct (audioContext s0) as [ctx |]; [| cbn [snd]; congruence].
  set (s1 := if suspended b then add_sinkCall (Resume ctx) s0 else s0).
  assert (Hv1 : activeOscillators s1 = activeOscillators s)
    by (unfold s1; now destruct (suspended b)).
  assert (Hrun : playNote_with_context ctx noteId frequency b s0
                 = (stopNote noteId ;;
                    try_catch (createVoice ctx noteId frequency)
                      (fun error =>
                         log (console_error "Failed to play note:" error)))
                     b s1).
  { unfold playNote_with_context. unfold bind at 1. unfold ask at 1.
    unfold bind at 1. unfold s1.
    now destruct (suspended b). }
  rewrite Hrun. clear Hrun. unfold bind.
  rewrite stopNote_absent by congruence. unfold try_catch.
  destruct (createVoice_refused ctx noteId frequency b s1 Href) as [e He].
  destruct (createVoice_throws ctx noteId frequency b s1 e He)
    as (Hv2 & _).
  destruct (createVoice ctx noteId frequency b s1) as [r2 s2].
  cbn [fst snd] in *. subst r2. cbn. congruence.
Qed.

(** * Properties of the page *)

(** [playNote] where the sink works leaves the engine initialised. *)
Lemma playNote_working_ready (noteId : string) (frequency : option R)
    (b : Browser) (s : AudioEngine) :
  working b -> initialized_has_sink s ->
  exists (s' : AudioEngine) (v : VoiceData),
    playNote noteId frequency b s = (Normal tt, s')
    /\ activeOscillators s'
       = JSMap.set (JSMap.delete (activeOscillators s) noteId) noteId v
    /\ voiceFrequency v = frequency
    /\ initialized s' = true
    /\ exists ctx m : Handle,
         audioContext s' = Some ctx /\ masterGain s' = Some m.
Proof.
  intros Hb Hinv. rewrite playNote_unfold.
  unfold bind at 1. unfold gets at 1.
  destruct (initialized s) eqn:Hi; cbn [negb].
  - destruct (Hinv Hi) as (ctx & m & Hc & Hm).
    unfold bind at 1. unfold ret at 1.
    unfold bind at 1. unfold gets at 1. rewrite Hc.
    destruct (playNote_with_context_working ctx noteId frequency b s ctx m
                Hb Hc Hm)
      as (s' & v & _ & Hrun & Hv & Hf & _ & _ & _ & Hc' & Hm' & Hi').
    exists s', v. repeat split; try assumption; [congruence |].
    exists ctx, m. split; congruence.
  - destruct (initialize_working b s Hb Hi)
      as (s0 & pre & Hrun0 & Hi0 & Hc0 & Hm0 & Hv0 & _).
    unfold bind at 1. rewrite Hrun0.
    unfold bind at 1. unfold gets at 1. rewrite Hc0.
    destruct (playNote_with_context_working
                (List.length (sinkCalls s)) noteId frequency b s0 _ _
                Hb Hc0 Hm0)
      as (s' & v & _ & Hrun & Hv & Hf & _ & _ & _ & Hc' & Hm' & Hi').
    exists s', v. repeat split; try assumption; [congruence | congruence |].
    do 2 eexists. split; [rewrite Hc' | rewrite Hm']; eassumption.
Qed.

Module RouterFacts.

Import Router.

Lemma TouchId_eqb_eq (a b : TouchId) : TouchId_eqb a b = true <-> a = b.
Proof.
  destruct a as [i |], b as [j |]; cbn; try (split; congruence).
  rewrite Z.eqb_eq. split; congruence.
Qed.

Lemma touches_set_In (m : Touches) (t t' : TouchId) (k k' : string) :
  In (t', k') (touches_set m t k) -> (t', k') = (t, k) \/ In (t', k') m.
Proof.
  induction m as [| [t0 k0] m IH]; cbn.
  - intuition.
  - destruct (TouchId_eqb t0 t); cbn; intuition.
Qed.

Lemma touches_set_get (m : Touches) (t : TouchId) (k : string) :
  touches_get (touches_set m t k) t = Some k.
Proof.
  assert (Hrefl : TouchId_eqb t t = true) by now apply TouchId_eqb_eq.
  induction m as [| [t0 k0] m IH]; cbn.
  - now rewrite Hrefl.
  - destruct (TouchId_eqb t0 t) eqn:E; cbn.
    + now rewrite Hrefl.
    + now rewrite E.
Qed.

Lemma touches_release_In (m : Touches) (t : TouchId) (k k' : string) :
  In (t, k') (touches_release m k) <-> In (t, k') m /\ k' <> k.
Proof.
  unfold touches_release. rewrite filter_In. cbn [snd].
  destruct (String.eqb_spec k' k); cbn; intuition congruence.
Qed.

Lemma engine_run {A : Type} (m : M A) (b : Browser) (p : Page) :
  engine m b p
  = (fst (m b (audioEngine p)), set_engine (snd (m b (audioEngine p))) p).
Proof. unfold engine. now destruct (m b (audioEngine p)). Qed.

(** [stopKey] in any browser: the touches of the key are gone, whether
    the release of the voice succeeds or throws. *)
Lemma stopKey_touches (el : KeyElement) (b : Browser) (p : Page) :
  activeTouches (snd (stopKey el b p))
  = touches_release (activeTouches p) (elementId el).
Proof.
  unfold stopKey, pbind, pmodify. cbn [fst snd]. rewrite engine_run.
  now destruct (fst (stopNote (elementId el) b
                       (audioEngine (set_touches _ p)))) as [[] | e].
Qed.

Lemma new_or_ready_has_sink (s : AudioEngine) :
  engine_new_or_ready s -> initialized_has_sink s.
Proof.
  intros [[Hi _] | [_ H]] Hinit; [congruence | exact H].
Qed.

(** [stopNote] where the sink works, on an engine that is new or ready. *)
Lemma stopNote_new_or_ready (noteId : string) (b : Browser)
    (s : AudioEngine) :
  working b -> engine_new_or_ready s ->
  exists s' : AudioEngine,
    stopNote noteId b s = (Normal tt, s')
    /\ activeOscillators s' = JSMap.delete (activeOscillators s) noteId
    /\ engine_new_or_ready s'.
Proof.
  intros Hb [[Hi Hv] | [Hi (ctx & m & Hc & Hm)]].
  - exists s. rewrite stopNote_absent by now rewrite Hv.
    rewrite Hv. repeat split. left. now split.
  - destruct (stopNote_working noteId b s ctx Hb Hc)
      as (s' & extra & Hrun & Hv' & _ & _ & Hc' & Hm' & Hi').
    exists s'. repeat split; try assumption.
    right. split; [congruence |]. exists ctx, m. split; congruence.
Qed.

Lemma playKey_well_behaved (el : KeyElement) (t : TouchId) :
  well_behaved (playKey el t).
Proof.
  intros b p Hb [Hengine Hbound].
  unfold playKey, pbind, pmodify. cbn [fst snd]. rewrite engine_run.
  change (audioEngine (set_touches _ p)) with (audioEngine p).
  destruct (playNote_working_ready (elementId el) (datasetFrequency el) b
              (audioEngine p) Hb (new_or_ready_has_sink _ Hengine))
    as (s' & v & Hrun & Hv & _ & Hi & Hsink).
  rewrite Hrun. cbn [fst snd]. split; [reflexivity |]. split.
  - right. split; assumption.
  - intros t' k' Hin. cbn in Hin. cbn [audioEngine set_active set_keyboard
      set_engine]. rewrite Hv.
    apply touches_set_In in Hin. destruct Hin as [[= -> ->] | Hin].
    + exists v. apply JSMapFacts.get_set.
    + destruct (String.eqb_spec k' (elementId el)) as [-> | Hne].
      * exists v. apply JSMapFacts.get_set.
      * rewrite get_set_other, get_delete_other by assumption.
        now apply (Hbound t').
Qed.

Lemma stopKey_well_behaved (el : KeyElement) : well_behaved (stopKey el).
Proof.
  intros b p Hb [Hengine Hbound].
  unfold stopKey, pbind, pmodify. cbn [fst snd]. rewrite engine_run.
  change (audioEngine (set_touches _ p)) with (audioEngine p).
  destruct (stopNote_new_or_ready (elementId el) b (audioEngine p) Hb
              Hengine) as (s' & Hrun & Hv & Hengine').
  rewrite Hrun. cbn [fst snd]. split; [reflexivity |]. split.
  - exact Hengine'.
  - intros t' k' Hin. cbn in Hin. cbn [audioEngine set_active set_keyboard
      set_engine]. rewrite Hv.
    apply touches_release_In in Hin. destruct Hin as [Hin Hne].
    rewrite get_delete_other by assumption. now apply (Hbound t').
Qed.

Lemma pret_well_behaved : well_behaved (pret tt).
Proof. intros b p _ H. now split. Qed.

Lemma pbind_well_behaved (m : PM unit) (f : unit -> PM unit) :
  well_behaved m -> (forall a, well_behaved (f a)) ->
  well_behaved (pbind m f).
Proof.
  intros Hm Hf b p Hb Hp. unfold pbind.
  destruct (Hm b p Hb Hp) as [Hr Hp'].
  destruct (m b p) as [[[] | e] p']; cbn [fst snd] in *;
    [| discriminate Hr].
  now apply Hf.
Qed.

Lemma stop_key_of_well_behaved (keyId : option string) :
  well_behaved (stop_key_of keyId).
Proof.
  intros b p Hb Hp. unfold stop_key_of.
  destruct (truthy_id keyId) as [k |]; [| now split].
  destruct (getElementById p k) as [el |]; [| now split].
  now apply stopKey_well_behaved.
Qed.

Lemma for_each_touch_well_behaved (body : TouchPoint -> PM unit)
    (touches : list TouchPoint) :
  (forall touch, well_behaved (body touch)) ->
  well_behaved (for_each_touch touches body).
Proof.
  intros Hbody. induction touches as [| touch rest IH]; cbn [for_each_touch].
  - apply pret_well_behaved.
  - apply pbind_well_behaved; [apply Hbody | intros _; exact IH].
Qed.

Lemma handleTouchStart_well_behaved (touches : list TouchPoint) :
  well_behaved (handleTouchStart touches).
Proof.
  apply for_each_touch_well_behaved. intros touch b p Hb Hp.
  destruct (key_under p touch) as [el |]; [| now split].
  now apply playKey_well_behaved.
Qed.

Lemma handleTouchEnd_well_behaved (touches : list TouchPoint) :
  well_behaved (handleTouchEnd touches).
Proof.
  apply for_each_touch_well_behaved. intros touch b p Hb Hp.
  unfold stopKeyByTouch. now apply stop_key_of_well_behaved.
Qed.

Lemma handleTouchMove_well_behaved (touches : list TouchPoint) :
  well_behaved (handleTouchMove touches).
Proof.
  apply for_each_touch_well_behaved. intros touch b p Hb Hp.
  cbv beta zeta.
  destruct (key_under p touch) as [el |].
  - match goal with
    | |- context [if ?c then _ else _] => destruct c
    end; [now split |].
    apply pbind_well_behaved; try assumption.
    + apply stop_key_of_well_behaved.
    + intros _. apply playKey_well_behaved.
  - now apply stop_key_of_well_behaved.
Qed.

(** Takes apart engine code that leaves the fields in question alone. *)
Ltac keeps_by_conversion :=
  repeat first
    [ apply preserves_ret
    | apply preserves_throw
    | apply preserves_gets
    | apply preserves_ask
    | apply preserves_quiet_sink; intros ? ?; assumption
    | apply preserves_modify; intros ? ?; assumption
    | apply preserves_bind; [| intros ?]
    | apply preserves_try_catch; [| intros ?]
    | match goal with
      | |- preserves _ (match ?x with _ => _ end) => destruct x
      end ].

Lemma controls_keep_engine (P : AudioEngine -> Prop) :
  (forall c s, P s -> P (add_sinkCall c s)) ->
  (forall v s, P s -> P (set_volume v s)) ->
  (forall w s, P s -> P (set_waveform w s)) ->
  (forall value, preserves P (setVolume value))
  /\ (forall w, preserves P (setWaveform w)).
Proof.
  intros Hsink Hvol Hwave. split.
  - intros value. unfold setVolume.
    apply preserves_bind; [apply preserves_modify; apply Hvol | intros _].
    apply preserves_bind; [apply preserves_gets | intros [g |]];
      [| apply preserves_ret].
    apply preserves_bind; [| intros _; apply preserves_ret].
    apply preserves_quiet_sink. apply Hsink.
  - intros w. unfold setWaveform.
    apply preserves_bind; [apply preserves_modify; apply Hwave | intros _].
    apply preserves_bind; [apply preserves_gets | intros voices].
    apply forEach_preserves. intros v k.
    apply preserves_bind; [| intros _; apply preserves_ret].
    apply preserves_quiet_sink. apply Hsink.
Qed.

Lemma controls_keep_page_ok (b : Browser) (p : Page) :
  page_ok p ->
  (forall value, page_ok (snd (engine (setVolume value) b p)))
  /\ (forall w, page_ok (snd (engine (setWaveform w) b p))).
Proof.
  intros [Hengine Hbound].
  set (P := fun s : AudioEngine =>
              engine_new_or_ready s
              /\ activeOscillators s = activeOscillators (audioEngine p)).
  destruct (controls_keep_engine P) as [Hvol Hwave];
    try (intros ? ? H; exact H).
  assert (Hok : forall s, P s -> page_ok (set_engine s p)).
  { intros s [Hs Hv]. split; [exact Hs |].
    intros t k Hin. cbn in *. rewrite Hv. now apply (Hbound t). }
  split; intros x; rewrite engine_run; cbn [snd]; apply Hok;
    [apply Hvol | apply Hwave]; now split.
Qed.

Lemma initialize_new_or_ready (b : Browser) (s : AudioEngine) :
  working b -> engine_new_or_ready s ->
  engine_new_or_ready (snd (initialize b s))
  /\ activeOscillators (snd (initialize b s)) = activeOscillators s.
Proof.
  intros Hb Hs.
  destruct (initialize_outcome b s) as (_ & Hv & _). split; [| exact Hv].
  destruct (initialized s) eqn:Hi.
  - assert (Hsame : initialize b s = (Normal tt, s))
      by (unfold initialize, bind, gets, ret; now rewrite Hi).
    now rewrite Hsame.
  - destruct (initialize_working b s Hb Hi)
      as (s' & pre & Hrun & Hi' & Hc & Hm & _).
    rewrite Hrun. right. split; [exact Hi' |].
    do 2 eexists. split; eassumption.
Qed.

Lemma initOnce_page_ok (registered : Page -> bool)
    (unregister : Page -> Page) (b : Browser) (p : Page) :
  working b ->
  audioEngine (unregister p) = audioEngine p ->
  activeTouches (unregister p) = activeTouches p ->
  page_ok p -> page_ok (snd (initOnce registered unregister b p)).
Proof.
  intros Hb He Ht [Hengine Hbound]. unfold initOnce.
  destruct (registered p); [| now split].
  rewrite engine_run. cbn [snd]. rewrite He.
  destruct (initialize_new_or_ready b (audioEngine p) Hb Hengine)
    as [Hready Hv].
  split; [exact Hready |].
  intros t k Hin. cbn in *. rewrite Hv. apply (Hbound t). now rewrite <- Ht.
Qed.

Lemma generateKeyboard_page_ok (p p0 : Page) :
  audioEngine p = audioEngine p0 -> activeTouches p = activeTouches p0 ->
  page_ok p0 -> page_ok (generateKeyboard p).
Proof.
  intros He Ht [Hengine Hbound]. unfold generateKeyboard.
  destruct (generateKeyboard_keys p); split; cbn;
    try (now rewrite He);
    intros t k Hin; cbn in *; rewrite He; apply (Hbound t);
    now rewrite <- Ht.
Qed.

Lemma handle_page_ok (e : Event) (b : Browser) (p : Page) :
  working b -> page_ok p -> page_ok (handle e b p).
Proof.
  intros Hb Hp. destruct e; cbn [handle].
  - apply initOnce_page_ok; try reflexivity; try assumption.
    exact (proj2 (handleTouchStart_well_behaved changedTouches b p Hb Hp)).
  - exact (proj2 (handleTouchEnd_well_behaved changedTouches b p Hb Hp)).
  - exact (proj2 (handleTouchMove_well_behaved touches b p Hb Hp)).
  - apply initOnce_page_ok; try reflexivity; try assumption.
    destruct currentTarget as [keyId |]; [| exact Hp].
    destruct (getElementById p keyId) as [el |]; [| exact Hp].
    exact (proj2 (playKey_well_behaved el Mouse b p Hb Hp)).
  - destruct (getElementById p currentTarget) as [el |]; [| exact Hp].
    exact (proj2 (stopKey_well_behaved el b p Hb Hp)).
  - now apply (generateKeyboard_page_ok _ p).
  - now apply (generateKeyboard_page_ok _ p).
  - now apply (generateKeyboard_page_ok _ p).
  - now apply controls_keep_page_ok.
  - now apply controls_keep_page_ok.
Qed.

Lemma Page_new_ok : page_ok Page_new.
Proof.
  split.
  - left. split; reflexivity.
  - intros t k [].
Qed.

(** X20. As long as no call on the sink throws, whatever the user does
    among the events of the model (touches, mouse presses, slides across
    keys, changes of layout and tuning, a base frequency that is a number,
    changes of waveform and volume), every key that an entry of
    [activeTouches] binds has a voice in the engine.  A sink that refuses a
    call is outside this property, and a conforming browser refuses a
    frequency that is not finite, as the frequency of every key is after
    the base-frequency field was emptied: then a pointer is left holding
    a silent key. *)
Theorem bound_keys_always_sound (events : list (Event * Browser)) :
  (forall e b, In (e, b) events -> working b) ->
  forall (t : TouchId) (keyId : string),
    In (t, keyId) (activeTouches (dispatch events Page_new)) ->
    exists v : VoiceData,
      JSMap.get (activeOscillators (audioEngine (dispatch events Page_new)))
                keyId = Some v.
Proof.
  intros Hworking.
  assert (H : forall p, page_ok p -> page_ok (dispatch events p)).
  { induction events as [| [e b] rest IH]; intros p Hp; cbn [dispatch].
    - exact Hp.
    - apply IH.
      + intros e' b' Hin. apply (Hworking e'). now right.
      + apply handle_page_ok; [| exact Hp].
        apply (Hworking e). now left. }
  apply (H Page_new Page_new_ok).
Qed.

(** A finger on the thirteenth key of the first keyboard. *)
Lemma bound_keys_always_sound_witness :
  Forall
    (fun binding : TouchId * string =>
       exists v : VoiceData,
         JSMap.get
           (activeOscillators
              (audioEngine
                 (dispatch [(TouchStart [mkTouch 1 (Some "key-12"%string)],
                             audio_ok 0)] Page_new)))
           (snd binding) = Some v)
    (activeTouches
       (dispatch [(TouchStart [mkTouch 1 (Some "key-12"%string)],
                   audio_ok 0)] Page_new)).
Proof.
  apply Forall_forall. intros [t keyId].
  apply (bound_keys_always_sound
           [(TouchStart [mkTouch 1 (Some "key-12"%string)], audio_ok 0)]).
  intros e b [[= <- <-] | []] c. reflexivity.
Defined.

Lemma keyboard_ids (p : Page) (l : LayoutId) (rows cols : Z) :
  0 <= rows -> 0 <= cols ->
  map elementId
      (map createKeyElement
           (generator (layout_of l) (tuningSystem p) (currentTuning p)
                      rows cols))
  = map (fun i => ("key-" ++ JS.show_int i)%string)
        (zrange 0 (Z.to_nat (rows * cols))).
Proof.
  intros Hrows Hcols. rewrite map_map.
  exact (generated_ids (tuningSystem p) (currentTuning p) rows cols l
           Hrows Hcols).
Qed.

(** X21. Whatever layout name is selected, [generateKeyboard] either
    fills the container with 48 key elements, identified key-0 to key-47 in
    order and none of them active, or leaves it empty; it fills it for the
    four layouts of the registry and for every other name that is a valid
    class token and not a property of [Object.prototype]. *)
Theorem keyboards_have_48_keys (p : Page) :
  (map elementId (keyboard (generateKeyboard p))
   = map (fun i => ("key-" ++ JS.show_int i)%string) (zrange 0 48)
   \/ keyboard (generateKeyboard p) = [])
  /\ (forall el, In el (keyboard (generateKeyboard p)) -> isActive el = false)
  /\ (invalid_token (currentLayout p) = false ->
      existsb (String.eqb (currentLayout p)) Object_prototype = false ->
      map elementId (keyboard (generateKeyboard p))
      = map (fun i => ("key-" ++ JS.show_int i)%string) (zrange 0 48)).
Proof.
  assert (Hfilled :
    invalid_token (currentLayout p) = false ->
    existsb (String.eqb (currentLayout p)) Object_prototype = false ->
    map elementId (keyboard (generateKeyboard p))
    = map (fun i => ("key-" ++ JS.show_int i)%string) (zrange 0 48)).
  { intros Htoken Hproto.
    unfold generateKeyboard, generateKeyboard_keys. rewrite Htoken.
    destruct (recognized (currentLayout p)) eqn:Hrec.
    - unfold recognized in Hrec. apply existsb_exists in Hrec.
      destruct Hrec as (name & Hin & Heq). apply String.eqb_eq in Heq.
      rewrite Heq. cbn in Hin.
      destruct Hin as [<- | [<- | [<- | [<- | []]]]]; cbn [getLayout];
        cbn -[generator zrange JS.show_int].
      + apply (keyboard_ids p Chromatic 4 12); lia.
      + apply (keyboard_ids p WickiHayden 6 8); lia.
      + apply (keyboard_ids p HarmonicTable 6 8); lia.
      + apply (keyboard_ids p Janko 6 8); lia.
    - rewrite (getLayout_default _ Hrec Hproto).
      assert (Hnot : String.eqb (currentLayout p) "chromatic" = false).
      { unfold recognized in Hrec. cbn in Hrec.
        now apply orb_false_elim in Hrec. }
      rewrite Hnot. cbn [keyboard set_keyboard].
      apply (keyboard_ids p Chromatic 6 8); lia. }
  split; [| split; [| exact Hfilled]].
  - unfold generateKeyboard, generateKeyboard_keys in *.
    destruct (invalid_token (currentLayout p)); [now right |].
    destruct (existsb (String.eqb (currentLayout p)) Object_prototype)
      eqn:Hproto; [| left; now apply Hfilled].
    right. apply existsb_exists in Hproto.
    destruct Hproto as (name & Hin & Heq). apply String.eqb_eq in Heq.
    rewrite Heq. cbn in Hin.
    repeat (destruct Hin as [<- | Hin]; [reflexivity |]).
    contradiction.
  - unfold generateKeyboard. intros el Hin.
    destruct (generateKeyboard_keys p); cbn in Hin; [| contradiction].
    apply in_map_iff in Hin. now destruct Hin as (k & <- & _).
Qed.

(** The harmonic table is selected. *)
Lemma keyboards_have_48_keys_witness :
  map elementId
      (keyboard (generateKeyboard (set_currentLayout "harmonic" Page_new)))
  = map (fun i => ("key-" ++ JS.show_int i)%string) (zrange 0 48).
Proof.
  apply (proj2 (proj2 (keyboards_have_48_keys
                         (set_currentLayout "harmonic" Page_new))));
    reflexivity.
Defined.

Lemma getElementById_id (p : Page) (keyId : string) (el : KeyElement) :
  getElementById p keyId = Some el -> elementId el = keyId.
Proof.
  unfold getElementById. intros H. apply find_some in H.
  now apply String.eqb_eq.
Qed.

Lemma set_active_flag (keyId : string) (flag : bool) (p : Page)
    (el : KeyElement) :
  In el (keyboard (set_active keyId flag p)) ->
  elementId el = keyId -> isActive el = flag.
Proof.
  unfold set_active. cbn [keyboard set_keyboard]. intros Hin Hid.
  apply in_map_iff in Hin. destruct Hin as (el0 & Heq & _).
  destruct (String.eqb_spec (elementId el0) keyId) as [_ | Hne].
  - now rewrite <- Heq.
  - now rewrite Heq in Hne.
Qed.

(** [stopKey] where the sink works: the page it leaves. *)
Lemma stopKey_working (el : KeyElement) (b : Browser) (p : Page) :
  working b -> page_ok p ->
  exists s' : AudioEngine,
    stopKey el b p
    = (Normal tt,
       set_active (elementId el) false
         (set_engine s'
            (set_touches (fun m => touches_release m (elementId el)) p)))
    /\ activeOscillators s'
       = JSMap.delete (activeOscillators (audioEngine p)) (elementId el)
    /\ engine_new_or_ready s'.
Proof.
  intros Hb [Hengine _].
  destruct (stopNote_new_or_ready (elementId el) b (audioEngine p) Hb
              Hengine) as (s' & Hrun & Hv & Hengine').
  exists s'. split; [| now split].
  unfold stopKey, pbind, pmodify. rewrite engine_run.
  change (audioEngine (set_touches _ p)) with (audioEngine p).
  now rewrite Hrun.
Qed.

(** [playKey] where the sink works: the page it leaves. *)
Lemma playKey_working (el : KeyElement) (t : TouchId) (b : Browser)
    (p : Page) :
  working b -> page_ok p ->
  exists (s' : AudioEngine) (v : VoiceData),
    playKey el t b p
    = (Normal tt,
       set_active (elementId el) true
         (set_engine s'
            (set_touches (fun m => touches_set m t (elementId el)) p)))
    /\ activeOscillators s'
       = JSMap.set (JSMap.delete (activeOscillators (audioEngine p))
                                 (elementId el))
                   (elementId el) v
    /\ voiceFrequency v = datasetFrequency el.
Proof.
  intros Hb [Hengine _].
  destruct (playNote_working_ready (elementId el) (datasetFrequency el) b
              (audioEngine p) Hb (new_or_ready_has_sink _ Hengine))
    as (s' & v & Hrun & Hv & Hf & _).
  exists s', v. split; [| now split].
  unfold playKey, pbind, pmodify. rewrite engine_run.
  change (audioEngine (set_touches _ p)) with (audioEngine p).
  now rewrite Hrun.
Qed.

(** X22. [stopKey] unbinds every pointer from the key, and no other
    binding, whether or not releasing the voice throws.  Where the sink
    works it returns normally, the key has no voice afterwards, the voices
    of the other keys are as they were, and the element of the key is no
    longer shown active. *)
Theorem stopKey_frees_the_key (el : KeyElement) (b : Browser) (p : Page) :
  (forall (t : TouchId) (k : string),
     In (t, k) (activeTouches (snd (stopKey el b p)))
     <-> In (t, k) (activeTouches p) /\ k <> elementId el)
  /\ (working b -> page_ok p ->
      fst (stopKey el b p) = Normal tt
      /\ JSMap.get (activeOscillators (audioEngine (snd (stopKey el b p))))
                   (elementId el) = None
      /\ (forall k : string,
            k <> elementId el ->
            JSMap.get (activeOscillators (audioEngine (snd (stopKey el b p))))
                      k
            = JSMap.get (activeOscillators (audioEngine p)) k)
      /\ (forall el' : KeyElement,
            In el' (keyboard (snd (stopKey el b p))) ->
            elementId el' = elementId el -> isActive el' = false)).
Proof.
  split.
  - intros t k. rewrite stopKey_touches. apply touches_release_In.
  - intros Hb Hp.
    destruct (stopKey_working el b p Hb Hp) as (s' & Hrun & Hv & _).
    rewrite Hrun. cbn [fst snd].
    change (audioEngine (set_active _ _ (set_engine s' _))) with s'.
    rewrite Hv. repeat split.
    + apply JSMapFacts.get_delete.
    + intros k Hne. now apply get_delete_other.
    + intros el'. apply set_active_flag.
Qed.

(** The first key of the first page, released by the mouse. *)
Lemma stopKey_frees_the_key_witness :
  fst (stopKey (mkElement "key-0" None false) (audio_ok 0) Page_new)
  = Normal tt.
Proof.
  refine (proj1 (proj2 (stopKey_frees_the_key
                          (mkElement "key-0" None false) (audio_ok 0)
                          Page_new) _ _)).
  - intros c. reflexivity.
  - apply Page_new_ok.
Defined.

(** X23. A finger that slides from the key it holds onto another key
    moves its note: where the sink works the [touchmove] listener returns
    normally, the finger is bound to the new key, the new key has a voice
    at the frequency of its element, and the key it left has none.  A
    finger that is still on its key changes nothing, in any browser. *)
Theorem slide_moves_the_note (b : Browser) (p : Page) (i : Z)
    (newId : string) (newKey : KeyElement) :
  getElementById p newId = Some newKey ->
  (touches_get (activeTouches p) (Touch i) = Some newId ->
   handleTouchMove [mkTouch i (Some newId)] b p = (Normal tt, p))
  /\ (forall (oldId : string) (oldKey : KeyElement),
        working b -> page_ok p ->
        touches_get (activeTouches p) (Touch i) = Some oldId ->
        getElementById p oldId = Some oldKey ->
        oldId <> EmptyString -> oldId <> newId ->
        let p' := snd (handleTouchMove [mkTouch i (Some newId)] b p) in
        fst (handleTouchMove [mkTouch i (Some newId)] b p) = Normal tt
        /\ touches_get (activeTouches p') (Touch i) = Some newId
        /\ JSMap.get (activeOscillators (audioEngine p')) oldId = None
        /\ exists v : VoiceData,
             JSMap.get (activeOscillators (audioEngine p')) newId = Some v
             /\ voiceFrequency v = datasetFrequency newKey).
Proof.
  intros Hnew. pose proof (getElementById_id _ _ _ Hnew) as Hid.
  subst newId. split.
  - intros Hheld. unfold handleTouchMove. cbn [for_each_touch].
    unfold pbind, key_under. cbn [target identifier].
    rewrite Hnew, Hheld, String.eqb_refl. reflexivity.
  - intros oldId oldKey Hb Hp Hheld Hold Hne Hdiff.
    pose proof (getElementById_id _ _ _ Hold) as Hid'. subst oldId.
    assert (Hrun : exists (s' : AudioEngine) (v : VoiceData) (p1 : Page),
      handleTouchMove [mkTouch i (Some (elementId newKey))] b p
      = (Normal tt,
         set_active (elementId newKey) true
           (set_engine s'
              (set_touches
                 (fun m => touches_set m (Touch i) (elementId newKey)) p1)))
      /\ activeOscillators s'
         = JSMap.set
             (JSMap.delete
                (JSMap.delete (activeOscillators (audioEngine p))
                              (elementId oldKey))
                (elementId newKey))
             (elementId newKey) v
      /\ voiceFrequency v = datasetFrequency newKey).
    { unfold handleTouchMove. cbn [for_each_touch].
      unfold pbind at 1. unfold key_under. cbn [target identifier].
      rewrite Hnew, Hheld.
      destruct (String.eqb_spec (elementId oldKey) (elementId newKey))
        as [E | _]; [contradiction |].
      unfold pbind at 1. unfold stop_key_of.
      assert (Htruthy : truthy_id (Some (elementId oldKey))
                        = Some (elementId oldKey))
        by (destruct (elementId oldKey); [contradiction | reflexivity]).
      rewrite Htruthy, Hold.
      pose proof (proj2 (stopKey_well_behaved oldKey b p Hb Hp)) as Hp1.
      destruct (stopKey_working oldKey b p Hb Hp) as (s1 & Hstop & Hv1 & _).
      rewrite Hstop in Hp1 |- *. cbn [snd] in Hp1.
      destruct (playKey_working newKey (Touch i) b _ Hb Hp1)
        as (s' & v & Hplay & Hv & Hf).
      rewrite Hplay. unfold pret.
      exists s', v. eexists. split; [reflexivity |].
      split; [| exact Hf].
      rewrite Hv. cbn [audioEngine set_active set_keyboard set_engine].
      now rewrite Hv1. }
    destruct Hrun as (s' & v & p1 & Hrun & Hv & Hf).
    cbv zeta. rewrite Hrun. cbn [fst snd].
    change (audioEngine (set_active _ _ (set_engine s' _))) with s'.
    rewrite Hv. repeat split.
    + cbn [activeTouches set_active set_keyboard set_engine set_touches].
      apply touches_set_get.
    + rewrite get_set_other, get_delete_other by assumption.
      apply JSMapFacts.get_delete.
    + exists v. split; [apply JSMapFacts.get_set | exact Hf].
Qed.

(** The page after a first finger has come down on the first key. *)
Lemma first_touch_page :
  let p := snd (handleTouchStart [mkTouch 1 (Some "key-0"%string)]
                                 (audio_ok 0) Page_new) in
  page_ok p
  /\ touches_get (activeTouches p) (Touch 1) = Some "key-0"%string
  /\ (exists el, getElementById p "key-0" = Some el)
  /\ (exists el, getElementById p "key-1" = Some el).
Proof.
  assert (Hb : working (audio_ok 0)) by (intros c; reflexivity).
  cbv zeta. split.
  { exact (proj2 (handleTouchStart_well_behaved _ _ _ Hb Page_new_ok)). }
  assert (Hel : exists el, getElementById Page_new "key-0" = Some el)
    by (eexists; lazy; reflexivity).
  destruct Hel as [el Hel]. pose proof (getElementById_id _ _ _ Hel) as Hid.
  unfold handleTouchStart. cbn [for_each_touch]. unfold pbind at 1.
  unfold key_under. cbn [target identifier]. rewrite Hel.
  destruct (playKey_working el (Touch 1) (audio_ok 0) Page_new Hb
              Page_new_ok) as (s' & v & Hrun & _).
  rewrite Hrun, Hid. unfold pret. cbn [snd]. repeat split.
  - eexists. lazy. reflexivity.
  - eexists. lazy. reflexivity.
Qed.

(** The finger on the first key slides onto the second. *)
Lemma slide_moves_the_note_witness :
  fst (handleTouchMove
         [mkTouch 1 (Some "key-1"%string)] (audio_ok 0)
         (snd (handleTouchStart [mkTouch 1 (Some "key-0"%string)]
                                (audio_ok 0) Page_new)))
  = Normal tt.
Proof.
  destruct first_touch_page as (Hp & Hheld & [oldKey Hold] & [newKey Hnew]).
  refine (proj1 (proj2 (slide_moves_the_note (audio_ok 0) _ 1 "key-1"
                          newKey Hnew)
                   "key-0"%string oldKey _ Hp Hheld Hold _ _)).
  - intros c. reflexivity.
  - discriminate.
  - discriminate.
Defined.

(** X24. A finger that leaves the screen frees the key it was bound to
    for every pointer: where the sink works [handleTouchEnd] returns
    normally, no pointer is bound to that key any more (a second finger
    still resting on it has lost its binding too), the bindings to other
    keys are kept, and the key has no voice.  A finger that was bound to no
    key changes nothing, in any browser. *)
Theorem lifting_a_finger_frees_its_key (b : Browser) (p : Page) (i : Z)
    (under : option string) :
  (touches_get (activeTouches p) (Touch i) = None ->
   handleTouchEnd [mkTouch i under] b p = (Normal tt, p))
  /\ (forall (keyId : string) (key : KeyElement),
        working b -> page_ok p ->
        touches_get (activeTouches p) (Touch i) = Some keyId ->
        keyId <> EmptyString ->
        getElementById p keyId = Some key ->
        let p' := snd (handleTouchEnd [mkTouch i under] b p) in
        fst (handleTouchEnd [mkTouch i under] b p) = Normal tt
        /\ (forall (t : TouchId) (k : string),
              In (t, k) (activeTouches p')
              <-> In (t, k) (activeTouches p) /\ k <> keyId)
        /\ JSMap.get (activeOscillators (audioEngine p')) keyId = None).
Proof.
  split.
  - intros Hfree. unfold handleTouchEnd. cbn [for_each_touch].
    unfold pbind, stopKeyByTouch, stop_key_of. cbn [identifier].
    now rewrite Hfree.
  - intros keyId key Hb Hp Hheld Hne Hkey.
    pose proof (getElementById_id _ _ _ Hkey) as Hid. subst keyId.
    assert (Htruthy : truthy_id (Some (elementId key))
                      = Some (elementId key))
      by (destruct (elementId key); [contradiction | reflexivity]).
    destruct (stopKey_working key b p Hb Hp) as (s' & Hrun & Hv & _).
    assert (Hend : handleTouchEnd [mkTouch i under] b p = stopKey key b p).
    { unfold handleTouchEnd. cbn [for_each_touch].
      unfold pbind, stopKeyByTouch, stop_key_of. cbn [identifier].
      now rewrite Hheld, Htruthy, Hkey, Hrun. }
    cbv zeta. rewrite Hend. split; [now rewrite Hrun |]. split.
    + intros t k. rewrite stopKey_touches. apply touches_release_In.
    + rewrite Hrun. cbn [snd].
      change (audioEngine (set_active _ _ (set_engine s' _))) with s'.
      rewrite Hv. apply JSMapFacts.get_delete.
Qed.

(** The finger that came down on the first key is lifted. *)
Lemma lifting_a_finger_frees_its_key_witness :
  fst (handleTouchEnd
         [mkTouch 1 None] (audio_ok 0)
         (snd (handleTouchStart [mkTouch 1 (Some "key-0"%string)]
                                (audio_ok 0) Page_new)))
  = Normal tt.
Proof.
  destruct first_touch_page as (Hp & Hheld & [key Hkey] & _).
  refine (proj1 (proj2 (lifting_a_finger_frees_its_key (audio_ok 0) _ 1 None)
                   "key-0"%string key _ Hp Hheld _ Hkey)).
  - intros c. reflexivity.
  - discriminate.
Defined.

(** X25. [playKey] binds the pointer to the key before it plays the
    note, in any browser and whatever the outcome.  When [playNote] throws,
    [playKey] throws the same error, the elements of the keyboard and the
    voices are as they were, and the pointer stays bound to the key; when
    [playNote] returns, [playKey] returns and the element of the key is
    shown active. *)
Theorem press_binds_before_it_plays (el : KeyElement) (t : TouchId)
    (b : Browser) (p : Page) :
  let played :=
    fst (playNote (elementId el) (datasetFrequency el) b (audioEngine p)) in
  let p' := snd (playKey el t b p) in
  touches_get (activeTouches p') t = Some (elementId el)
  /\ (forall e : Error,
        played = Throw e ->
        fst (playKey el t b p) = Throw e
        /\ keyboard p' = keyboard p
        /\ activeOscillators (audioEngine p')
           = activeOscillators (audioEngine p))
  /\ (played = Normal tt ->
      fst (playKey el t b p) = Normal tt
      /\ forall el' : KeyElement,
           In el' (keyboard p') ->
           elementId el' = elementId el -> isActive el' = true).
Proof.
  cbv zeta.
  assert (Hrun : playKey el t b p
    = match fst (playNote (elementId el) (datasetFrequency el) b
                          (audioEngine p)) with
      | Normal _ =>
          (Normal tt,
           set_active (elementId el) true
             (set_engine
                (snd (playNote (elementId el) (datasetFrequency el) b
                               (audioEngine p)))
                (set_touches (fun m => touches_set m t (elementId el)) p)))
      | Throw e =>
          (Throw e,
           set_engine
             (snd (playNote (elementId el) (datasetFrequency el) b
                            (audioEngine p)))
             (set_touches (fun m => touches_set m t (elementId el)) p))
      end).
  { unfold playKey, pbind, pmodify. rewrite engine_run.
    change (audioEngine (set_touches _ p)) with (audioEngine p).
    now destruct (fst (playNote _ _ b (audioEngine p))) as [[] | e]. }
  rewrite Hrun.
  destruct (playNote_outcome_cases (elementId el) (datasetFrequency el) b
              (audioEngine p)) as (_ & Hcases).
  cbv zeta in Hcases.
  destruct (fst (playNote (elementId el) (datasetFrequency el) b
                          (audioEngine p))) as [[] | e0] eqn:Hplayed;
    cbn [fst snd activeTouches set_active set_keyboard set_engine
         set_touches].
  - split; [apply touches_set_get |]. split; [discriminate |].
    intros _. split; [reflexivity |]. intros el'.
    apply (set_active_flag (elementId el) true
             (set_engine _ (set_touches _ p))).
  - split; [apply touches_set_get |]. split; [| discriminate].
    intros e [= <-]. repeat split.
    cbn [audioEngine keyboard].
    destruct Hcases as [[_ Hv] | [[Hr _] | [Hr _]]];
      [exact Hv | discriminate Hr | discriminate Hr].
Qed.

(** The first press, on the first key, in a browser without Web Audio:
    the mouse stays bound to a key that has no voice. *)
Lemma press_binds_before_it_plays_witness :
  fst (playKey (mkElement "key-0" (Some 440%R) false) Mouse no_audio
               Page_new)
  = Throw (TypeError "Cannot read properties of null")
  /\ touches_get
       (activeTouches
          (snd (playKey (mkElement "key-0" (Some 440%R) false) Mouse
                        no_audio Page_new)))
       Mouse
     = Some "key-0"%string
  /\ activeOscillators
       (audioEngine
          (snd (playKey (mkElement "key-0" (Some 440%R) false) Mouse
                        no_audio Page_new)))
     = [].
Proof.
  pose proof (press_binds_before_it_plays
                (mkElement "key-0" (Some 440%R) false) Mouse no_audio
                Page_new) as (Hbound & Hthrow & _).
  destruct (Hthrow (TypeError "Cannot read properties of null")
                   eq_refl) as (Hr & _ & Hv).
  split; [exact Hr | split; [exact Hbound | exact Hv]].
Defined.

(** X26. Choosing another layout or tuning, or another base frequency,
    rebuilds the key elements and nothing else: the engine, with its
    voices and their frequencies, and the bindings of the pointers are as
    they were, so a note that is held goes on sounding at the frequency it
    was started with, and no element of the new keyboard is shown
    active. *)
Theorem retuning_keeps_held_notes (b : Browser) (p : Page)
    (layout tuning : string) (freq : R) :
  let rebuilt (p' : Page) :=
    audioEngine p' = audioEngine p
    /\ activeTouches p' = activeTouches p
    /\ (forall el, In el (keyboard p') -> isActive el = false) in
  rebuilt (handle (LayoutChange layout) b p)
  /\ rebuilt (handle (TuningChange tuning) b p)
  /\ rebuilt (handle (BaseFrequencyInput freq) b p).
Proof.
  assert (Hgen : forall q,
    audioEngine (generateKeyboard q) = audioEngine q
    /\ activeTouches (generateKeyboard q) = activeTouches q
    /\ (forall el, In el (keyboard (generateKeyboard q)) ->
                   isActive el = false)).
  { intros q. unfold generateKeyboard.
    destruct (generateKeyboard_keys q); cbn; repeat split;
      try contradiction.
    intros el Hin. apply in_map_iff in Hin.
    now destruct Hin as (k & <- & _). }
  cbv zeta. cbn [handle]. split; [| split].
  - exact (Hgen (set_currentLayout layout p)).
  - exact (Hgen (set_currentTuning tuning p)).
  - exact (Hgen (set_tuningSystem (setBaseFrequency (tuningSystem p) freq)
                                  p)).
Qed.

Lemma touches_get_In (m : Touches) (t : TouchId) (k : string) :
  touches_get m t = Some k -> In (t, k) m.
Proof.
  induction m as [| [t0 k0] m IH]; cbn; [discriminate |].
  destruct (TouchId_eqb t0 t) eqn:E.
  - intros [= ->]. apply TouchId_eqb_eq in E. subst. now left.
  - intros H. right. now apply IH.
Qed.

(** X28. A press on a silent key whose frequency the browser refuses (as
    it must when the frequency is not a finite number, for instance after
    the base-frequency field was emptied) binds the pointer to the key and
    registers no voice, whether [playNote] returns or throws: the pointer
    holds a silent key, and not every bound key sounds any more. *)
Theorem refused_frequency_leaves_silent_key (el : KeyElement) (t : TouchId)
    (b : Browser) (p : Page) :
  refuses b (datasetFrequency el) ->
  JSMap.get (activeOscillators (audioEngine p)) (elementId el) = None ->
  touches_get (activeTouches (snd (playKey el t b p))) t
  = Some (elementId el)
  /\ JSMap.get (activeOscillators (audioEngine (snd (playKey el t b p))))
                (elementId el) = None
  /\ ~ bound_keys_sound (snd (playKey el t b p)).
Proof.
  intros Href Hget.
  assert (Hrun :
    activeTouches (snd (playKey el t b p))
    = touches_set (activeTouches p) t (elementId el)
    /\ audioEngine (snd (playKey el t b p))
       = snd (playNote (elementId el) (datasetFrequency el) b
                       (audioEngine p))).
  { unfold playKey, pbind, pmodify. rewrite engine_run.
    change (audioEngine (set_touches _ p)) with (audioEngine p).
    now destruct (fst (playNote _ _ b (audioEngine p))) as [[] | e]. }
  destruct Hrun as [Htouches Hengine].
  assert (Hbound : touches_get (activeTouches (snd (playKey el t b p))) t
                   = Some (elementId el))
    by (rewrite Htouches; apply touches_set_get).
  assert (Hsilent :
    JSMap.get (activeOscillators (audioEngine (snd (playKey el t b p))))
              (elementId el) = None)
    by (rewrite Hengine; now apply playNote_refused).
  split; [exact Hbound |]. split; [exact Hsilent |].
  intros Hsound.
  destruct (Hsound t (elementId el) (touches_get_In _ _ _ Hbound))
    as [v Hv].
  congruence.
Qed.

(** The first key of the first page, when its frequency is not a
    number. *)
Lemma refused_frequency_leaves_silent_key_witness :
  touches_get
    (activeTouches
       (snd (playKey (mkElement "key-0" None false) Mouse rejects_NaN
                     Page_new)))
    Mouse
  = Some "key-0"%string
  /\ JSMap.get
       (activeOscillators
          (audioEngine
             (snd (playKey (mkElement "key-0" None false) Mouse rejects_NaN
                           Page_new))))
       "key-0" = None.
Proof.
  destruct (refused_frequency_leaves_silent_key
              (mkElement "key-0" None false) Mouse rejects_NaN Page_new)
    as (Hbound & Hsilent & _).
  - intros osc now. reflexivity.
  - reflexivity.
  - split; assumption.
Defined.

End RouterFacts.
